(** * Nominatim workshop scraper: a shallow embedding of [src/main.py]

    The development follows the three components of the program:
    the request filter installed by [_block_unnecessary_requests], the
    card extractor [parse_cards], and the retrying acquisition loop
    [scrape_with_playwright] with its caller [main].

    What is modelled, and how:
    - text is a [string] over 8-bit code points, and white space is
      what [str.isspace] accepts in that range;
    - a card is what [query_selector] answers for a selector, an
      element is its [inner_text]; the extractor is a function of the
      DOM, and on the host the reads of the DOM are a call that may
      raise;
    - the browser is an abstract session: each page operation of the
      controller (navigation, waits, snapshot, reload) is an operation
      on the state of the world that may raise;
    - a run threads the world and the trace of the calls made, in
      program order, through a state and exception monad;
    - exceptions are the two classes the retry loop names and one
      constructor for every other subclass of [Exception];
    - the program is given twice.  The controller of a session is the
      setting of the statements about the retry loop: there only the
      page operations can fail, the session is set up and closed and
      the DOM is read without error, and the output file is the list
      of its rows.  [Host] is the setting of the statements about the
      failures of the whole program: there every call into Playwright,
      the file system and the console may raise, the Playwright
      context is entered and left, and the file is opened, written
      and closed call by call.  The first is the second on the host
      where only the session can fail ([host_of_session_scrape]). *)

From Stdlib Require Import List String Ascii ZArith Bool Arith Lia DecimalString.
From Stdlib Require Import DecimalPos DecimalZ.
Import ListNotations.
Local Open Scope list_scope.
Local Open Scope string_scope.

(* ================================================================== *)
(** * Part I. Definitions *)
(* ================================================================== *)

(** ** Python string primitives used by the program *)

(** [str.isspace] restricted to code points below 256: TAB..CR, FS..US,
    SPACE, NEL (0x85) and NBSP (0xA0). *)
Definition isspace (c : ascii) : bool :=
  let n := nat_of_ascii c in
  ((9 <=? n)%nat && (n <=? 13)%nat)
  || ((28 <=? n)%nat && (n <=? 32)%nat)
  || (n =? 133)%nat
  || (n =? 160)%nat.

Fixpoint lstrip (s : string) : string :=
  match s with
  | EmptyString => EmptyString
  | String c s' => if isspace c then lstrip s' else s
  end.

Fixpoint rstrip (s : string) : string :=
  match s with
  | EmptyString => EmptyString
  | String c s' =>
      match rstrip s' with
      | EmptyString => if isspace c then EmptyString else String c EmptyString
      | r => String c r
      end
  end.

(** [s.strip()] *)
Definition strip (s : string) : string := rstrip (lstrip s).

(** Truth value of a [str]: non-empty. *)
Definition truthy (s : string) : bool :=
  match s with
  | EmptyString => false
  | String _ _ => true
  end.

(** [s.split(sep)] for a one-character separator: every occurrence
    splits, and the result always has at least one element. *)
Fixpoint split (sep : ascii) (s : string) : list string :=
  match s with
  | EmptyString => [EmptyString]
  | String c s' =>
      if Ascii.eqb c sep then EmptyString :: split sep s'
      else match split sep s' with
           | h :: t => String c h :: t
           | [] => [String c EmptyString]
           end
  end.

(** [s.split(sep, 1)]: at most one split, at the first occurrence. *)
Fixpoint split_once (sep : ascii) (s : string) : list string :=
  match s with
  | EmptyString => [EmptyString]
  | String c s' =>
      if Ascii.eqb c sep then [EmptyString; s']
      else match split_once sep s' with
           | h :: t => String c h :: t
           | [] => [String c EmptyString]
           end
  end.

(** [sep.join(l)] *)
Fixpoint join (sep : string) (l : list string) : string :=
  match l with
  | [] => EmptyString
  | [x] => x
  | x :: rest => x ++ sep ++ join sep rest
  end.

(** [s.startswith(p)] *)
Fixpoint startswith (s p : string) {struct p} : bool :=
  match p with
  | EmptyString => true
  | String c p' =>
      match s with
      | EmptyString => false
      | String d s' => Ascii.eqb c d && startswith s' p'
      end
  end.

(** [needle in hay]: [needle] starts at some position of [hay]. *)
Fixpoint contains (needle hay : string) : bool :=
  startswith hay needle
  || match hay with
     | EmptyString => false
     | String _ hay' => contains needle hay'
     end.

(** [l[1:-1]] *)
Definition slice_1_m1 {A : Type} (l : list A) : list A := removelast (tl l).

Definition comma : ascii := ","%char.
Definition dquote : string := String (ascii_of_nat 34) EmptyString.

(** ** Resource filter: [_block_unnecessary_requests] *)

Definition BLOCK_HOST_PATTERNS : list string :=
  [ "tile.openstreetmap.org";
    "tiles.openstreetmap.org";
    "basemaps.cartocdn.com";
    "cartocdn.com";
    "fastly.net";
    "gstatic.com";
    "googleapis.com" ].

Definition BLOCK_RESOURCE_TYPES : list string := ["image"; "font"; "media"].

(** [any(h in url for h in BLOCK_HOST_PATTERNS)] *)
Definition should_block (url : string) : bool :=
  existsb (fun h => contains h url) BLOCK_HOST_PATTERNS.

(** [h] occurs in [url]. *)
Definition is_substring (h url : string) : Prop :=
  exists pre post, url = pre ++ h ++ post.

(** What the route handler sees of [route.request]. *)
Record Request := mkRequest {
  req_url : string;
  resource_type : string
}.

Inductive RouteAction := Abort | Continue.

(** [resource_type in BLOCK_RESOURCE_TYPES] *)
Definition in_types (ty : string) (tys : list string) : bool :=
  existsb (String.eqb ty) tys.

(** The lambda passed to [page.route]. *)
Definition route_handler (r : Request) : RouteAction :=
  if in_types (resource_type r) BLOCK_RESOURCE_TYPES || should_block (req_url r)
  then Abort
  else Continue.

(** ** Card extractor: [parse_cards] *)

(** An element handle as the extractor uses it: [inner_text()]. *)
Record ElementHandle := mkElement { inner_text : string }.

(** A result card: [card.query_selector(sel)] gives the first matching
    descendant or [None]. *)
Record Card := mkCard { query_selector : string -> option ElementHandle }.

(** The DOM of the page as seen by [page.query_selector_all(sel)]. *)
Record Dom := mkDom { query_selector_all : string -> list Card }.

(** One row of the result: the dict built at the end of the loop body. *)
Record PlaceRecord := mkPlace {
  Name : string;
  Address : string;
  Country : string;
  Type_ : string;
  Latitude : string;
  Longitude : string
}.

Definition LISTITEM : string := "div[role=" ++ dquote ++ "listitem" ++ dquote ++ "]".

(** [[p.strip() for p in full_name.split(",") if p.strip()]] *)
Definition label_parts (full_name : string) : list string :=
  map strip (filter (fun p => truthy (strip p)) (split comma full_name)).

(** Both fields start empty; then comes the guarded split of the
    coordinate text.  The unpacking of a list that does not have two
    elements raises in Python; [split_once_comma_two] shows that this
    branch is never taken under the guard. *)
Definition parse_coords (coords_el : option ElementHandle) : string * string :=
  match coords_el with
  | None => (EmptyString, EmptyString)
  | Some el =>
      let txt := strip (inner_text el) in
      if contains "," txt then
        match map strip (split_once comma txt) with
        | [lat; lon] => (lat, lon)
        | _ => (EmptyString, EmptyString)
        end
      else (EmptyString, EmptyString)
  end.

(** The body of the [for card in cards] loop: [None] is [continue]. *)
Definition parse_card (card : Card) : option PlaceRecord :=
  match query_selector card "span.name" with
  | None => None
  | Some name_full_el =>
      let full_name := strip (inner_text name_full_el) in
      let parts := label_parts full_name in
      let name := hd EmptyString parts in
      let country := if (1 <? List.length parts)%nat then last parts EmptyString else EmptyString in
      let address := if (2 <? List.length parts)%nat then join ", " (slice_1_m1 parts) else EmptyString in
      let btype :=
        match query_selector card "span.type" with
        | Some type_el => strip (inner_text type_el)
        | None => EmptyString
        end in
      let '(lat, lon) := parse_coords (query_selector card "p.coords") in
      Some {| Name := name; Address := address; Country := country;
              Type_ := btype; Latitude := lat; Longitude := lon |}
  end.

(** The loop over a list of cards, appending to [results]. *)
Definition parse_card_list (cards : list Card) (results : list PlaceRecord)
  : list PlaceRecord :=
  fold_left
    (fun results card =>
       match parse_card card with
       | Some r => (results ++ [r])%list
       | None => results
       end)
    cards results.

Definition parse_cards (page : Dom) : list PlaceRecord :=
  parse_card_list (query_selector_all page LISTITEM) [].

(** *** Vocabulary of the statements about the extractor *)

(** Every character of [s] satisfies [p]. *)
Fixpoint all_chars (p : ascii -> bool) (s : string) : bool :=
  match s with
  | EmptyString => true
  | String c s' => p c && all_chars p s'
  end.

Definition comma_or_space (c : ascii) : bool := Ascii.eqb c comma || isspace c.

(** A label segment as it is written in a label: not empty, free of
    commas, no white space at either end. *)
Definition segment (s : string) : Prop :=
  s <> EmptyString /\ contains "," s = false /\ lstrip s = s /\ rstrip s = s.

(** [card.query_selector("span.name")] found a node. *)
Definition has_primary_label (card : Card) : bool :=
  match query_selector card "span.name" with
  | Some _ => true
  | None => false
  end.

(** What one card contributes to the result. *)
Definition emitted (card : Card) : list PlaceRecord :=
  match parse_card card with
  | Some r => [r]
  | None => []
  end.

(** The data model's reading of a coordinate text, after the words of
    the specification ("a single lat, lon text node"; not taken from the
    program): the text is well formed when the comma separates exactly
    two fields and neither is blank.  Whether the fields are numbers is
    not even asked. *)
Definition spec_wellformed_coords (txt : string) : bool :=
  match map strip (split comma txt) with
  | [lat; lon] => truthy lat && truthy lon
  | _ => false
  end.

(** Cards used in examples: a card is given by the text of its three
    sub-nodes, when present. *)
Definition card_of (name type coords : option string) : Card :=
  mkCard (fun sel =>
    if String.eqb sel "span.name" then option_map mkElement name
    else if String.eqb sel "span.type" then option_map mkElement type
    else if String.eqb sel "p.coords" then option_map mkElement coords
    else None).

Definition dom_of (cards : list Card) : Dom :=
  mkDom (fun sel => if String.eqb sel LISTITEM then cards else []).


(** ** Acquisition controller: [scrape_with_playwright] *)

(** The exceptions the program distinguishes.  Playwright's
    [TimeoutError] and the builtin [RuntimeError] are the two classes
    named by the [except] clause of the retry loop; [OtherError] stands
    for every other subclass of [Exception] (Playwright's [Error] for a
    failed navigation or a closed page, [OSError], ...). *)
Inductive exn :=
| PlaywrightTimeoutError (msg : string)
| RuntimeError (msg : string)
| OtherError (msg : string).

(** [str(e)] *)
Definition str_exn (e : exn) : string :=
  match e with
  | PlaywrightTimeoutError m | RuntimeError m | OtherError m => m
  end.

(** [f"{last_error}"] where [last_error] may still be [None]. *)
Definition str_last (last_error : option exn) : string :=
  match last_error with
  | None => "None"
  | Some e => str_exn e
  end.

(** [isinstance(e, (PlaywrightTimeoutError, RuntimeError))] *)
Definition retryable (e : exn) : bool :=
  match e with
  | PlaywrightTimeoutError _ | RuntimeError _ => true
  | OtherError _ => false
  end.

(** [str(n)] for an [int]. *)
Definition str_Z (n : Z) : string := NilZero.string_of_int (Z.to_int n).

(** [range(lo, hi)] *)
Definition range (lo hi : Z) : list Z :=
  map (fun i => (lo + Z.of_nat i)%Z) (seq 0 (Z.to_nat (hi - lo))).

(** The browser as the controller drives it.  [World] is the state of
    the browser, its page and the network behind it; every page
    operation may change it and may raise.  [close] is [browser.close()],
    which is taken to complete. *)
Record Session (World : Type) := mkSession {
  goto : string -> string -> Z -> World -> World * option exn;
  wait_for_selector : string -> string -> Z -> World -> World * option exn;
  wait_for_timeout : Z -> World -> World * option exn;
  dom : World -> Dom;
  screenshot : string -> World -> World * option exn;
  reload : string -> Z -> World -> World * option exn;
  close : World -> World
}.

Arguments goto {World}.
Arguments wait_for_selector {World}.
Arguments wait_for_timeout {World}.
Arguments dom {World}.
Arguments screenshot {World}.
Arguments reload {World}.
Arguments close {World}.

(** What a run does, in program order. *)
Inductive event :=
| EvLaunch (headless : bool)
| EvNewContext
| EvNewPage
| EvSetDefaultTimeout (ms : Z)
| EvSetDefaultNavigationTimeout (ms : Z)
| EvRoute (pattern : string)
| EvGoto (url : string)
| EvWaitForSelector (selector state : string)
| EvWaitForTimeout (ms : Z)
| EvScreenshot (path : string)
| EvReload
| EvClose
| EvStop
| EvMkdirParents (path : string)
| EvWriteCsv (path : string) (rows : list (list string))
| EvPrint (line : string)
| EvStart
| EvParseCards
| EvOpenWrite (path : string)
| EvWriteHeader (fields : list string)
| EvWriteRows (rows : list (list string))
| EvCloseFile.

Record Run (World : Type) := mkRun {
  world : World;
  trace : list event
}.

Arguments mkRun {World}.
Arguments world {World}.
Arguments trace {World}.

Inductive result (A : Type) :=
| Ok (a : A)
| Raise (e : exn).

Arguments Ok {A}.
Arguments Raise {A}.

(** State and exception monad of a run. *)
Definition M (World A : Type) : Type := Run World -> Run World * result A.

Definition ret {W A} (a : A) : M W A := fun st => (st, Ok a).

Definition raise {W A} (e : exn) : M W A := fun st => (st, Raise e).

Definition bind {W A B} (m : M W A) (k : A -> M W B) : M W B :=
  fun st =>
    match m st with
    | (st', Ok a) => k a st'
    | (st', Raise e) => (st', Raise e)
    end.

Declare Scope run_scope.
Delimit Scope run_scope with run.
Notation "x <- m ; k" := (bind m (fun x => k))
  (at level 61, m at next level, right associativity) : run_scope.
Notation "m ;; k" := (bind m (fun _ => k))
  (at level 61, right associativity) : run_scope.
Local Open Scope run_scope.

(** [try: body  except <classes>: handler]: the handler sees the
    exception; an exception outside the classes passes through. *)
Definition try_except {W A} (body : M W A) (classes : exn -> bool)
    (handler : exn -> M W A) : M W A :=
  fun st =>
    match body st with
    | (st', Ok a) => (st', Ok a)
    | (st', Raise e) => if classes e then handler e st' else (st', Raise e)
    end.

(** [try: body  except Exception: pass] *)
Definition swallow {W} (body : M W unit) : M W unit :=
  try_except body (fun _ => true) (fun _ => ret tt).

(** [with ... :] the exit action runs on return and on raise. *)
Definition finally_ {W A} (body : M W A) (exit_ : Run W -> Run W) : M W A :=
  fun st => let (st', r) := body st in (exit_ st', r).

Definition log {W} (ev : event) : M W unit :=
  fun st => (mkRun (world st) (trace st ++ [ev])%list, Ok tt).

(** A page operation: logged, then run against the browser. *)
Definition call {W} (ev : event) (op : W -> W * option exn) : M W unit :=
  fun st =>
    let (w', r) := op (world st) in
    (mkRun w' (trace st ++ [ev])%list,
     match r with None => Ok tt | Some e => Raise e end).

Definition DEBUG_HEADED : bool := false.

Definition nonempty {A} (l : list A) : bool :=
  match l with [] => false | _ :: _ => true end.

Section Controller.
Context {World : Type} (S : Session World).

Definition page_goto (url wait_until : string) (timeout : Z) : M World unit :=
  call (EvGoto url) (goto S url wait_until timeout).

Definition page_wait_for_selector (sel state : string) (timeout : Z) : M World unit :=
  call (EvWaitForSelector sel state) (wait_for_selector S sel state timeout).

Definition page_wait_for_timeout (ms : Z) : M World unit :=
  call (EvWaitForTimeout ms) (wait_for_timeout S ms).

Definition page_screenshot (path : string) : M World unit :=
  call (EvScreenshot path) (screenshot S path).

Definition page_reload (wait_until : string) (timeout : Z) : M World unit :=
  call (EvReload) (reload S wait_until timeout).

Definition browser_close : M World unit :=
  fun st => (mkRun (close S (world st)) (trace st ++ [EvClose])%list, Ok tt).

(** [parse_cards(page)] on the DOM of the moment. *)
Definition page_parse_cards : M World (list PlaceRecord) :=
  fun st => (st, Ok (parse_cards (dom S (world st)))).

(** The body of the [try] block.  It leaves only by [return data]
    ([Ok data]) or by an exception. *)
Definition attempt_body (url : string) (timeout_ms : Z) : M World (list PlaceRecord) :=
  page_goto url "domcontentloaded" timeout_ms ;;
  page_wait_for_selector "#searchresults" "attached" timeout_ms ;;
  page_wait_for_selector LISTITEM "visible" timeout_ms ;;
  page_wait_for_timeout 500 ;;
  data <- page_parse_cards ;
  if nonempty data then
    (if DEBUG_HEADED then page_screenshot "output/page_ok.png" else ret tt) ;;
    browser_close ;;
    ret data
  else
    page_wait_for_timeout 1500 ;;
    data <- page_parse_cards ;
    if nonempty data then
      (if DEBUG_HEADED then page_screenshot "output/page_ok2.png" else ret tt) ;;
      browser_close ;;
      ret data
    else
      raise (RuntimeError "No cards parsed (empty result).").

(** The [except (PlaywrightTimeoutError, RuntimeError) as e] block
    after [last_error = e]. *)
Definition on_failure (attempt : Z) (timeout_ms : Z) : M World unit :=
  swallow (page_screenshot ("output/page_error_attempt_" ++ str_Z attempt ++ ".png")) ;;
  swallow (page_reload "domcontentloaded" timeout_ms).

(** One iteration of the [for attempt in ...] loop: [inl data] is
    [return data], [inr e] is the end of the handler with
    [last_error = e]. *)
Definition one_attempt (url : string) (timeout_ms : Z) (attempt : Z)
  : M World (list PlaceRecord + exn) :=
  try_except
    (data <- attempt_body url timeout_ms ; ret (inl data))
    retryable
    (fun e => on_failure attempt timeout_ms ;; ret (inr e)).

(** The loop: [inl data] when an iteration returned, [inr last_error]
    when the iterations ran out. *)
Fixpoint retry_loop (url : string) (timeout_ms : Z) (attempts : list Z)
    (last_error : option exn) : M World (list PlaceRecord + option exn) :=
  match attempts with
  | [] => ret (inr last_error)
  | attempt :: rest =>
      r <- one_attempt url timeout_ms attempt ;
      match r with
      | inl data => ret (inl data)
      | inr e => retry_loop url timeout_ms rest (Some e)
      end
  end.

(** From [p.chromium.launch] to [_block_unnecessary_requests(page)]:
    the session is created and configured once, before the loop. *)
Definition session_setup (timeout_ms : Z) : M World unit :=
  log (EvLaunch (negb DEBUG_HEADED)) ;;
  log EvNewContext ;;
  log EvNewPage ;;
  log (EvSetDefaultTimeout timeout_ms) ;;
  log (EvSetDefaultNavigationTimeout timeout_ms) ;;
  log (EvRoute "**/*").

(** [f"Failed after {max_retries} attempts: {last_error}"] *)
Definition failed_message (max_retries : Z) (last_error : option exn) : string :=
  "Failed after " ++ str_Z max_retries ++ " attempts: " ++ str_last last_error.

Definition scrape_with_playwright (url : string) (max_retries : Z) (timeout_ms : Z)
  : M World (list PlaceRecord) :=
  finally_
    (session_setup timeout_ms ;;
     r <- retry_loop url timeout_ms (range 1 (max_retries + 1)) None ;
     match r with
     | inl data => ret data
     | inr last_error =>
         browser_close ;;
         raise (RuntimeError (failed_message max_retries last_error))
     end)
    (fun st => mkRun (world st) (trace st ++ [EvStop])%list).

(** ** [save_csv] and [main] *)

Definition SEARCH_URL : string :=
  "https://nominatim.openstreetmap.org/ui/search.html?q=Workshop&countrycodes=ca&limit=50".
Definition OUT_CSV : string := "output/Workshop&country.csv".

Definition fieldnames : list string :=
  ["Name"; "Address"; "Country"; "Type"; "Latitude"; "Longitude"].

Definition row_of (r : PlaceRecord) : list string :=
  [Name r; Address r; Country r; Type_ r; Latitude r; Longitude r].

(** The file is described by its rows, header first; quoting is left
    to the [csv] module, and the write is taken to succeed. *)
Definition save_csv (data : list PlaceRecord) (path : string) : M World unit :=
  log (EvMkdirParents path) ;;
  log (EvWriteCsv path (fieldnames :: map row_of data)).

Definition main : M World unit :=
  data <- scrape_with_playwright SEARCH_URL 3 70000 ;
  save_csv data OUT_CSV ;;
  log (EvPrint ("Saved " ++ str_Z (Z.of_nat (List.length data))
                ++ " records to " ++ OUT_CSV)).

End Controller.

Definition start {W} (w : W) : Run W := mkRun w [].

(** *** Vocabulary of the statements about the controller *)

Definition count_events (p : event -> bool) (t : list event) : nat :=
  List.length (filter p t).

Definition is_goto (ev : event) : bool :=
  match ev with EvGoto _ => true | _ => false end.

Definition is_close (ev : event) : bool :=
  match ev with EvClose => true | _ => false end.

Definition is_stop (ev : event) : bool :=
  match ev with EvStop => true | _ => false end.

Definition is_screenshot (ev : event) : bool :=
  match ev with EvScreenshot _ => true | _ => false end.

Definition is_reload (ev : event) : bool :=
  match ev with EvReload => true | _ => false end.

(** The events of [save_csv] and of the summary line. *)
Definition is_output (ev : event) : bool :=
  match ev with
  | EvMkdirParents _ | EvWriteCsv _ _ | EvPrint _ => true
  | _ => false
  end.

(** What [session_setup] logs. *)
Definition setup_events (timeout_ms : Z) : list event :=
  [ EvLaunch true; EvNewContext; EvNewPage;
    EvSetDefaultTimeout timeout_ms; EvSetDefaultNavigationTimeout timeout_ms;
    EvRoute "**/*" ].

(** The events of an attempt whose second extraction succeeds. *)
Definition grace_events (url : string) : list event :=
  [ EvGoto url;
    EvWaitForSelector "#searchresults" "attached";
    EvWaitForSelector LISTITEM "visible";
    EvWaitForTimeout 500;
    EvWaitForTimeout 1500;
    EvClose ].

(** The path of the snapshot of a failed attempt. *)
Definition error_snapshot (attempt : Z) : string :=
  "output/page_error_attempt_" ++ str_Z attempt ++ ".png".

(** [e] is raised by a navigation or by a wait of the session. *)
Inductive page_raises {W} (s : Session W) (e : exn) : Prop :=
| goto_raises (url wait_until : string) (t : Z) (w : W) :
    snd (goto s url wait_until t w) = Some e -> page_raises s e
| wait_for_selector_raises (sel state : string) (t : Z) (w : W) :
    snd (wait_for_selector s sel state t w) = Some e -> page_raises s e
| wait_for_timeout_raises (ms : Z) (w : W) :
    snd (wait_for_timeout s ms w) = Some e -> page_raises s e.

(** Navigation and the waits of an attempt fail, when they fail, with
    one of the two exception classes the loop catches. *)
Definition raises_only_retryable {W} (s : Session W) : Prop :=
  forall e, page_raises s e -> retryable e = true.

(** The events of the [try] block before its [return]. *)
Definition is_wait (ev : event) : bool :=
  match ev with
  | EvWaitForSelector _ _ | EvWaitForTimeout _ => true
  | _ => false
  end.

(** The events of the retry loop. *)
Definition is_loop_event (ev : event) : bool :=
  match ev with
  | EvGoto _ | EvWaitForSelector _ _ | EvWaitForTimeout _
  | EvScreenshot _ | EvReload | EvClose => true
  | _ => false
  end.

Definition NO_CARDS : exn := RuntimeError "No cards parsed (empty result).".

(** How the [try] block of one attempt can end, from the state [st]:
    it returns the records parsed from some world and closes the
    browser there, or it raises, having logged the navigation and some
    waits. *)
Inductive body_outcome {W} (s : Session W) (url : string) (st : Run W)
  : Run W -> result (list PlaceRecord) -> Prop :=
| body_returned (w : W) (evs : list event) :
    parse_cards (dom s w) <> [] ->
    forallb is_wait evs = true ->
    body_outcome s url st
      (mkRun (close s w) (trace st ++ EvGoto url :: evs ++ [EvClose])%list)
      (Ok (parse_cards (dom s w)))
| body_raised (w : W) (evs : list event) (e : exn) :
    page_raises s e \/ (e = NO_CARDS /\ parse_cards (dom s w) = []) ->
    forallb is_wait evs = true ->
    body_outcome s url st
      (mkRun w (trace st ++ EvGoto url :: evs)%list)
      (Raise e).

(** The same operation with its exception dropped. *)
Definition masked {W} (op : W -> W * option exn) : W -> W * option exn :=
  fun w => (fst (op w), None).

(** The session in which snapshots and reloads act on the browser as
    in [S] but never raise. *)
Definition quiet {W} (S : Session W) : Session W :=
  {| goto := goto S;
     wait_for_selector := wait_for_selector S;
     wait_for_timeout := wait_for_timeout S;
     dom := dom S;
     screenshot := fun path => masked (screenshot S path);
     reload := fun wu t => masked (reload S wu t);
     close := close S |}.

(** How one iteration of the loop can end: the [try] block returned;
    or it raised a caught error and the handler ran; or it raised an
    error the loop does not catch. *)
Inductive attempt_outcome {W} (s : Session W) (url : string) (t : Z)
    (attempt : Z) (st : Run W)
  : Run W -> result (list PlaceRecord + exn) -> Prop :=
| attempt_returned (st1 : Run W) (data : list PlaceRecord) :
    attempt_body s url t st = (st1, Ok data) ->
    attempt_outcome s url t attempt st st1 (Ok (inl data))
| attempt_retried (st1 : Run W) (e : exn) (w : W) :
    attempt_body s url t st = (st1, Raise e) ->
    retryable e = true ->
    attempt_outcome s url t attempt st
      (mkRun w (trace st1 ++ [EvScreenshot (error_snapshot attempt); EvReload])%list)
      (Ok (inr e))
| attempt_escaped (st1 : Run W) (e : exn) :
    attempt_body s url t st = (st1, Raise e) ->
    retryable e = false ->
    attempt_outcome s url t attempt st st1 (Raise e).

(** ** Mock sessions *)

Definition ok {W} (w : W) : W * option exn := (w, None).

Definition sample_card : Card :=
  card_of (Some "Workshop, 12 Main St, Ottawa, Canada") (Some "craft") (Some "45.0, -73.0").

Definition sample_record : PlaceRecord :=
  mkPlace "Workshop" "12 Main St, Ottawa" "Canada" "craft" "45.0" "-73.0".

(** The world counts the waits made so far; the cards appear only
    after the second wait, i.e. after the grace delay of the first
    attempt. *)
Definition late_session : Session nat :=
  {| goto := fun _ _ _ w => ok w;
     wait_for_selector := fun _ _ _ w => ok w;
     wait_for_timeout := fun _ w => ok (S w);
     dom := fun w => dom_of (if (2 <=? w)%nat then [sample_card] else []);
     screenshot := fun _ w => ok w;
     reload := fun _ _ w => ok w;
     close := fun w => w |}.

(** The world counts the navigations; every navigation times out with a
    message that carries its number, and no card is ever rendered.
    Snapshots and reloads fail as well. *)
Definition dead_session : Session nat :=
  {| goto := fun _ _ _ w =>
       (S w, Some (PlaywrightTimeoutError ("Timeout #" ++ str_Z (Z.of_nat (S w)))));
     wait_for_selector := fun _ _ _ w => ok w;
     wait_for_timeout := fun _ w => ok w;
     dom := fun _ => dom_of [];
     screenshot := fun _ w => (w, Some (OtherError "cannot write snapshot"));
     reload := fun _ _ w => (w, Some (PlaywrightTimeoutError "reload timed out"));
     close := fun w => w |}.

(** Every step succeeds and no card is ever rendered. *)
Definition empty_session : Session unit :=
  {| goto := fun _ _ _ w => ok w;
     wait_for_selector := fun _ _ _ w => ok w;
     wait_for_timeout := fun _ w => ok w;
     dom := fun _ => dom_of [];
     screenshot := fun _ w => ok w;
     reload := fun _ _ w => ok w;
     close := fun w => w |}.

(** The network is down: navigation fails with Playwright's [Error],
    which is not a [TimeoutError]. *)
Definition offline_session : Session unit :=
  {| goto := fun _ _ _ w => (w, Some (OtherError "net::ERR_INTERNET_DISCONNECTED"));
     wait_for_selector := fun _ _ _ w => ok w;
     wait_for_timeout := fun _ w => ok w;
     dom := fun _ => dom_of [];
     screenshot := fun _ w => ok w;
     reload := fun _ _ w => ok w;
     close := fun w => w |}.

(** ** Vocabulary of the further properties *)

Definition not_comma (c : ascii) : bool := negb (Ascii.eqb c comma).

(** The label written back from the three label fields of a record:
    the fields that are not empty, joined as a label is written. *)
Definition canonical_label (r : PlaceRecord) : string :=
  join ", " (filter truthy [Name r; Address r; Country r]).

(** The paths of the snapshots of a trace, in order. *)
Definition snapshots (tr : list event) : list string :=
  flat_map (fun ev => match ev with EvScreenshot p => [p] | _ => [] end) tr.

(** The events of an attempt whose first extraction succeeds. *)
Definition first_try_events (url : string) : list event :=
  [ EvGoto url;
    EvWaitForSelector "#searchresults" "attached";
    EvWaitForSelector LISTITEM "visible";
    EvWaitForTimeout 500;
    EvClose ].

(** The host patterns without the one that another pattern covers. *)
Definition BLOCK_HOST_PATTERNS_reduced : list string :=
  [ "tile.openstreetmap.org";
    "tiles.openstreetmap.org";
    "cartocdn.com";
    "fastly.net";
    "gstatic.com";
    "googleapis.com" ].

(** The cards are rendered from the start. *)
Definition ready_session : Session unit :=
  {| goto := fun _ _ _ w => ok w;
     wait_for_selector := fun _ _ _ w => ok w;
     wait_for_timeout := fun _ w => ok w;
     dom := fun _ => dom_of [sample_card];
     screenshot := fun _ w => ok w;
     reload := fun _ _ w => ok w;
     close := fun w => w |}.

(** The world counts the navigations: the first one times out, the
    later ones succeed, and the cards are there. *)
Definition flaky_session : Session nat :=
  {| goto := fun _ _ _ w =>
       match w with
       | O => (1%nat, Some (PlaywrightTimeoutError "Timeout 70000ms exceeded."))
       | _ => ok (Datatypes.S w)
       end;
     wait_for_selector := fun _ _ _ w => ok w;
     wait_for_timeout := fun _ w => ok w;
     dom := fun _ => dom_of [sample_card];
     screenshot := fun _ w => ok w;
     reload := fun _ _ w => ok w;
     close := fun w => w |}.

(** ** The program on a host where every call may fail *)

(** The controller above takes the start of the session, the reads of
    the DOM, [browser.close()] and the writing of the file to succeed.
    [Host] is the same program with none of this taken for granted:
    every call into Playwright, the file system and the console may
    raise.  The functions are those of the source again, call for
    call, and the trace records every call made, failed ones too. *)
Module Host.

(** A session together with what else the program calls.  [read_dom]
    stands for the Playwright calls of [parse_cards]
    ([query_selector_all], [query_selector], [inner_text]): they raise
    or they give the DOM of the session.  [close_fails] says whether
    [browser.close()] raises in a world. *)
Record Env (World : Type) := mkEnv {
  session : Session World;
  start_driver : World -> World * option exn;
  stop_driver : World -> World * option exn;
  launch : bool -> World -> World * option exn;
  new_context : World -> World * option exn;
  new_page : World -> World * option exn;
  set_default_timeout : Z -> World -> World * option exn;
  set_default_navigation_timeout : Z -> World -> World * option exn;
  route : string -> World -> World * option exn;
  read_dom : World -> World * option exn;
  close_fails : World -> option exn;
  mkdir_parents : string -> World -> World * option exn;
  open_write : string -> World -> World * option exn;
  writeheader : list string -> World -> World * option exn;
  writerows : list (list string) -> World -> World * option exn;
  close_file : World -> World * option exn;
  print_line : string -> World -> World * option exn
}.

Arguments session {World}.
Arguments start_driver {World}.
Arguments stop_driver {World}.
Arguments launch {World}.
Arguments new_context {World}.
Arguments new_page {World}.
Arguments set_default_timeout {World}.
Arguments set_default_navigation_timeout {World}.
Arguments route {World}.
Arguments read_dom {World}.
Arguments close_fails {World}.
Arguments mkdir_parents {World}.
Arguments open_write {World}.
Arguments writeheader {World}.
Arguments writerows {World}.
Arguments close_file {World}.
Arguments print_line {World}.

(** [browser.close()]: it raises, or the browser is closed. *)
Definition try_close {W} (h : Env W) (w : W) : W * option exn :=
  match close_fails h w with
  | Some e => (w, Some e)
  | None => (close (session h) w, None)
  end.

(** The call logged as [ev] raises [e] in the world [w]. *)
Inductive raises_at {W} (h : Env W) : event -> W -> exn -> Prop :=
| start_raises w e :
    snd (start_driver h w) = Some e -> raises_at h EvStart w e
| stop_raises w e :
    snd (stop_driver h w) = Some e -> raises_at h EvStop w e
| launch_raises b w e :
    snd (launch h b w) = Some e -> raises_at h (EvLaunch b) w e
| new_context_raises w e :
    snd (new_context h w) = Some e -> raises_at h EvNewContext w e
| new_page_raises w e :
    snd (new_page h w) = Some e -> raises_at h EvNewPage w e
| set_default_timeout_raises ms w e :
    snd (set_default_timeout h ms w) = Some e ->
    raises_at h (EvSetDefaultTimeout ms) w e
| set_default_navigation_timeout_raises ms w e :
    snd (set_default_navigation_timeout h ms w) = Some e ->
    raises_at h (EvSetDefaultNavigationTimeout ms) w e
| route_raises pattern w e :
    snd (route h pattern w) = Some e -> raises_at h (EvRoute pattern) w e
| goto_raises_at url wait_until t w e :
    snd (goto (session h) url wait_until t w) = Some e ->
    raises_at h (EvGoto url) w e
| wait_for_selector_raises_at sel state t w e :
    snd (wait_for_selector (session h) sel state t w) = Some e ->
    raises_at h (EvWaitForSelector sel state) w e
| wait_for_timeout_raises_at ms w e :
    snd (wait_for_timeout (session h) ms w) = Some e ->
    raises_at h (EvWaitForTimeout ms) w e
| read_dom_raises w e :
    snd (read_dom h w) = Some e -> raises_at h EvParseCards w e
| close_raises w e :
    close_fails h w = Some e -> raises_at h EvClose w e
| mkdir_parents_raises path w e :
    snd (mkdir_parents h path w) = Some e -> raises_at h (EvMkdirParents path) w e
| open_write_raises path w e :
    snd (open_write h path w) = Some e -> raises_at h (EvOpenWrite path) w e
| writeheader_raises fields w e :
    snd (writeheader h fields w) = Some e -> raises_at h (EvWriteHeader fields) w e
| writerows_raises rows w e :
    snd (writerows h rows w) = Some e -> raises_at h (EvWriteRows rows) w e
| close_file_raises w e :
    snd (close_file h w) = Some e -> raises_at h EvCloseFile w e
| print_line_raises line w e :
    snd (print_line h line w) = Some e -> raises_at h (EvPrint line) w e.

(** The end of a [with] block: the exit call [ev] is made when the
    body returns and when it raises, and when the exit raises its
    error is the one that goes on. *)
Definition with_exit {W A} (body : M W A) (ev : event) (exit_ : W -> W * option exn)
  : M W A :=
  fun st =>
    let (st1, r) := body st in
    match call ev exit_ st1 with
    | (st2, Ok _) => (st2, r)
    | (st2, Raise e) => (st2, Raise e)
    end.

Section Program.
Context {World : Type} (h : Env World).

Definition page_goto (url wait_until : string) (timeout : Z) : M World unit :=
  call (EvGoto url) (goto (session h) url wait_until timeout).

Definition page_wait_for_selector (sel state : string) (timeout : Z) : M World unit :=
  call (EvWaitForSelector sel state) (wait_for_selector (session h) sel state timeout).

Definition page_wait_for_timeout (ms : Z) : M World unit :=
  call (EvWaitForTimeout ms) (wait_for_timeout (session h) ms).

Definition page_screenshot (path : string) : M World unit :=
  call (EvScreenshot path) (screenshot (session h) path).

Definition page_reload (wait_until : string) (timeout : Z) : M World unit :=
  call EvReload (reload (session h) wait_until timeout).

Definition browser_close : M World unit := call EvClose (try_close h).

(** [parse_cards(page)]: the reads of the DOM, then the records of
    the DOM read. *)
Definition page_parse_cards : M World (list PlaceRecord) :=
  call EvParseCards (read_dom h) ;;
  fun st => (st, Ok (parse_cards (dom (session h) (world st)))).

Definition attempt_body (url : string) (timeout_ms : Z) : M World (list PlaceRecord) :=
  page_goto url "domcontentloaded" timeout_ms ;;
  page_wait_for_selector "#searchresults" "attached" timeout_ms ;;
  page_wait_for_selector LISTITEM "visible" timeout_ms ;;
  page_wait_for_timeout 500 ;;
  data <- page_parse_cards ;
  if nonempty data then
    (if DEBUG_HEADED then page_screenshot "output/page_ok.png" else ret tt) ;;
    browser_close ;;
    ret data
  else
    page_wait_for_timeout 1500 ;;
    data <- page_parse_cards ;
    if nonempty data then
      (if DEBUG_HEADED then page_screenshot "output/page_ok2.png" else ret tt) ;;
      browser_close ;;
      ret data
    else
      raise (RuntimeError "No cards parsed (empty result).").

Definition on_failure (attempt : Z) (timeout_ms : Z) : M World unit :=
  swallow (page_screenshot ("output/page_error_attempt_" ++ str_Z attempt ++ ".png")) ;;
  swallow (page_reload "domcontentloaded" timeout_ms).

Definition one_attempt (url : string) (timeout_ms : Z) (attempt : Z)
  : M World (list PlaceRecord + exn) :=
  try_except
    (data <- attempt_body url timeout_ms ; ret (inl data))
    retryable
    (fun e => on_failure attempt timeout_ms ;; ret (inr e)).

Fixpoint retry_loop (url : string) (timeout_ms : Z) (attempts : list Z)
    (last_error : option exn) : M World (list PlaceRecord + option exn) :=
  match attempts with
  | [] => ret (inr last_error)
  | attempt :: rest =>
      r <- one_attempt url timeout_ms attempt ;
      match r with
      | inl data => ret (inl data)
      | inr e => retry_loop url timeout_ms rest (Some e)
      end
  end.

Definition session_setup (timeout_ms : Z) : M World unit :=
  call (EvLaunch (negb DEBUG_HEADED)) (launch h (negb DEBUG_HEADED)) ;;
  call EvNewContext (new_context h) ;;
  call EvNewPage (new_page h) ;;
  call (EvSetDefaultTimeout timeout_ms) (set_default_timeout h timeout_ms) ;;
  call (EvSetDefaultNavigationTimeout timeout_ms)
       (set_default_navigation_timeout h timeout_ms) ;;
  call (EvRoute "**/*") (route h "**/*").

(** What follows the loop when the attempts ran out. *)
Definition after_loop (max_retries : Z) (last_error : option exn)
  : M World (list PlaceRecord) :=
  browser_close ;;
  raise (RuntimeError (failed_message max_retries last_error)).

(** The [with sync_playwright() as p:] block: the context is entered,
    and once entered it is left on return and on raise. *)
Definition scrape_with_playwright (url : string) (max_retries : Z) (timeout_ms : Z)
  : M World (list PlaceRecord) :=
  call EvStart (start_driver h) ;;
  with_exit
    (session_setup timeout_ms ;;
     r <- retry_loop url timeout_ms (range 1 (max_retries + 1)) None ;
     match r with
     | inl data => ret data
     | inr last_error => after_loop max_retries last_error
     end)
    EvStop (stop_driver h).

(** [with path.open("w", ...) as f: body]: the file is opened, which
    creates or truncates it; the body runs; the file is closed on
    return and on raise, and an error of the close is the one raised. *)
Definition with_open (path : string) (body : M World unit) : M World unit :=
  call (EvOpenWrite path) (open_write h path) ;;
  with_exit body EvCloseFile (close_file h).

Definition save_csv (data : list PlaceRecord) (path : string) : M World unit :=
  call (EvMkdirParents path) (mkdir_parents h path) ;;
  with_open path
    (call (EvWriteHeader fieldnames) (writeheader h fieldnames) ;;
     call (EvWriteRows (map row_of data)) (writerows h (map row_of data))).

(** [f"Saved {len(data)} records to {OUT_CSV}"] *)
Definition summary (data : list PlaceRecord) : string :=
  "Saved " ++ str_Z (Z.of_nat (List.length data)) ++ " records to " ++ OUT_CSV.

Definition main : M World unit :=
  data <- scrape_with_playwright SEARCH_URL 3 70000 ;
  save_csv data OUT_CSV ;;
  call (EvPrint (summary data)) (print_line h (summary data)).

End Program.

(** *** Vocabulary of the statements about the host *)

(** The calls of the acquisition. *)
Definition is_acquisition (ev : event) : bool :=
  match ev with
  | EvStart | EvLaunch _ | EvNewContext | EvNewPage
  | EvSetDefaultTimeout _ | EvSetDefaultNavigationTimeout _ | EvRoute _
  | EvGoto _ | EvWaitForSelector _ _ | EvWaitForTimeout _ | EvParseCards
  | EvScreenshot _ | EvReload | EvClose | EvStop => true
  | _ => false
  end.

(** The calls of [save_csv] and the summary line: whatever creates,
    truncates or writes the output file or its directory, or prints. *)
Definition touches_output (ev : event) : bool :=
  match ev with
  | EvMkdirParents _ | EvWriteCsv _ _ | EvOpenWrite _
  | EvWriteHeader _ | EvWriteRows _ | EvCloseFile | EvPrint _ => true
  | _ => false
  end.



Definition never {W} (w : W) : W * option exn := (w, None).

(** The host on which only the session can fail. *)
Definition of_session {W} (s : Session W) : Env W :=
  {| session := s;
     start_driver := never;
     stop_driver := never;
     launch := fun _ => never;
     new_context := never;
     new_page := never;
     set_default_timeout := fun _ => never;
     set_default_navigation_timeout := fun _ => never;
     route := fun _ => never;
     read_dom := never;
     close_fails := fun _ => None;
     mkdir_parents := fun _ => never;
     open_write := fun _ => never;
     writeheader := fun _ => never;
     writerows := fun _ => never;
     close_file := never;
     print_line := fun _ => never |}.


(** The browser is not installed: the launch fails. *)
Definition no_browser (s : Session unit) : Env unit :=
  {| session := s;
     start_driver := never;
     stop_driver := never;
     launch := fun _ w => (w, Some (OtherError "Executable doesn't exist"));
     new_context := never;
     new_page := never;
     set_default_timeout := fun _ => never;
     set_default_navigation_timeout := fun _ => never;
     route := fun _ => never;
     read_dom := never;
     close_fails := fun _ => None;
     mkdir_parents := fun _ => never;
     open_write := fun _ => never;
     writeheader := fun _ => never;
     writerows := fun _ => never;
     close_file := never;
     print_line := fun _ => never |}.

End Host.

(** *** Properties of computations, to reason call by call *)

(** [m] adds to the trace only events that satisfy [P]. *)
Definition Logs {W A} (P : event -> bool) (m : M W A) : Prop :=
  forall st, exists evs,
    trace (fst (m st)) = (trace st ++ evs)%list /\ forallb P evs = true.

(** What [m] returns satisfies [Q]. *)
Definition Returns {W A} (Q : A -> Prop) (m : M W A) : Prop :=
  forall st st' a, m st = (st', Ok a) -> Q a.

(** When [m] raises, the error is one of the program's own, those in
    [own], or it is the error of the call made last, a call among [P]. *)
Definition TiedOr {W A} (h : Host.Env W) (own : exn -> Prop) (P : event -> bool)
    (m : M W A) : Prop :=
  forall st st' e,
    m st = (st', Raise e) ->
    own e
    \/ exists before ev w,
         trace st' = (before ++ [ev])%list
         /\ Host.raises_at h ev w e
         /\ P ev = true.

(** The calls of a [try] block. *)
Definition is_try_call (ev : event) : bool :=
  match ev with
  | EvGoto _ | EvWaitForSelector _ _ | EvWaitForTimeout _ | EvParseCards
  | EvClose => true
  | _ => false
  end.

(** The calls that create and configure the session. *)
Definition is_setup_call (ev : event) : bool :=
  match ev with
  | EvLaunch _ | EvNewContext | EvNewPage
  | EvSetDefaultTimeout _ | EvSetDefaultNavigationTimeout _ | EvRoute _ => true
  | _ => false
  end.

(** In a [try] block the program's own error is "no cards". *)
Definition Tied {W A} (h : Host.Env W) (m : M W A) : Prop :=
  TiedOr h (fun e => e = NO_CARDS) is_try_call m.

(** In the setup the program raises nothing of its own. *)
Definition Strict {W A} (h : Host.Env W) (m : M W A) : Prop :=
  TiedOr h (fun _ => False) is_setup_call m.

(** The calls that only the host logs. *)
Definition is_host_call (ev : event) : bool :=
  match ev with EvStart | EvParseCards => true | _ => false end.

(** A trace of the host as the controller of a session logs it. *)
Definition erase (tr : list event) : list event :=
  filter (fun ev => negb (is_host_call ev)) tr.

(** A run on a session and a run on a host are at the same point. *)
Definition agree {W} (st sth : Run W) : Prop :=
  world st = world sth /\ trace st = erase (trace sth).

(** [mh], on a host, does what [m] does on the session: from the same
    point they reach the same point with the same result. *)
Definition Simulates {W A} (m mh : M W A) : Prop :=
  forall st sth,
    agree st sth ->
    agree (fst (m st)) (fst (mh sth)) /\ snd (m st) = snd (mh sth).

(** The acquisition ends with the terminal error: the session was
    started and set up, the attempts before the last all failed and
    were retried, the [try] block of the last attempt raised [e0], a
    caught error, and after its snapshot and reload the browser was
    closed and the error that names the attempts and [e0] was raised. *)
Definition terminal_failure {W} (h : Host.Env W) (url : string) (N t : Z)
    (st0 st : Run W) (e : exn) : Prop :=
  exists (st_s st_b st_f : Run W) (prev : option exn) (e0 : exn),
    (call EvStart (Host.start_driver h) ;; Host.session_setup h t) st0 = (st_s, Ok tt)
    /\ Host.retry_loop h url t (range 1 N) None st_s = (st_b, Ok (inr prev))
    /\ Host.attempt_body h url t st_b = (st_f, Raise e0)
    /\ retryable e0 = true
    /\ trace st
       = (trace st_f ++ [EvScreenshot (error_snapshot N); EvReload; EvClose; EvStop])%list
    /\ e = RuntimeError ("Failed after " ++ str_Z N ++ " attempts: " ++ str_exn e0).

(** The acquisition ends with the error of a call, as it is.  The call
    that raised [e] is the last the program made: the entry of the
    Playwright context, after which nothing follows, or its exit; or
    it is a call inside the context, which is then followed by the
    exit alone.  When it is a call on the page in an attempt, [e] is
    an error the loop does not catch. *)
Definition raw_failure {W} (h : Host.Env W) (st0 st : Run W) (e : exn) : Prop :=
  exists (before : list event) (ev : event) (w : W),
    Host.raises_at h ev w e
    /\ Host.is_acquisition ev = true
    /\ match ev with
       | EvStart => trace st = (trace st0 ++ [EvStart])%list
       | EvStop => trace st = (before ++ [EvStop])%list
       | EvGoto _ | EvWaitForSelector _ _ | EvWaitForTimeout _ | EvParseCards =>
           trace st = (before ++ [ev; EvStop])%list /\ retryable e = false
       | _ => trace st = (before ++ [ev; EvStop])%list
       end.


(* ================================================================== *)
(** * Part II. Properties *)
(* ================================================================== *)

(** ** Strings *)

Lemma startswith_spec (p s : string) :
  startswith s p = true <-> exists t, s = p ++ t.
Proof.
  revert s; induction p as [|c p IH]; intros s; simpl.
  - split; [intros _; now exists s | reflexivity].
  - destruct s as [|d s].
    + split; [discriminate | intros [t H]; discriminate].
    + rewrite andb_true_iff, Ascii.eqb_eq, IH.
      split.
      * intros [-> [t ->]]. now exists t.
      * intros [t H]. injection H as -> ->. split; [reflexivity | now exists t].
Qed.

(** Python's [needle in hay] holds exactly when [hay] can be cut as
    [pre ++ needle ++ post]. *)
Lemma contains_spec (needle hay : string) :
  contains needle hay = true <-> exists pre post, hay = pre ++ needle ++ post.
Proof.
  induction hay as [|d hay IH]; simpl; rewrite orb_true_iff, startswith_spec.
  - split.
    + intros [[t H] | H]; [| discriminate].
      exists EmptyString, t. exact H.
    + intros [pre [post H]]. left.
      destruct pre as [|c pre]; [now exists post | discriminate].
  - rewrite IH. split.
    + intros [[t H] | [pre [post H]]].
      * exists EmptyString, t. exact H.
      * exists (String d pre), post. simpl. now rewrite H.
    + intros [pre [post H]].
      destruct pre as [|c pre]; simpl in H.
      * left. now exists post.
      * right. injection H as _ H. now exists pre, post.
Qed.

Lemma contains_comma_cons (c : ascii) (s : string) :
  contains "," (String c s) = Ascii.eqb c comma || contains "," s.
Proof.
  simpl. rewrite andb_true_r. now rewrite Ascii.eqb_sym.
Qed.

Lemma contains_comma_nil : contains "," EmptyString = false.
Proof. reflexivity. Qed.

Lemma split_nonempty (sep : ascii) (s : string) : split sep s <> [].
Proof.
  destruct s as [|c s]; simpl; [discriminate |].
  destruct (Ascii.eqb c sep); [discriminate |].
  destruct (split sep s); discriminate.
Qed.

(** A text without comma is its own single segment. *)
Lemma split_no_comma (s : string) :
  contains "," s = false -> split comma s = [s].
Proof.
  induction s as [|c s IH]; [reflexivity |].
  rewrite contains_comma_cons, orb_false_iff. intros [Hc Hs].
  simpl. rewrite Hc, (IH Hs). reflexivity.
Qed.

(** Splitting cuts at the first comma and goes on with the rest. *)
Lemma split_app_comma (a rest : string) :
  contains "," a = false ->
  split comma (a ++ String comma rest) = a :: split comma rest.
Proof.
  induction a as [|c a IH]; intros H.
  - simpl. reflexivity.
  - rewrite contains_comma_cons, orb_false_iff in H. destruct H as [Hc Ha].
    simpl. rewrite Hc, (IH Ha). reflexivity.
Qed.

(** Under the guard ["," in txt] the single split yields exactly two
    fields: the text before the first comma and everything after it. *)
Lemma split_once_comma_two (s : string) :
  contains "," s = true ->
  exists a b, split_once comma s = [a; b]
              /\ s = a ++ String comma b
              /\ contains "," a = false.
Proof.
  induction s as [|c s IH]; [discriminate |].
  rewrite contains_comma_cons. simpl.
  destruct (Ascii.eqb c comma) eqn:Hc; simpl.
  - intros _. apply Ascii.eqb_eq in Hc. subst c.
    exists EmptyString, s. repeat split.
  - intros H. destruct (IH H) as [a [b [E [Es Ha]]]].
    exists (String c a), b. rewrite E. repeat split.
    + simpl. now rewrite Es.
    + now rewrite contains_comma_cons, Hc, Ha.
Qed.

Lemma split_once_no_comma (s : string) :
  contains "," s = false -> split_once comma s = [s].
Proof.
  induction s as [|c s IH]; [reflexivity |].
  rewrite contains_comma_cons, orb_false_iff. intros [Hc Hs].
  simpl. rewrite Hc, (IH Hs). reflexivity.
Qed.

(** *** Stripping *)

Lemma lstrip_all_space (s : string) :
  all_chars isspace s = true -> lstrip s = EmptyString.
Proof.
  induction s as [|c s IH]; simpl; [reflexivity |].
  rewrite andb_true_iff. intros [Hc Hs]. now rewrite Hc, IH.
Qed.

Lemma rstrip_all_space (s : string) :
  all_chars isspace s = true -> rstrip s = EmptyString.
Proof.
  induction s as [|c s IH]; simpl; [reflexivity |].
  rewrite andb_true_iff. intros [Hc Hs]. now rewrite (IH Hs), Hc.
Qed.

Lemma all_chars_lstrip (p : ascii -> bool) (s : string) :
  all_chars p s = true -> all_chars p (lstrip s) = true.
Proof.
  induction s as [|c s IH]; simpl; [reflexivity |].
  rewrite andb_true_iff. intros [Hc Hs].
  destruct (isspace c); [now apply IH | simpl; now rewrite Hc, Hs].
Qed.

Lemma all_chars_rstrip (p : ascii -> bool) (s : string) :
  all_chars p s = true -> all_chars p (rstrip s) = true.
Proof.
  induction s as [|c s IH]; simpl; [reflexivity |].
  rewrite andb_true_iff. intros [Hc Hs]. specialize (IH Hs).
  destruct (rstrip s) as [|d r].
  - destruct (isspace c); simpl; [reflexivity | now rewrite Hc].
  - change (all_chars p (String c (String d r)) = true).
    simpl. simpl in IH. now rewrite Hc, IH.
Qed.

Lemma all_chars_strip (p : ascii -> bool) (s : string) :
  all_chars p s = true -> all_chars p (strip s) = true.
Proof.
  intros H. unfold strip. now apply all_chars_rstrip, all_chars_lstrip.
Qed.

Lemma strip_all_space (s : string) :
  all_chars isspace s = true -> strip s = EmptyString.
Proof.
  intros H. unfold strip. now rewrite (lstrip_all_space s H).
Qed.

(** Stripping leaves the empty string exactly for blank texts. *)
Lemma lstrip_empty_inv (s : string) :
  lstrip s = EmptyString -> all_chars isspace s = true.
Proof.
  induction s as [|c s IH]; simpl; [reflexivity |].
  destruct (isspace c); [exact IH | discriminate].
Qed.

Lemma rstrip_empty_inv (s : string) :
  rstrip s = EmptyString -> all_chars isspace s = true.
Proof.
  induction s as [|c s IH]; simpl; [reflexivity |].
  destruct (rstrip s) as [|d r]; [| discriminate].
  destruct (isspace c); [intros _; now rewrite IH | discriminate].
Qed.

(** [lstrip] keeps a suffix, and what it drops is blank. *)
Lemma lstrip_suffix (s : string) :
  exists w, s = w ++ lstrip s /\ all_chars isspace w = true.
Proof.
  induction s as [|c s [w [E Hw]]]; simpl.
  - now exists EmptyString.
  - destruct (isspace c) eqn:Hc.
    + exists (String c w). simpl. rewrite Hc, Hw. split; [now rewrite <- E | reflexivity].
    + now exists EmptyString.
Qed.

Lemma all_chars_app (p : ascii -> bool) (a b : string) :
  all_chars p (a ++ b) = all_chars p a && all_chars p b.
Proof.
  induction a as [|c a IH]; simpl; [reflexivity |].
  now rewrite IH, andb_assoc.
Qed.

Lemma strip_empty_iff (s : string) :
  strip s = EmptyString <-> all_chars isspace s = true.
Proof.
  split; [| apply strip_all_space].
  unfold strip. intros H. apply rstrip_empty_inv in H.
  destruct (lstrip_suffix s) as [w [E Hw]].
  rewrite E, all_chars_app, Hw, H. reflexivity.
Qed.

Lemma lstrip_fixed_app (a b : string) :
  a <> EmptyString -> lstrip a = a -> lstrip (a ++ b) = a ++ b.
Proof.
  destruct a as [|c a]; [congruence |]. intros _. simpl.
  destruct (isspace c) eqn:Hc; [| reflexivity].
  intros H. exfalso.
  assert (L : forall s, String.length (lstrip s) <= String.length s).
  { induction s as [|d s IH]; simpl; [lia |]. destruct (isspace d); simpl; lia. }
  specialize (L a). rewrite H in L. simpl in L. lia.
Qed.

Lemma app_nonempty_r (a b : string) : b <> EmptyString -> a ++ b <> EmptyString.
Proof. destruct a; simpl; [tauto | discriminate]. Qed.

Lemma rstrip_app_nonempty (a b : string) :
  rstrip b <> EmptyString -> rstrip (a ++ b) = a ++ rstrip b.
Proof.
  intros Hb. induction a as [|c a IH]; simpl; [reflexivity |].
  rewrite IH. pose proof (app_nonempty_r a (rstrip b) Hb) as Hne.
  destruct (a ++ rstrip b); [congruence | reflexivity].
Qed.

Lemma segment_strip (s : string) : segment s -> strip s = s.
Proof. intros [_ [_ [Hl Hr]]]. unfold strip. now rewrite Hl, Hr. Qed.

Lemma segment_strip_space (s : string) : segment s -> strip (" " ++ s) = s.
Proof. intros H. unfold strip. simpl. exact (segment_strip s H). Qed.

Lemma segment_truthy (s : string) : segment s -> truthy s = true.
Proof. intros [Hne _]. destruct s; [congruence | reflexivity]. Qed.

(** *** Label segments *)

Lemma split_cons_other (c : ascii) (s : string) :
  Ascii.eqb c comma = false ->
  exists h t, split comma s = h :: t /\ split comma (String c s) = String c h :: t.
Proof.
  intros Hc. simpl. rewrite Hc.
  destruct (split comma s) as [|h t] eqn:E.
  - now apply split_nonempty in E.
  - now exists h, t.
Qed.

(** The pieces of a text made of commas and white space are blank. *)
Lemma split_blank_pieces (s : string) :
  all_chars comma_or_space s = true ->
  Forall (fun p => all_chars isspace p = true) (split comma s).
Proof.
  induction s as [|c s IH]; simpl.
  - intros _. now constructor.
  - rewrite andb_true_iff. intros [Hc Hs]. specialize (IH Hs).
    unfold comma_or_space in Hc.
    destruct (Ascii.eqb c comma) eqn:E.
    + now constructor.
    + simpl in Hc. destruct (split comma s) as [|h t].
      * constructor; [simpl; now rewrite Hc | constructor].
      * inversion IH as [|? ? Hh Ht]; subst.
        constructor; [simpl; now rewrite Hc, Hh | exact Ht].
Qed.

Lemma label_parts_blank (s : string) :
  all_chars comma_or_space s = true -> label_parts s = [].
Proof.
  intros H. apply split_blank_pieces in H. unfold label_parts.
  induction H as [|p l Hp _ IH]; simpl; [reflexivity |].
  now rewrite (strip_all_space p Hp).
Qed.

Lemma all_space_comma_or_space (s : string) :
  all_chars isspace s = true -> all_chars comma_or_space s = true.
Proof.
  induction s as [|c s IH]; simpl; [reflexivity |].
  rewrite !andb_true_iff. intros [Hc Hs]. unfold comma_or_space.
  rewrite Hc, orb_true_r. now split; [| apply IH].
Qed.

(** The text ["A, B, ..."] written from segments splits at its commas
    into the first segment and the others, each after one space. *)
Lemma split_join_segments (x : string) (l : list string) :
  Forall segment (x :: l) ->
  split comma (join ", " (x :: l)) = x :: map (fun s => " " ++ s) l.
Proof.
  revert x. induction l as [|y l IH]; intros x H.
  - inversion H as [|? ? [_ [Hx _]] _]; subst. simpl. now apply split_no_comma.
  - inversion H as [|? ? [_ [Hx _]] Hl]; subst.
    change (join ", " (x :: y :: l))
      with (x ++ String comma (String " " (join ", " (y :: l)))).
    rewrite (split_app_comma _ _ Hx). f_equal.
    destruct (split_cons_other " " (join ", " (y :: l)) eq_refl) as [h [t [E1 E2]]].
    rewrite E2. rewrite (IH y Hl) in E1. injection E1 as <- <-. reflexivity.
Qed.

Lemma join_segments_nonempty (x : string) (l : list string) :
  segment x -> join ", " (x :: l) <> EmptyString.
Proof.
  intros [Hx _]. destruct l; simpl; [exact Hx |].
  destruct x; [congruence | discriminate].
Qed.

Lemma strip_join_segments (x : string) (l : list string) :
  Forall segment (x :: l) -> strip (join ", " (x :: l)) = join ", " (x :: l).
Proof.
  intros H. unfold strip.
  assert (HL : lstrip (join ", " (x :: l)) = join ", " (x :: l)).
  { inversion H as [|? ? [Hne [_ [Hlx _]]] _]; subst.
    destruct l; simpl; [exact Hlx |]. now apply lstrip_fixed_app. }
  rewrite HL. clear HL. revert x H.
  induction l as [|y l IH]; intros x H.
  - inversion H as [|? ? [_ [_ [_ Hr]]] _]; subst. exact Hr.
  - inversion H as [|? ? _ Hl]; subst.
    assert (Hy : segment y) by now inversion Hl.
    change (join ", " (x :: y :: l)) with (x ++ ", " ++ join ", " (y :: l)).
    pose proof (join_segments_nonempty y l Hy) as Hne.
    rewrite rstrip_app_nonempty.
    + rewrite rstrip_app_nonempty; rewrite (IH y Hl); [reflexivity | exact Hne].
    + rewrite rstrip_app_nonempty; rewrite (IH y Hl); [| exact Hne].
      discriminate.
Qed.

(** The extractor's segment list of a label written ["A, B, ..."] from
    segments is the list of those segments. *)
Lemma label_parts_join_segments (x : string) (l : list string) :
  Forall segment (x :: l) ->
  label_parts (strip (join ", " (x :: l))) = x :: l.
Proof.
  intros H. rewrite (strip_join_segments x l H).
  unfold label_parts. rewrite (split_join_segments x l H).
  inversion H as [|? ? Hx Hl]; subst. cbn [filter].
  rewrite (segment_strip x Hx), (segment_truthy x Hx). cbn [map].
  rewrite (segment_strip x Hx). f_equal.
  clear H Hx. induction Hl as [|y l Hy _ IH]; [reflexivity |].
  cbn [map filter]. rewrite (segment_strip_space y Hy), (segment_truthy y Hy).
  cbn [map]. now rewrite (segment_strip_space y Hy), IH.
Qed.

(** ** The card extractor *)

Example parse_cards_example :
  parse_cards (dom_of [ card_of (Some "Workshop, 12 Main St, Ottawa, Canada")
                                (Some "craft") (Some "45.0, -73.0");
                        card_of None (Some "x") None;
                        card_of (Some " Solo ") None (Some "nowhere") ])
  = [ mkPlace "Workshop" "12 Main St, Ottawa" "Canada" "craft" "45.0" "-73.0";
      mkPlace "Solo" EmptyString EmptyString EmptyString EmptyString EmptyString ].
Proof. reflexivity. Qed.

(** The loop is the concatenation, in DOM order, of what each card
    contributes. *)
Lemma parse_card_list_emitted (cards : list Card) (results : list PlaceRecord) :
  parse_card_list cards results = (results ++ flat_map emitted cards)%list.
Proof.
  unfold parse_card_list. revert results.
  induction cards as [|card cards IH]; intros results; simpl.
  - now rewrite app_nil_r.
  - rewrite IH. unfold emitted at 2.
    destruct (parse_card card); [now rewrite <- app_assoc | reflexivity].
Qed.

Lemma parse_cards_emitted (page : Dom) :
  parse_cards page = flat_map emitted (query_selector_all page LISTITEM).
Proof. unfold parse_cards. now rewrite parse_card_list_emitted. Qed.

(** A card in the middle of the list contributes its record between
    the records of the cards before and after it. *)
Lemma parse_cards_at (page : Dom) (before after : list Card) (card : Card)
    (r : PlaceRecord) :
  query_selector_all page LISTITEM = (before ++ card :: after)%list ->
  parse_card card = Some r ->
  parse_cards page
  = (parse_card_list before [] ++ r :: parse_card_list after [])%list.
Proof.
  intros Hq Hr. rewrite parse_cards_emitted, Hq, !parse_card_list_emitted.
  rewrite flat_map_app. simpl. unfold emitted at 2. now rewrite Hr.
Qed.

Lemma parse_card_labelled (card : Card) (el : ElementHandle) :
  query_selector card "span.name" = Some el ->
  exists r, parse_card card = Some r
    /\ Name r = hd EmptyString (label_parts (strip (inner_text el)))
    /\ Country r = (if (1 <? List.length (label_parts (strip (inner_text el))))%nat
                    then last (label_parts (strip (inner_text el))) EmptyString
                    else EmptyString)
    /\ Address r = (if (2 <? List.length (label_parts (strip (inner_text el))))%nat
                    then join ", " (slice_1_m1 (label_parts (strip (inner_text el))))
                    else EmptyString)
    /\ (Latitude r, Longitude r) = parse_coords (query_selector card "p.coords").
Proof.
  intros H. unfold parse_card. rewrite H.
  destruct (parse_coords (query_selector card "p.coords")) as [lat lon].
  eexists. split; [reflexivity |]. simpl. repeat split.
Qed.

(** C1: a card whose primary label splits into the trimmed non-empty
    segments A, B, C, D -- in particular a label written "A, B, C, D" --
    yields name A, address "B, C" and country D; a label with the
    single segment A yields name A and empty address and country.  The
    record stands in the output at the card's place. *)
Theorem parse_cards_label_segments :
  forall (page : Dom) (before after : list Card) (card : Card)
         (el : ElementHandle) (A B C D : string),
    query_selector_all page LISTITEM = (before ++ card :: after)%list ->
    query_selector card "span.name" = Some el ->
    (label_parts (strip (inner_text el)) = [A; B; C; D] ->
     exists r,
       parse_cards page
       = (parse_card_list before [] ++ r :: parse_card_list after [])%list
       /\ Name r = A /\ Address r = B ++ ", " ++ C /\ Country r = D)
    /\
    (segment A -> segment B -> segment C -> segment D ->
     inner_text el = A ++ ", " ++ B ++ ", " ++ C ++ ", " ++ D ->
     exists r,
       parse_cards page
       = (parse_card_list before [] ++ r :: parse_card_list after [])%list
       /\ Name r = A /\ Address r = B ++ ", " ++ C /\ Country r = D)
    /\
    (label_parts (strip (inner_text el)) = [A] ->
     exists r,
       parse_cards page
       = (parse_card_list before [] ++ r :: parse_card_list after [])%list
       /\ Name r = A /\ Address r = EmptyString /\ Country r = EmptyString)
    /\
    (segment A -> inner_text el = A ->
     exists r,
       parse_cards page
       = (parse_card_list before [] ++ r :: parse_card_list after [])%list
       /\ Name r = A /\ Address r = EmptyString /\ Country r = EmptyString).
Proof.
  intros page before after card el A B C D Hq Hel.
  destruct (parse_card_labelled card el Hel) as [r [Hr [Hn [Hc [Ha _]]]]].
  pose proof (parse_cards_at page before after card r Hq Hr) as Hat.
  assert (H4 : label_parts (strip (inner_text el)) = [A; B; C; D] ->
               exists r,
                 parse_cards page
                 = (parse_card_list before [] ++ r :: parse_card_list after [])%list
                 /\ Name r = A /\ Address r = B ++ ", " ++ C /\ Country r = D).
  { intros Hp. rewrite Hp in Hn, Hc, Ha. exists r. now repeat split. }
  assert (H1 : label_parts (strip (inner_text el)) = [A] ->
               exists r,
                 parse_cards page
                 = (parse_card_list before [] ++ r :: parse_card_list after [])%list
                 /\ Name r = A /\ Address r = EmptyString /\ Country r = EmptyString).
  { intros Hp. rewrite Hp in Hn, Hc, Ha. exists r. now repeat split. }
  split; [exact H4 |]. split; [| split; [exact H1 |]].
  - intros SA SB SC SD Htxt. apply H4. rewrite Htxt.
    apply (label_parts_join_segments A [B; C; D]).
    repeat (apply Forall_cons; [assumption |]). apply Forall_nil.
  - intros SA Htxt. apply H1. rewrite Htxt.
    apply (label_parts_join_segments A []).
    repeat (apply Forall_cons; [assumption |]). apply Forall_nil.
Qed.

Lemma parse_cards_label_segments_witness :
  (exists r,
     parse_cards (dom_of [card_of None None None;
                          card_of (Some " A , B,, C , D ") None None])
     = ([] ++ [r])%list
     /\ Name r = "A" /\ Address r = "B, C" /\ Country r = "D")
  /\
  (exists r,
     parse_cards (dom_of [card_of (Some "A") None None; sample_card])
     = ([] ++ [r; sample_record])%list
     /\ Name r = "A" /\ Address r = EmptyString /\ Country r = EmptyString).
Proof.
  split.
  - exact (proj1 (parse_cards_label_segments
             (dom_of [card_of None None None;
                      card_of (Some " A , B,, C , D ") None None])
             [card_of None None None] []
             (card_of (Some " A , B,, C , D ") None None)
             (mkElement " A , B,, C , D ") "A" "B" "C" "D"
             eq_refl eq_refl) eq_refl).
  - exact (proj1 (proj2 (proj2 (parse_cards_label_segments
             (dom_of [card_of (Some "A") None None; sample_card])
             [] [sample_card]
             (card_of (Some "A") None None)
             (mkElement "A") "A" EmptyString EmptyString EmptyString
             eq_refl eq_refl))) eq_refl).
Defined.

Lemma emitted_labelled (card : Card) :
  has_primary_label card = true -> exists r, parse_card card = Some r.
Proof.
  unfold has_primary_label.
  destruct (query_selector card "span.name") as [el|] eqn:E; [| discriminate].
  intros _. destruct (parse_card_labelled card el E) as [r [Hr _]]. now exists r.
Qed.

Lemma emitted_unlabelled (card : Card) :
  has_primary_label card = false -> parse_card card = None.
Proof.
  unfold has_primary_label, parse_card.
  destruct (query_selector card "span.name"); [discriminate | reflexivity].
Qed.

Lemma flat_map_emitted_labelled (cards : list Card) :
  Forall2 (fun card r => parse_card card = Some r)
          (filter has_primary_label cards) (flat_map emitted cards).
Proof.
  induction cards as [|card cards IH]; simpl; [constructor |].
  unfold emitted at 1.
  destruct (has_primary_label card) eqn:E.
  - destruct (emitted_labelled card E) as [r Hr]. rewrite Hr. simpl.
    now constructor.
  - now rewrite (emitted_unlabelled card E).
Qed.

Lemma filter_split_length {A : Type} (p : A -> bool) (l : list A) :
  (List.length (filter p l) + List.length (filter (fun x => negb (p x)) l)
   = List.length l)%nat.
Proof.
  induction l as [|x l IH]; simpl; [reflexivity |].
  destruct (p x); simpl; lia.
Qed.

(** C2: the records of the output are, in order, those of the cards
    that have a primary label; a card without one contributes nothing;
    and the output is shorter than the card list by exactly the number
    of cards without a primary label. *)
Theorem parse_cards_skips_unlabelled :
  forall page : Dom,
    Forall2 (fun card r => parse_card card = Some r)
            (filter has_primary_label (query_selector_all page LISTITEM))
            (parse_cards page)
    /\ Forall (fun card => emitted card = [])
              (filter (fun c => negb (has_primary_label c))
                      (query_selector_all page LISTITEM))
    /\ List.length (parse_cards page)
       = (List.length (query_selector_all page LISTITEM)
          - List.length (filter (fun c => negb (has_primary_label c))
                                (query_selector_all page LISTITEM)))%nat
    /\ (List.length (parse_cards page)
        + List.length (filter (fun c => negb (has_primary_label c))
                              (query_selector_all page LISTITEM))
        = List.length (query_selector_all page LISTITEM))%nat.
Proof.
  intros page. rewrite parse_cards_emitted.
  set (cards := query_selector_all page LISTITEM).
  pose proof (flat_map_emitted_labelled cards) as HF.
  pose proof (filter_split_length has_primary_label cards) as HL.
  rewrite (Forall2_length HF) in HL.
  repeat split; [exact HF | | lia | lia].
  apply Forall_forall. intros card Hin. apply filter_In in Hin.
  destruct Hin as [_ Hn]. apply negb_true_iff in Hn.
  unfold emitted. now rewrite (emitted_unlabelled card Hn).
Qed.

(** C10: a card whose primary label exists but trims to the empty
    string, or is made of commas and white space only, is not skipped:
    its record is in the output at the card's place, with empty name,
    address and country. *)
Theorem parse_cards_blank_label_kept :
  forall (page : Dom) (before after : list Card) (card : Card) (el : ElementHandle),
    query_selector_all page LISTITEM = (before ++ card :: after)%list ->
    query_selector card "span.name" = Some el ->
    strip (inner_text el) = EmptyString
    \/ all_chars comma_or_space (inner_text el) = true ->
    exists r,
      parse_card card = Some r
      /\ parse_cards page
         = (parse_card_list before [] ++ r :: parse_card_list after [])%list
      /\ Name r = EmptyString /\ Address r = EmptyString /\ Country r = EmptyString.
Proof.
  intros page before after card el Hq Hel Hblank.
  assert (Hp : label_parts (strip (inner_text el)) = []).
  { apply label_parts_blank. apply all_chars_strip.
    destruct Hblank as [H | H]; [| exact H].
    now apply all_space_comma_or_space, strip_empty_iff. }
  destruct (parse_card_labelled card el Hel) as [r [Hr [Hn [Hc [Ha _]]]]].
  rewrite Hp in Hn, Hc, Ha. simpl in Hn, Hc, Ha.
  exists r. split; [exact Hr |].
  split; [exact (parse_cards_at page before after card r Hq Hr) |].
  now repeat split.
Qed.

Lemma parse_cards_blank_label_kept_witness :
  exists r,
    parse_card (card_of (Some " , ,, ") (Some "shop") None) = Some r
    /\ parse_cards (dom_of [sample_card; card_of (Some " , ,, ") (Some "shop") None])
       = ([sample_record] ++ [r])%list
    /\ Name r = EmptyString /\ Address r = EmptyString /\ Country r = EmptyString.
Proof.
  exact (parse_cards_blank_label_kept
           (dom_of [sample_card; card_of (Some " , ,, ") (Some "shop") None])
           [sample_card] []
           (card_of (Some " , ,, ") (Some "shop") None)
           (mkElement " , ,, ")
           eq_refl eq_refl (or_intror eq_refl)).
Defined.

(** *** Coordinates *)

Lemma parse_coords_absent : parse_coords None = (EmptyString, EmptyString).
Proof. reflexivity. Qed.

Lemma parse_coords_no_comma (el : ElementHandle) :
  contains "," (strip (inner_text el)) = false ->
  parse_coords (Some el) = (EmptyString, EmptyString).
Proof. intros H. unfold parse_coords. now rewrite H. Qed.

Lemma parse_coords_comma (el : ElementHandle) :
  contains "," (strip (inner_text el)) = true ->
  exists a b,
    strip (inner_text el) = a ++ "," ++ b
    /\ contains "," a = false
    /\ parse_coords (Some el) = (strip a, strip b).
Proof.
  intros H. unfold parse_coords. rewrite H.
  destruct (split_once_comma_two _ H) as [a [b [E [Es Ha]]]].
  exists a, b. rewrite E. simpl. repeat split; assumption.
Qed.

(** C3, as the program has it: latitude and longitude are both empty
    when the coordinate node is absent or its trimmed text has no
    comma; a text with a comma is cut once, at its first comma, and
    the two trimmed halves become latitude and longitude as they are;
    so "45.0, -73.0" gives "45.0" and "-73.0". *)
Theorem parse_card_coordinates :
  forall (card : Card) (r : PlaceRecord),
    parse_card card = Some r ->
    (query_selector card "p.coords" = None ->
     Latitude r = EmptyString /\ Longitude r = EmptyString)
    /\ (forall el,
          query_selector card "p.coords" = Some el ->
          contains "," (strip (inner_text el)) = false ->
          Latitude r = EmptyString /\ Longitude r = EmptyString)
    /\ (forall el,
          query_selector card "p.coords" = Some el ->
          contains "," (strip (inner_text el)) = true ->
          exists a b,
            strip (inner_text el) = a ++ "," ++ b
            /\ contains "," a = false
            /\ Latitude r = strip a /\ Longitude r = strip b)
    /\ (forall el,
          query_selector card "p.coords" = Some el ->
          inner_text el = "45.0, -73.0" ->
          Latitude r = "45.0" /\ Longitude r = "-73.0").
Proof.
  intros card r Hr.
  assert (Hc : (Latitude r, Longitude r) = parse_coords (query_selector card "p.coords")).
  { unfold parse_card in Hr.
    destruct (query_selector card "span.name") as [el|]; [| discriminate].
    destruct (parse_coords (query_selector card "p.coords")) as [lat lon].
    injection Hr as <-. reflexivity. }
  repeat split.
  - rewrite H in Hc. now injection Hc.
  - rewrite H in Hc. now injection Hc.
  - rewrite H, (parse_coords_no_comma el H0) in Hc. now injection Hc.
  - rewrite H, (parse_coords_no_comma el H0) in Hc. now injection Hc.
  - intros el He Hcomma. rewrite He in Hc.
    destruct (parse_coords_comma el Hcomma) as [a [b [E [Ha Hp]]]].
    rewrite Hp in Hc. injection Hc as Hlat Hlon. now exists a, b.
  - rewrite H in Hc. destruct el as [txt]. simpl in H0. subst txt.
    now injection Hc.
  - rewrite H in Hc. destruct el as [txt]. simpl in H0. subst txt.
    now injection Hc.
Qed.

Lemma parse_card_coordinates_witness :
  Latitude sample_record = "45.0" /\ Longitude sample_record = "-73.0".
Proof.
  exact (proj2 (proj2 (proj2
           (parse_card_coordinates sample_card sample_record eq_refl)))
           (mkElement "45.0, -73.0") eq_refl eq_refl).
Defined.

(** C3 as it was stated fails: the text "45.0," is not a "lat, lon"
    pair (there is no longitude), yet the latitude comes out as "45.0". *)
Lemma parse_card_coordinates_malformed_kept :
  exists (card : Card) (r : PlaceRecord) (el : ElementHandle),
    parse_card card = Some r
    /\ query_selector card "p.coords" = Some el
    /\ spec_wellformed_coords (inner_text el) = false
    /\ ~ (Latitude r = EmptyString /\ Longitude r = EmptyString).
Proof.
  exists (card_of (Some "Workshop") None (Some "45.0,")),
         (mkPlace "Workshop" EmptyString EmptyString EmptyString "45.0" EmptyString),
         (mkElement "45.0,").
  repeat split. intros [H _]. discriminate H.
Qed.

(** ** The resource filter *)

Lemma in_types_spec (ty : string) (tys : list string) :
  in_types ty tys = true <-> In ty tys.
Proof.
  unfold in_types. rewrite existsb_exists. split.
  - intros [x [Hin Heq]]. apply String.eqb_eq in Heq. now subst.
  - intros Hin. exists ty. split; [exact Hin | apply String.eqb_refl].
Qed.

Lemma should_block_spec (url : string) :
  should_block url = true
  <-> exists h, In h BLOCK_HOST_PATTERNS /\ is_substring h url.
Proof.
  unfold should_block, is_substring. rewrite existsb_exists.
  split; intros [h [Hin H]]; exists h; (split; [exact Hin |]);
    now apply contains_spec.
Qed.

Lemma route_handler_cases (r : Request) :
  route_handler r = Abort \/ route_handler r = Continue.
Proof. unfold route_handler. destruct (_ || _); auto. Qed.

(** C4: a request is aborted exactly when its category is image, font
    or media, or its URL contains one of the blocked host substrings,
    and is continued otherwise; so a blocked host is aborted whatever
    the category, a blocked category whatever the host, and a document
    or script request to a URL without blocked substring is continued. *)
Theorem route_handler_aborts_iff :
  forall r : Request,
    (route_handler r = Abort
     <-> In (resource_type r) ["image"; "font"; "media"]
         \/ exists h, In h BLOCK_HOST_PATTERNS /\ is_substring h (req_url r))
    /\ (route_handler r = Continue
        <-> ~ In (resource_type r) ["image"; "font"; "media"]
            /\ forall h, In h BLOCK_HOST_PATTERNS -> ~ is_substring h (req_url r))
    /\ (forall h ty, In h BLOCK_HOST_PATTERNS -> is_substring h (req_url r) ->
                     route_handler (mkRequest (req_url r) ty) = Abort)
    /\ (forall url, In (resource_type r) ["image"; "font"; "media"] ->
                    route_handler (mkRequest url (resource_type r)) = Abort)
    /\ (resource_type r = "document" \/ resource_type r = "script" ->
        (forall h, In h BLOCK_HOST_PATTERNS -> ~ is_substring h (req_url r)) ->
        route_handler r = Continue).
Proof.
  assert (Habort : forall q : Request,
             route_handler q = Abort
             <-> In (resource_type q) BLOCK_RESOURCE_TYPES
                 \/ exists h, In h BLOCK_HOST_PATTERNS /\ is_substring h (req_url q)).
  { intros q. rewrite <- in_types_spec, <- should_block_spec, <- orb_true_iff.
    unfold route_handler. destruct (_ || _); split; congruence. }
  assert (Hcont : forall q : Request,
             route_handler q = Continue
             <-> ~ In (resource_type q) BLOCK_RESOURCE_TYPES
                 /\ forall h, In h BLOCK_HOST_PATTERNS -> ~ is_substring h (req_url q)).
  { intros q. split.
    - intros Hc. split.
      + intros Hin. assert (route_handler q = Abort) by (apply Habort; now left).
        congruence.
      + intros h Hin Hsub.
        assert (route_handler q = Abort) by (apply Habort; right; now exists h).
        congruence.
    - intros [Hty Hurl]. destruct (route_handler_cases q) as [Ha | Hc]; [| exact Hc].
      apply Habort in Ha. destruct Ha as [Ha | [h [Hin Hsub]]].
      + contradiction.
      + exfalso. exact (Hurl h Hin Hsub). }
  intros r. split; [apply Habort |]. split; [apply Hcont |].
  split; [| split].
  - intros h ty Hin Hsub. apply Habort. right. now exists h.
  - intros url Hin. apply Habort. now left.
  - intros Hty Hurl. apply Hcont. split; [| exact Hurl].
    intros Hin. simpl in Hin.
    destruct Hty as [E | E]; rewrite E in Hin;
      repeat (destruct Hin as [Hin | Hin]; [discriminate Hin |]); exact Hin.
Qed.

Lemma route_handler_aborts_iff_witness :
  route_handler (mkRequest "https://a.tile.openstreetmap.org/7/37/45.png" "xhr") = Abort
  /\ route_handler (mkRequest "https://nominatim.openstreetmap.org/logo.svg" "image") = Abort
  /\ route_handler (mkRequest "https://nominatim.openstreetmap.org/ui/search.html" "document")
     = Continue.
Proof.
  split; [| split].
  - apply (proj1 (proj2 (proj2
             (route_handler_aborts_iff
                (mkRequest "https://a.tile.openstreetmap.org/7/37/45.png" "document"))))
             "tile.openstreetmap.org" "xhr").
    + simpl. tauto.
    + exists "https://a.", "/7/37/45.png". reflexivity.
  - apply (proj1 (proj2 (proj2 (proj2
             (route_handler_aborts_iff
                (mkRequest "https://x.org/" "image")))))
             "https://nominatim.openstreetmap.org/logo.svg").
    simpl. tauto.
  - apply (proj2 (proj2 (proj2 (proj2
             (route_handler_aborts_iff
                (mkRequest "https://nominatim.openstreetmap.org/ui/search.html" "document")))))).
    + now left.
    + intros h Hin Hsub.
      assert (Hb : should_block "https://nominatim.openstreetmap.org/ui/search.html" = true)
        by (apply should_block_spec; now exists h).
      vm_compute in Hb. discriminate Hb.
Defined.

(** ** The acquisition controller *)

(** *** Counting events *)

Lemma count_events_app (p : event -> bool) (a b : list event) :
  count_events p (a ++ b)%list = (count_events p a + count_events p b)%nat.
Proof. unfold count_events. now rewrite filter_app, length_app. Qed.

Lemma count_events_none (p q : event -> bool) (evs : list event) :
  (forall ev, q ev = true -> p ev = false) ->
  forallb q evs = true -> count_events p evs = 0%nat.
Proof.
  intros Hpq. unfold count_events.
  induction evs as [|ev evs IH]; simpl; [reflexivity |].
  rewrite andb_true_iff. intros [Hq Hevs]. now rewrite (Hpq ev Hq), IH.
Qed.

Lemma waits_no_goto (ev : event) : is_wait ev = true -> is_goto ev = false.
Proof. now destruct ev. Qed.

Lemma waits_no_close (ev : event) : is_wait ev = true -> is_close ev = false.
Proof. now destruct ev. Qed.

Lemma waits_loop_events (evs : list event) :
  forallb is_wait evs = true -> forallb is_loop_event evs = true.
Proof.
  induction evs as [|ev evs IH]; simpl; [reflexivity |].
  rewrite !andb_true_iff. intros [H Hevs]. split; [now destruct ev | now apply IH].
Qed.

Lemma loop_events_no_stop (ev : event) : is_loop_event ev = true -> is_stop ev = false.
Proof. now destruct ev. Qed.

Lemma loop_events_no_output (ev : event) : is_loop_event ev = true -> is_output ev = false.
Proof. now destruct ev. Qed.

(** *** One attempt *)

Section Attempt.
Context {W : Type} (s : Session W) (url : string) (t : Z).

Ltac run_op op :=
  let w := fresh "w" in
  let e := fresh "e" in
  let E := fresh "E" in
  destruct op as [w [e|]] eqn:E; cbn [fst snd world trace].

Ltac flatten_trace := repeat rewrite <- app_assoc; cbn [app].

(** Every run of the [try] block is one of the two outcomes. *)
Lemma attempt_body_outcome (st : Run W) :
  body_outcome s url st (fst (attempt_body s url t st)) (snd (attempt_body s url t st)).
Proof.
  destruct st as [w0 tr].
  unfold attempt_body, bind, page_goto, page_wait_for_selector,
    page_wait_for_timeout, page_parse_cards, browser_close, call, ret, raise,
    DEBUG_HEADED.
  cbn [world trace].
  run_op (goto s url "domcontentloaded" t w0).
  { apply (body_raised s url (mkRun w0 tr) w [] e); [| reflexivity].
    left. apply (goto_raises s e url "domcontentloaded" t w0). now rewrite E. }
  run_op (wait_for_selector s "#searchresults" "attached" t w).
  { flatten_trace.
    apply (body_raised s url (mkRun w0 tr) w1 [_] e); [| reflexivity].
    left. apply (wait_for_selector_raises s e "#searchresults" "attached" t w).
    now rewrite E0. }
  run_op (wait_for_selector s LISTITEM "visible" t w1).
  { flatten_trace.
    apply (body_raised s url (mkRun w0 tr) w2 [_; _] e); [| reflexivity].
    left. apply (wait_for_selector_raises s e LISTITEM "visible" t w1).
    now rewrite E1. }
  run_op (wait_for_timeout s 500 w2).
  { flatten_trace.
    apply (body_raised s url (mkRun w0 tr) w3 [_; _; _] e); [| reflexivity].
    left. apply (wait_for_timeout_raises s e 500 w2). now rewrite E2. }
  destruct (parse_cards (dom s w3)) as [|r0 d0] eqn:P1; cbn [nonempty world trace fst snd].
  2:{ flatten_trace. rewrite <- P1.
      apply (body_returned s url (mkRun w0 tr) w3 [_; _; _]); [| reflexivity].
      rewrite P1. discriminate. }
  run_op (wait_for_timeout s 1500 w3).
  { flatten_trace.
    apply (body_raised s url (mkRun w0 tr) w4 [_; _; _; _] e); [| reflexivity].
    left. apply (wait_for_timeout_raises s e 1500 w3). now rewrite E3. }
  destruct (parse_cards (dom s w4)) as [|r1 d1] eqn:P2; cbn [nonempty world trace fst snd].
  - flatten_trace.
    apply (body_raised s url (mkRun w0 tr) w4 [_; _; _; _]); [| reflexivity].
    right. split; [reflexivity | exact P2].
  - flatten_trace. rewrite <- P2.
    apply (body_returned s url (mkRun w0 tr) w4 [_; _; _; _]); [| reflexivity].
    rewrite P2. discriminate.
Qed.
End Attempt.

Section Loop.
Context {W : Type} (s : Session W) (url : string) (t : Z).

(** The handler always ends normally, whatever the snapshot and the
    reload do, and has logged both. *)
Lemma on_failure_swallows (attempt : Z) (st : Run W) :
  exists w,
    on_failure s attempt t st
    = (mkRun w (trace st ++ [EvScreenshot (error_snapshot attempt); EvReload])%list,
       Ok tt).
Proof.
  unfold on_failure, bind, swallow, try_except, page_screenshot, page_reload,
    call, ret, error_snapshot.
  destruct (screenshot s _ (world st)) as [w1 [e1|]]; cbn [world trace];
    destruct (reload s _ t w1) as [w2 [e2|]]; cbn [world trace];
    rewrite <- app_assoc; now exists w2.
Qed.

(** The handler of [s] and of [quiet s] do the same. *)
Lemma on_failure_quiet (attempt : Z) (st : Run W) :
  on_failure s attempt t st = on_failure (quiet s) attempt t st.
Proof.
  unfold on_failure, bind, swallow, try_except, page_screenshot, page_reload,
    call, ret, quiet, masked. cbn [screenshot reload].
  destruct (screenshot s _ (world st)) as [w1 [e1|]]; cbn [fst world trace];
    destruct (reload s _ t w1) as [w2 [e2|]]; reflexivity.
Qed.

Lemma one_attempt_outcome (attempt : Z) (st : Run W) :
  attempt_outcome s url t attempt st
    (fst (one_attempt s url t attempt st)) (snd (one_attempt s url t attempt st)).
Proof.
  unfold one_attempt, try_except, bind, ret.
  destruct (attempt_body s url t st) as [st1 [data | e]] eqn:E.
  - cbn [fst snd]. now apply attempt_returned.
  - destruct (retryable e) eqn:R.
    + destruct (on_failure_swallows attempt st1) as [w Hw]. rewrite Hw.
      cbn [fst snd]. now apply attempt_retried.
    + cbn [fst snd]. now apply attempt_escaped.
Qed.

(** What an iteration adds to the trace: one navigation, events of
    the loop only, and a close, as the last event, exactly when it
    returns.  An exception that escapes was raised by the page. *)
Lemma attempt_outcome_trace (attempt : Z) (st st' : Run W)
    (r : result (list PlaceRecord + exn)) :
  attempt_outcome s url t attempt st st' r ->
  exists evs,
    trace st' = (trace st ++ evs)%list
    /\ forallb is_loop_event evs = true
    /\ count_events is_goto evs = 1%nat
    /\ match r with
       | Ok (inl data) =>
           data <> []
           /\ exists evs0, evs = (evs0 ++ [EvClose])%list
                           /\ count_events is_close evs0 = 0%nat
       | Ok (inr e) => retryable e = true /\ count_events is_close evs = 0%nat
       | Raise e =>
           retryable e = false /\ page_raises s e
           /\ count_events is_close evs = 0%nat
       end.
Proof.
  intros H.
  pose proof (attempt_body_outcome s url t st) as B.
  destruct H as [st1 data E | st1 e w E R | st1 e E R];
    rewrite E in B; cbn [fst snd] in B;
    inversion B as [w0 evs Hd Hevs | w0 evs e0 He Hevs];
    subst; cbn [trace].
  - exists (EvGoto url :: evs ++ [EvClose])%list.
    split; [reflexivity |]. split; [| split; [| split]].
    + cbn [forallb is_loop_event]. rewrite forallb_app, (waits_loop_events _ Hevs).
      reflexivity.
    + change (EvGoto url :: evs ++ [EvClose])%list
        with ([EvGoto url] ++ evs ++ [EvClose])%list.
      rewrite !count_events_app, (count_events_none _ _ _ waits_no_goto Hevs).
      reflexivity.
    + exact Hd.
    + exists (EvGoto url :: evs)%list. split; [reflexivity |].
      change (EvGoto url :: evs)%list with ([EvGoto url] ++ evs)%list.
      rewrite !count_events_app, (count_events_none _ _ _ waits_no_close Hevs).
      reflexivity.
  - exists (EvGoto url :: evs ++ [EvScreenshot (error_snapshot attempt); EvReload])%list.
    split; [now rewrite <- app_assoc |]. split; [| split; [| split]].
    + cbn [forallb is_loop_event]. rewrite forallb_app, (waits_loop_events _ Hevs).
      reflexivity.
    + change (EvGoto url :: evs ++ ?l)%list with ([EvGoto url] ++ evs ++ l)%list.
      rewrite !count_events_app, (count_events_none _ _ _ waits_no_goto Hevs).
      reflexivity.
    + exact R.
    + change (EvGoto url :: evs ++ ?l)%list with ([EvGoto url] ++ evs ++ l)%list.
      rewrite !count_events_app, (count_events_none _ _ _ waits_no_close Hevs).
      reflexivity.
  - exists (EvGoto url :: evs)%list.
    split; [reflexivity |]. split; [| split; [| split; [| split]]].
    + cbn [forallb is_loop_event]. exact (waits_loop_events _ Hevs).
    + change (EvGoto url :: evs)%list with ([EvGoto url] ++ evs)%list.
      rewrite !count_events_app, (count_events_none _ _ _ waits_no_goto Hevs).
      reflexivity.
    + exact R.
    + destruct He as [He | [He _]]; [exact He | subst e; discriminate R].
    + change (EvGoto url :: evs)%list with ([EvGoto url] ++ evs)%list.
      rewrite !count_events_app, (count_events_none _ _ _ waits_no_close Hevs).
      reflexivity.
Qed.

(** *** The loop *)

Lemma retry_loop_cons (attempt : Z) (rest : list Z) (le : option exn) (st : Run W) :
  retry_loop s url t (attempt :: rest) le st
  = match one_attempt s url t attempt st with
    | (st1, Ok (inl data)) => (st1, Ok (inl data))
    | (st1, Ok (inr e)) => retry_loop s url t rest (Some e) st1
    | (st1, Raise e) => (st1, Raise e)
    end.
Proof.
  cbn [retry_loop]. unfold bind at 1.
  destruct (one_attempt s url t attempt st) as [st1 [[data | e] | e]]; reflexivity.
Qed.

(** The last iteration runs from where the earlier ones, all failed,
    left the run. *)
Lemma retry_loop_snoc (l : list Z) (a : Z) (le : option exn) (st : Run W) :
  retry_loop s url t (l ++ [a])%list le st
  = match retry_loop s url t l le st with
    | (st1, Ok (inl data)) => (st1, Ok (inl data))
    | (st1, Ok (inr le1)) => retry_loop s url t [a] le1 st1
    | (st1, Raise e) => (st1, Raise e)
    end.
Proof.
  revert le st. induction l as [|b l IH]; intros le st.
  - reflexivity.
  - change ((b :: l) ++ [a])%list with (b :: (l ++ [a]))%list.
    rewrite !retry_loop_cons.
    destruct (one_attempt s url t b st) as [st1 [[data | e] | e]];
      [reflexivity | apply IH | reflexivity].
Qed.

(** What the loop adds to the trace and how it ends. *)
Lemma retry_loop_trace (l : list Z) (le : option exn) (st : Run W) :
  exists evs,
    trace (fst (retry_loop s url t l le st)) = (trace st ++ evs)%list
    /\ forallb is_loop_event evs = true
    /\ match snd (retry_loop s url t l le st) with
       | Ok (inl data) =>
           data <> []
           /\ exists evs0, evs = (evs0 ++ [EvClose])%list
                           /\ count_events is_close evs0 = 0%nat
       | Ok (inr le') =>
           count_events is_close evs = 0%nat
           /\ count_events is_goto evs = List.length l
           /\ (l = [] -> le' = le)
           /\ (l <> [] -> exists e, le' = Some e /\ retryable e = true)
       | Raise e =>
           retryable e = false /\ page_raises s e
           /\ count_events is_close evs = 0%nat
       end.
Proof.
  revert le st. induction l as [|a l IH]; intros le st.
  - exists []. cbn. rewrite app_nil_r. repeat split. congruence.
  - rewrite retry_loop_cons.
    pose proof (one_attempt_outcome a st) as O.
    apply attempt_outcome_trace in O.
    destruct O as [evs [Ht [Hl [Hg Hr]]]].
    destruct (one_attempt s url t a st) as [st1 [[data | e] | e]];
      cbn [fst snd] in *.
    + exists evs. now repeat split.
    + destruct (IH (Some e) st1) as [evs' [Ht' [Hl' Hr']]].
      exists (evs ++ evs')%list.
      split; [now rewrite Ht', Ht, app_assoc |].
      split; [now rewrite forallb_app, Hl, Hl' |].
      destruct Hr as [Re Hc].
      destruct (snd (retry_loop s url t l (Some e) st1)) as [[data | le'] | e'].
      * destruct Hr' as [Hd [evs0 [E0 C0]]]. split; [exact Hd |].
        exists (evs ++ evs0)%list. split; [now rewrite E0, app_assoc |].
        now rewrite count_events_app, Hc, C0.
      * destruct Hr' as [C0 [G0 [Hnil Hcons]]].
        rewrite !count_events_app, Hc, C0, Hg, G0. repeat split.
        -- discriminate.
        -- intros _. destruct l as [|b l].
           ++ exists e. now rewrite (Hnil eq_refl).
           ++ apply Hcons. discriminate.
      * destruct Hr' as [R' [P' C0]]. repeat split; try assumption.
        now rewrite count_events_app, Hc, C0.
    + exists evs. now repeat split.
Qed.
End Loop.

(** *** The whole acquisition *)

Section Acquisition.
Context {W : Type} (s : Session W) (url : string) (N t : Z).

Lemma session_setup_run (st : Run W) :
  session_setup t st = (mkRun (world st) (trace st ++ setup_events t)%list, Ok tt).
Proof.
  unfold session_setup, bind, log, setup_events, DEBUG_HEADED. cbn [world trace negb].
  now repeat rewrite <- app_assoc.
Qed.

Lemma scrape_unfold (st : Run W) :
  scrape_with_playwright s url N t st
  = match retry_loop s url t (range 1 (N + 1)) None
            (mkRun (world st) (trace st ++ setup_events t)%list) with
    | (st1, Ok (inl data)) =>
        (mkRun (world st1) (trace st1 ++ [EvStop])%list, Ok data)
    | (st1, Ok (inr last_error)) =>
        (mkRun (close s (world st1)) (trace st1 ++ [EvClose; EvStop])%list,
         Raise (RuntimeError (failed_message N last_error)))
    | (st1, Raise e) =>
        (mkRun (world st1) (trace st1 ++ [EvStop])%list, Raise e)
    end.
Proof.
  unfold scrape_with_playwright, finally_, bind at 1.
  rewrite session_setup_run. unfold bind at 1.
  destruct (retry_loop s url t (range 1 (N + 1)) None _) as [st1 [[data | le] | e]];
    unfold bind, browser_close, ret, raise; cbn [world trace];
    try reflexivity.
  now rewrite <- app_assoc.
Qed.

(** The three ways an acquisition ends: it returns records, having
    closed the browser as its last act; it raises the terminal error,
    after as many navigations as there were attempts to make, having
    closed the browser as its last act; or an exception of the page
    that the loop does not catch escapes, and no close was made. *)
Lemma scrape_outcome (st : Run W) :
  exists evs,
    trace (fst (scrape_with_playwright s url N t st))
    = (trace st ++ setup_events t ++ evs ++ [EvStop])%list
    /\ forallb is_loop_event evs = true
    /\ match snd (scrape_with_playwright s url N t st) with
       | Ok data =>
           data <> []
           /\ exists evs0, evs = (evs0 ++ [EvClose])%list
                           /\ count_events is_close evs0 = 0%nat
       | Raise e =>
           (retryable e = false /\ page_raises s e
            /\ count_events is_close evs = 0%nat)
           \/ (exists last evs0,
                 e = RuntimeError (failed_message N last)
                 /\ evs = (evs0 ++ [EvClose])%list
                 /\ count_events is_close evs0 = 0%nat
                 /\ count_events is_goto evs0 = Z.to_nat N
                 /\ ((1 <= N)%Z -> exists e0, last = Some e0 /\ retryable e0 = true))
       end.
Proof.
  rewrite scrape_unfold.
  destruct (retry_loop_trace s url t (range 1 (N + 1)) None
              (mkRun (world st) (trace st ++ setup_events t)%list))
    as [evs [Ht [Hl Hr]]].
  cbn [trace] in Ht.
  destruct (retry_loop s url t (range 1 (N + 1)) None _) as [st1 [[data | le] | e]];
    cbn [fst snd trace] in *.
  - exists evs. rewrite Ht, <- !app_assoc. now repeat split.
  - destruct Hr as [C0 [G0 [_ Hcons]]].
    exists (evs ++ [EvClose])%list. rewrite Ht, <- !app_assoc. cbn [app].
    split; [reflexivity |]. split; [now rewrite forallb_app, Hl |].
    right. exists le, evs. repeat split; try assumption.
    + rewrite G0. unfold range. rewrite length_map, length_seq. f_equal. lia.
    + intros HN. apply Hcons. unfold range.
      replace (Z.to_nat (N + 1 - 1)) with (S (Z.to_nat (N - 1))) by lia.
      discriminate.
  - exists evs. rewrite Ht, <- !app_assoc. split; [reflexivity |].
    split; [exact Hl |]. now left.
Qed.
End Acquisition.

Lemma setup_events_loop_free (t : Z) :
  count_events is_close (setup_events t) = 0%nat
  /\ count_events is_stop (setup_events t) = 0%nat
  /\ count_events is_goto (setup_events t) = 0%nat
  /\ count_events is_output (setup_events t) = 0%nat.
Proof. now repeat split. Qed.

(** C9: an acquisition that returns records, or fails with the
    terminal error of the exhausted retries, has closed the browser
    exactly once and left the Playwright context exactly once: the
    close and the exit are the last two events of the run, and neither
    occurs before. *)
Theorem session_torn_down_once :
  forall (W : Type) (s : Session W) (url : string) (N t : Z) (w : W)
         (st : Run W) (r : result (list PlaceRecord)),
    scrape_with_playwright s url N t (start w) = (st, r) ->
    (exists data, r = Ok data)
    \/ (exists last, r = Raise (RuntimeError (failed_message N last))) ->
    count_events is_close (trace st) = 1%nat
    /\ count_events is_stop (trace st) = 1%nat
    /\ exists before,
         trace st = (before ++ [EvClose; EvStop])%list
         /\ count_events is_close before = 0%nat
         /\ count_events is_stop before = 0%nat.
Proof.
  intros W s url N t w st r Hrun Hend.
  destruct (scrape_outcome s url N t (start w)) as [evs [Ht [Hl Hr]]].
  rewrite Hrun in Ht, Hr. cbn [fst snd start trace app] in Ht, Hr.
  assert (Hshape : exists evs0, evs = (evs0 ++ [EvClose])%list
                                /\ count_events is_close evs0 = 0%nat).
  { destruct Hend as [[data ->] | [last ->]].
    - now destruct Hr as [_ Hr].
    - destruct Hr as [[R _] | [last' [evs0 [_ [E [C _]]]]]]; [discriminate R |].
      now exists evs0. }
  destruct Hshape as [evs0 [-> C0]].
  rewrite forallb_app in Hl. apply andb_true_iff in Hl. destruct Hl as [Hl0 _].
  pose proof (count_events_none is_stop _ evs0 loop_events_no_stop Hl0) as S0.
  destruct (setup_events_loop_free t) as [Cs [Ss _]].
  assert (Hb : trace st = ((setup_events t ++ evs0) ++ [EvClose; EvStop])%list).
  { rewrite Ht, <- !app_assoc. reflexivity. }
  rewrite Hb, !count_events_app, Cs, Ss, C0, S0.
  split; [reflexivity |]. split; [reflexivity |].
  exists (setup_events t ++ evs0)%list.
  now rewrite !count_events_app, Cs, Ss, C0, S0.
Qed.

Lemma session_torn_down_once_witness :
  (count_events is_close
     (trace (fst (scrape_with_playwright late_session SEARCH_URL 3 70000 (start 0%nat))))
   = 1%nat)
  /\ (count_events is_close
        (trace (fst (scrape_with_playwright dead_session SEARCH_URL 3 70000 (start 0%nat))))
      = 1%nat).
Proof.
  split.
  - exact (proj1 (session_torn_down_once nat late_session SEARCH_URL 3 70000 0%nat
                    _ _ eq_refl (or_introl (ex_intro _ [sample_record] eq_refl)))).
  - exact (proj1 (session_torn_down_once nat dead_session SEARCH_URL 3 70000 0%nat
                    _ _ eq_refl
                    (or_intror (ex_intro _ (Some (PlaywrightTimeoutError "Timeout #3"))
                                         eq_refl)))).
Defined.

(** *** The attempt numbers *)

Lemma range_first (lo hi : Z) :
  (lo < hi)%Z -> range lo hi = lo :: range (lo + 1) hi.
Proof.
  intros H. unfold range.
  replace (Z.to_nat (hi - lo)) with (S (Z.to_nat (hi - (lo + 1)))) by lia.
  cbn [seq map]. f_equal; [lia |].
  rewrite <- seq_shift, map_map. apply map_ext. intros i. lia.
Qed.

Lemma range_last (lo hi : Z) :
  (lo <= hi)%Z -> range lo (hi + 1) = (range lo hi ++ [hi])%list.
Proof.
  intros H. unfold range.
  replace (Z.to_nat (hi + 1 - lo)) with (S (Z.to_nat (hi - lo))) by lia.
  rewrite seq_S, map_app. cbn [map Nat.add]. do 2 f_equal. lia.
Qed.

(** *** The grace re-check *)

Section Grace.
Context {W : Type} (s : Session W) (url : string) (t : Z).

Lemma attempt_body_grace (w0 w1 w2 w3 w4 w5 : W) (tr : list event)
    (data : list PlaceRecord) :
  goto s url "domcontentloaded" t w0 = (w1, None) ->
  wait_for_selector s "#searchresults" "attached" t w1 = (w2, None) ->
  wait_for_selector s LISTITEM "visible" t w2 = (w3, None) ->
  wait_for_timeout s 500 w3 = (w4, None) ->
  parse_cards (dom s w4) = [] ->
  wait_for_timeout s 1500 w4 = (w5, None) ->
  parse_cards (dom s w5) = data ->
  data <> [] ->
  attempt_body s url t (mkRun w0 tr)
  = (mkRun (close s w5) (tr ++ grace_events url)%list, Ok data).
Proof.
  intros H1 H2 H3 H4 P1 H5 P2 Hne.
  unfold attempt_body, bind, page_goto, page_wait_for_selector,
    page_wait_for_timeout, page_parse_cards, browser_close, call, ret, raise,
    DEBUG_HEADED.
  cbn [world trace]. rewrite H1. cbn [world trace]. rewrite H2. cbn [world trace].
  rewrite H3. cbn [world trace]. rewrite H4. cbn [world trace].
  rewrite P1. cbn [nonempty world trace]. rewrite H5. cbn [world trace].
  rewrite P2. destruct data as [|r0 d0]; [congruence |].
  cbn [nonempty world trace]. unfold grace_events.
  now repeat rewrite <- app_assoc.
Qed.
End Grace.

(** C5: when the first extraction of the first attempt finds no record
    and the extraction after the grace delay finds some, the
    acquisition returns them from that same attempt: the run has one
    navigation, the two waits for selectors, the settle delay and the
    single grace delay, then the close; no snapshot, no reload and no
    second navigation occur. *)
Theorem grace_recheck_same_attempt :
  forall (W : Type) (s : Session W) (url : string) (N t : Z)
         (w0 w1 w2 w3 w4 w5 : W) (data : list PlaceRecord),
    (1 <= N)%Z ->
    goto s url "domcontentloaded" t w0 = (w1, None) ->
    wait_for_selector s "#searchresults" "attached" t w1 = (w2, None) ->
    wait_for_selector s LISTITEM "visible" t w2 = (w3, None) ->
    wait_for_timeout s 500 w3 = (w4, None) ->
    parse_cards (dom s w4) = [] ->
    wait_for_timeout s 1500 w4 = (w5, None) ->
    parse_cards (dom s w5) = data ->
    data <> [] ->
    scrape_with_playwright s url N t (start w0)
    = (mkRun (close s w5) (setup_events t ++ grace_events url ++ [EvStop])%list,
       Ok data)
    /\ count_events is_goto (setup_events t ++ grace_events url ++ [EvStop]) = 1%nat
    /\ count_events is_screenshot (setup_events t ++ grace_events url ++ [EvStop]) = 0%nat
    /\ count_events is_reload (setup_events t ++ grace_events url ++ [EvStop]) = 0%nat.
Proof.
  intros W s url N t w0 w1 w2 w3 w4 w5 data HN H1 H2 H3 H4 P1 H5 P2 Hne.
  split; [| now repeat split].
  rewrite scrape_unfold, (range_first 1 (N + 1)) by lia.
  rewrite retry_loop_cons. unfold one_attempt, try_except, bind at 1.
  cbn [start world trace app].
  rewrite (attempt_body_grace s url t w0 w1 w2 w3 w4 w5 _ data H1 H2 H3 H4 P1 H5 P2 Hne).
  unfold ret. cbn [world trace]. now rewrite <- !app_assoc.
Qed.

Lemma grace_recheck_same_attempt_witness :
  scrape_with_playwright late_session SEARCH_URL 3 70000 (start 0%nat)
  = (mkRun 2%nat (setup_events 70000 ++ grace_events SEARCH_URL ++ [EvStop])%list,
     Ok [sample_record]).
Proof.
  refine (proj1 (grace_recheck_same_attempt nat late_session SEARCH_URL 3 70000
                   0%nat 0%nat 0%nat 0%nat 1%nat 2%nat [sample_record]
                   _ eq_refl eq_refl eq_refl eq_refl eq_refl eq_refl eq_refl _)).
  - lia.
  - discriminate.
Defined.

(** *** Exhausted retries *)

Section Exhaustion.
Context {W : Type} (s : Session W) (url : string) (t : Z).
Hypothesis Hretry : raises_only_retryable s.
Hypothesis Hempty : forall w, parse_cards (dom s w) = [].

Lemma one_attempt_fails (attempt : Z) (st : Run W) :
  exists (st1 : Run W) (e : exn) (w : W),
    attempt_body s url t st = (st1, Raise e)
    /\ retryable e = true
    /\ one_attempt s url t attempt st
       = (mkRun w (trace st1 ++ [EvScreenshot (error_snapshot attempt); EvReload])%list,
          Ok (inr e)).
Proof.
  pose proof (attempt_body_outcome s url t st) as B.
  unfold one_attempt, try_except, bind, ret.
  destruct (attempt_body s url t st) as [st1 [data | e]]; cbn [fst snd] in B.
  - inversion B as [w0 evs Hd Hevs |]. now rewrite Hempty in Hd.
  - assert (R : retryable e = true).
    { inversion B as [| w0 evs e0 He Hevs]; subst.
      destruct He as [He | [-> _]]; [now apply Hretry | reflexivity]. }
    rewrite R. destruct (on_failure_swallows s t attempt st1) as [w Hw].
    rewrite Hw. now exists st1, e, w.
Qed.

Lemma retry_loop_all_fail (l : list Z) (le : option exn) (st : Run W) :
  exists (st' : Run W) (le' : option exn),
    retry_loop s url t l le st = (st', Ok (inr le')).
Proof.
  revert le st. induction l as [|a l IH]; intros le st.
  - now exists st, le.
  - rewrite retry_loop_cons.
    destruct (one_attempt_fails a st) as [st1 [e [w [_ [_ Ho]]]]].
    rewrite Ho. apply IH.
Qed.
End Exhaustion.

(** C6: when no extraction ever finds a record and the page raises
    only errors the loop catches, the acquisition makes exactly N
    attempts (N navigations) and then raises one error,
    "Failed after N attempts: " followed by the text of the error [e]
    of the N-th attempt, the most recent one; the browser is closed
    once and nothing is written. *)
Theorem retries_exhausted :
  forall (W : Type) (s : Session W) (url : string) (N t : Z) (w : W),
    (1 <= N)%Z ->
    raises_only_retryable s ->
    (forall w', parse_cards (dom s w') = []) ->
    exists (st_before st_failed st_end : Run W) (previous : option exn) (e : exn),
      retry_loop s url t (range 1 N) None (fst (session_setup t (start w)))
      = (st_before, Ok (inr previous))
      /\ attempt_body s url t st_before = (st_failed, Raise e)
      /\ scrape_with_playwright s url N t (start w)
         = (st_end,
            Raise (RuntimeError ("Failed after " ++ str_Z N ++ " attempts: " ++ str_exn e)))
      /\ count_events is_goto (trace st_end) = Z.to_nat N
      /\ count_events is_close (trace st_end) = 1%nat
      /\ count_events is_output (trace st_end) = 0%nat.
Proof.
  intros W s url N t w HN Hretry Hempty.
  rewrite session_setup_run. cbn [fst start world trace app].
  destruct (retry_loop_all_fail s url t Hretry Hempty (range 1 N) None
              (mkRun w (setup_events t))) as [st_before [previous Hloop]].
  destruct (one_attempt_fails s url t Hretry Hempty N st_before)
    as [st_failed [e [w' [Hbody [_ Hone]]]]].
  assert (Hrun : scrape_with_playwright s url N t (start w)
                 = (mkRun (close s w')
                      ((trace st_failed ++ [EvScreenshot (error_snapshot N); EvReload])
                         ++ [EvClose; EvStop])%list,
                    Raise (RuntimeError (failed_message N (Some e))))).
  { rewrite scrape_unfold, (range_last 1 N) by lia.
    cbn [start world trace app].
    rewrite retry_loop_snoc, Hloop, retry_loop_cons, Hone. reflexivity. }
  exists st_before, st_failed, (fst (scrape_with_playwright s url N t (start w))),
         previous, e.
  split; [exact Hloop |]. split; [exact Hbody |].
  split; [now rewrite Hrun |].
  destruct (scrape_outcome s url N t (start w)) as [evs [Ht [Hl Hr]]].
  rewrite Ht. cbn [start trace app].
  rewrite Hrun in Hr. cbn [snd] in Hr.
  destruct Hr as [[R _] | [last [evs0 [_ [-> [C0 [G0 _]]]]]]]; [discriminate R |].
  destruct (setup_events_loop_free t) as [Cs [_ [Gs Os]]].
  rewrite (count_events_app is_output), (count_events_app is_output _ [EvStop]),
    (count_events_none is_output _ _ loop_events_no_output Hl), Os.
  rewrite !count_events_app, Cs, Gs, C0, G0.
  cbn. repeat split; lia.
Qed.

Lemma retries_exhausted_witness :
  exists (st_before st_failed st_end : Run nat) (previous : option exn) (e : exn),
    retry_loop dead_session SEARCH_URL 70000 (range 1 3) None
      (fst (session_setup 70000 (start 0%nat)))
    = (st_before, Ok (inr previous))
    /\ attempt_body dead_session SEARCH_URL 70000 st_before = (st_failed, Raise e)
    /\ scrape_with_playwright dead_session SEARCH_URL 3 70000 (start 0%nat)
       = (st_end,
          Raise (RuntimeError ("Failed after " ++ str_Z 3 ++ " attempts: " ++ str_exn e)))
    /\ count_events is_goto (trace st_end) = Z.to_nat 3
    /\ count_events is_close (trace st_end) = 1%nat
    /\ count_events is_output (trace st_end) = 0%nat.
Proof.
  apply (retries_exhausted nat dead_session SEARCH_URL 3 70000 0%nat).
  - lia.
  - intros e H.
    destruct H as [u wu t w H | sel state t w H | ms w H];
      cbn in H; [injection H as <-; reflexivity | discriminate H | discriminate H].
  - intros w'. reflexivity.
Defined.

(** The terminal message of the run whose navigations time out names
    the attempt count and the error of the third, most recent attempt. *)
Example dead_session_message :
  snd (scrape_with_playwright dead_session SEARCH_URL 3 70000 (start 0%nat))
  = Raise (RuntimeError "Failed after 3 attempts: Timeout #3").
Proof. reflexivity. Qed.

Example empty_session_message :
  snd (scrape_with_playwright empty_session SEARCH_URL 3 70000 (start tt))
  = Raise (RuntimeError "Failed after 3 attempts: No cards parsed (empty result).").
Proof. reflexivity. Qed.

(** *** Snapshot and reload failures *)

Section Quiet.
Context {W : Type} (s : Session W) (url : string) (t : Z).

Lemma attempt_body_quiet (st : Run W) :
  attempt_body s url t st = attempt_body (quiet s) url t st.
Proof. reflexivity. Qed.

Lemma one_attempt_quiet (attempt : Z) (st : Run W) :
  one_attempt s url t attempt st = one_attempt (quiet s) url t attempt st.
Proof.
  unfold one_attempt, try_except, bind, ret.
  rewrite <- attempt_body_quiet.
  destruct (attempt_body s url t st) as [st1 [data | e]]; [reflexivity |].
  destruct (retryable e); [| reflexivity].
  now rewrite on_failure_quiet.
Qed.

Lemma retry_loop_quiet (l : list Z) (le : option exn) (st : Run W) :
  retry_loop s url t l le st = retry_loop (quiet s) url t l le st.
Proof.
  revert le st. induction l as [|a l IH]; intros le st; [reflexivity |].
  rewrite !retry_loop_cons, <- one_attempt_quiet.
  destruct (one_attempt s url t a st) as [st1 [[data | e] | e]];
    [reflexivity | apply IH | reflexivity].
Qed.
End Quiet.

(** C7: a failure of the snapshot of a failed attempt and a failure of
    the reload are swallowed.  The whole acquisition, and the whole
    program, end in the same state with the same result as with a
    session whose snapshots and reloads never raise; and after any
    attempt that failed with a caught error the handler ends normally,
    whatever the snapshot and the reload did, and the loop goes on with
    the remaining attempts. *)
Theorem diagnostics_failures_swallowed :
  forall (W : Type) (s : Session W) (url : string) (N t : Z) (st : Run W),
    scrape_with_playwright s url N t st = scrape_with_playwright (quiet s) url N t st
    /\ main s st = main (quiet s) st
    /\ (forall (attempt : Z) (rest : list Z) (last_error : option exn)
               (st1 : Run W) (e : exn),
          attempt_body s url t st = (st1, Raise e) ->
          retryable e = true ->
          exists w : W,
            on_failure s attempt t st1
            = (mkRun w (trace st1 ++ [EvScreenshot (error_snapshot attempt); EvReload])%list,
               Ok tt)
            /\ retry_loop s url t (attempt :: rest) last_error st
               = retry_loop s url t rest (Some e)
                   (mkRun w (trace st1
                             ++ [EvScreenshot (error_snapshot attempt); EvReload])%list)).
Proof.
  intros W s url N t st.
  assert (Hq : forall u n t' st', scrape_with_playwright s u n t' st'
                                  = scrape_with_playwright (quiet s) u n t' st').
  { intros u n t' st'. rewrite !scrape_unfold, <- retry_loop_quiet. reflexivity. }
  split; [apply Hq |]. split.
  - unfold main, bind. rewrite <- Hq.
    destruct (scrape_with_playwright s SEARCH_URL 3 70000 st) as [st' [data | e]];
      reflexivity.
  - intros attempt rest last_error st1 e Hbody R.
    destruct (on_failure_swallows s t attempt st1) as [w Hw].
    exists w. split; [exact Hw |].
    rewrite retry_loop_cons. unfold one_attempt, try_except, bind, ret.
    now rewrite Hbody, R, Hw.
Qed.

Lemma diagnostics_failures_swallowed_witness :
  exists w : nat,
    on_failure dead_session 1 70000 (mkRun 1%nat [EvGoto SEARCH_URL])
    = (mkRun w ([EvGoto SEARCH_URL] ++ [EvScreenshot (error_snapshot 1); EvReload])%list,
       Ok tt)
    /\ retry_loop dead_session SEARCH_URL 70000 [1%Z; 2%Z] None (mkRun 0%nat [])
       = retry_loop dead_session SEARCH_URL 70000 [2%Z]
           (Some (PlaywrightTimeoutError "Timeout #1"))
           (mkRun w ([EvGoto SEARCH_URL]
                     ++ [EvScreenshot (error_snapshot 1); EvReload])%list).
Proof.
  exact (proj2 (proj2 (diagnostics_failures_swallowed nat dead_session SEARCH_URL
                         3 70000 (mkRun 0%nat [])))
           1%Z [2%Z] None (mkRun 1%nat [EvGoto SEARCH_URL])
           (PlaywrightTimeoutError "Timeout #1") eq_refl eq_refl).
Defined.

(** *** Snapshots *)

Lemma waits_no_snapshot (evs : list event) (p : string) :
  forallb is_wait evs = true -> ~ In (EvScreenshot p) evs.
Proof.
  intros H Hin. rewrite forallb_forall in H. specialize (H _ Hin). discriminate H.
Qed.

Section Snapshots.
Context {W : Type} (s : Session W) (url : string) (t : Z).

Lemma attempt_outcome_snapshots (attempt : Z) (st st' : Run W)
    (r : result (list PlaceRecord + exn)) (p : string) :
  attempt_outcome s url t attempt st st' r ->
  In (EvScreenshot p) (trace st') ->
  In (EvScreenshot p) (trace st) \/ p = error_snapshot attempt.
Proof.
  intros H.
  pose proof (attempt_body_outcome s url t st) as B.
  destruct H as [st1 data E | st1 e w E R | st1 e E R];
    rewrite E in B; cbn [fst snd] in B;
    inversion B as [w0 evs Hd Hevs | w0 evs e0 He Hevs];
    subst; cbn [trace]; intros Hin;
    repeat (apply in_app_or in Hin; destruct Hin as [Hin | Hin]);
    try (now left);
    repeat (destruct Hin as [Hin | Hin]; try discriminate Hin);
    try (now apply waits_no_snapshot in Hin);
    try (exfalso; exact Hin).
  - apply in_app_or in Hin. destruct Hin as [Hin | Hin].
    + now apply waits_no_snapshot in Hin.
    + destruct Hin as [Hin | []]. discriminate Hin.
  - right. now injection Hin.
Qed.

Lemma retry_loop_snapshots (l : list Z) (le : option exn) (st : Run W) (p : string) :
  In (EvScreenshot p) (trace (fst (retry_loop s url t l le st))) ->
  In (EvScreenshot p) (trace st) \/ exists k, In k l /\ p = error_snapshot k.
Proof.
  revert le st. induction l as [|a l IH]; intros le st.
  - cbn. now left.
  - rewrite retry_loop_cons.
    pose proof (one_attempt_outcome s url t a st) as O.
    pose proof (attempt_outcome_snapshots a st _ _ p O) as Hs.
    destruct (one_attempt s url t a st) as [st1 [[data | e] | e]];
      cbn [fst snd] in *.
    + intros Hin. destruct (Hs Hin) as [H | H]; [now left |].
      right. exists a. split; [now left | exact H].
    + intros Hin. destruct (IH _ _ Hin) as [H | [k [Hk Hp]]].
      * destruct (Hs H) as [H' | H']; [now left |].
        right. exists a. split; [now left | exact H'].
      * right. exists k. split; [now right | exact Hp].
    + intros Hin. destruct (Hs Hin) as [H | H]; [now left |].
      right. exists a. split; [now left | exact H].
Qed.
End Snapshots.

(** *** The program *)

Lemma main_unfold {W : Type} (s : Session W) (st : Run W) :
  main s st
  = match scrape_with_playwright s SEARCH_URL 3 70000 st with
    | (st1, Ok data) =>
        (mkRun (world st1)
           (trace st1 ++
            [ EvMkdirParents OUT_CSV;
              EvWriteCsv OUT_CSV (fieldnames :: map row_of data);
              EvPrint ("Saved " ++ str_Z (Z.of_nat (List.length data))
                       ++ " records to " ++ OUT_CSV) ])%list,
         Ok tt)
    | (st1, Raise e) => (st1, Raise e)
    end.
Proof.
  unfold main, bind at 1.
  destruct (scrape_with_playwright s SEARCH_URL 3 70000 st) as [st1 [data | e]];
    [| reflexivity].
  unfold save_csv, bind, log. cbn [world trace]. now rewrite <- !app_assoc.
Qed.

Lemma scrape_snapshots {W : Type} (s : Session W) (url : string) (N t : Z) (w : W)
    (p : string) :
  In (EvScreenshot p) (trace (fst (scrape_with_playwright s url N t (start w)))) ->
  exists k, In k (range 1 (N + 1)) /\ p = error_snapshot k.
Proof.
  rewrite scrape_unfold. cbn [start world trace app].
  pose proof (retry_loop_snapshots s url t (range 1 (N + 1)) None
                (mkRun w (setup_events t)) p) as Hs.
  assert (Hsetup : ~ In (EvScreenshot p) (setup_events t)).
  { intros Hin. repeat (destruct Hin as [Hin | Hin]; [discriminate Hin |]). exact Hin. }
  destruct (retry_loop s url t (range 1 (N + 1)) None _) as [st1 [[data | le] | e]];
    cbn [fst trace] in *; intros Hin; apply in_app_or in Hin;
    (destruct Hin as [Hin | Hin];
     [ destruct (Hs Hin) as [H | H]; [contradiction | exact H]
     | exfalso; repeat (destruct Hin as [Hin | Hin]; [discriminate Hin |]); exact Hin ]).
Qed.

(* ================================================================== *)
(** * Part III. Further properties of the program *)
(* ================================================================== *)

(** ** Stripping and splitting, continued *)

Lemma contains_comma_all_chars (s : string) :
  contains "," s = false <-> all_chars not_comma s = true.
Proof.
  induction s as [|c s IH]; [now split |].
  rewrite contains_comma_cons, orb_false_iff. cbn [all_chars].
  rewrite andb_true_iff, <- IH. unfold not_comma. rewrite negb_true_iff. tauto.
Qed.

Lemma strip_no_comma (s : string) :
  contains "," s = false -> contains "," (strip s) = false.
Proof.
  rewrite !contains_comma_all_chars. apply all_chars_strip.
Qed.

Lemma split_pieces_no_comma (s : string) :
  Forall (fun p => contains "," p = false) (split comma s).
Proof.
  induction s as [|c s IH]; simpl.
  - now constructor.
  - destruct (Ascii.eqb c comma) eqn:E.
    + now constructor.
    + destruct (split comma s) as [|h t].
      * constructor; [| constructor].
        now rewrite contains_comma_cons, E.
      * inversion IH as [|? ? Hh Ht]; subst.
        constructor; [| exact Ht]. now rewrite contains_comma_cons, E, Hh.
Qed.

Lemma lstrip_idem (s : string) : lstrip (lstrip s) = lstrip s.
Proof.
  induction s as [|c s IH]; simpl; [reflexivity |].
  destruct (isspace c) eqn:E; [exact IH | simpl; now rewrite E].
Qed.

Lemma rstrip_idem (s : string) : rstrip (rstrip s) = rstrip s.
Proof.
  induction s as [|c s IH]; simpl; [reflexivity |].
  destruct (rstrip s) as [|d r] eqn:E.
  - destruct (isspace c) eqn:Ec; simpl; [reflexivity | now rewrite Ec].
  - change (rstrip (String c (String d r)) = String c (String d r)).
    cbn [rstrip]. cbn [rstrip] in IH. rewrite IH. reflexivity.
Qed.

(** A text that [lstrip] leaves alone starts, if at all, with a
    character that is not white space. *)
Lemma lstrip_fixed_head (c : ascii) (s : string) :
  lstrip (String c s) = String c s -> isspace c = false.
Proof.
  simpl. destruct (isspace c) eqn:E; [| reflexivity].
  intros H. exfalso.
  assert (L : forall u, String.length (lstrip u) <= String.length u).
  { induction u as [|d u IHu]; simpl; [lia |]. destruct (isspace d); simpl; lia. }
  specialize (L s). rewrite H in L. simpl in L. lia.
Qed.

Lemma lstrip_rstrip_fixed (s : string) :
  lstrip s = s -> lstrip (rstrip s) = rstrip s.
Proof.
  destruct s as [|c s]; [reflexivity |].
  intros H. apply lstrip_fixed_head in H. cbn [rstrip].
  destruct (rstrip s) as [|d r].
  - rewrite H. simpl. now rewrite H.
  - simpl. now rewrite H.
Qed.

Lemma strip_idem (s : string) : strip (strip s) = strip s.
Proof.
  unfold strip.
  rewrite (lstrip_rstrip_fixed (lstrip s) (lstrip_idem s)).
  apply rstrip_idem.
Qed.

(** [rstrip] keeps a prefix, and what it drops is blank. *)
Lemma rstrip_prefix (s : string) :
  exists w, s = rstrip s ++ w /\ all_chars isspace w = true.
Proof.
  induction s as [|c s [w [E Hw]]]; simpl.
  - now exists EmptyString.
  - destruct (rstrip s) as [|d r] eqn:Er.
    + destruct (isspace c) eqn:Ec.
      * exists (String c s). simpl. rewrite Ec. simpl in E. subst w.
        now split.
      * exists w. simpl. simpl in E. subst w. now split.
    + exists w. simpl in E |- *. split; [now rewrite <- E | exact Hw].
Qed.

(** What [strip] removes is white space. *)
Lemma strip_frame (s : string) :
  exists w1 w2,
    s = w1 ++ strip s ++ w2
    /\ all_chars isspace w1 = true /\ all_chars isspace w2 = true.
Proof.
  destruct (lstrip_suffix s) as [w1 [E1 H1]].
  destruct (rstrip_prefix (lstrip s)) as [w2 [E2 H2]].
  exists w1, w2. unfold strip. now rewrite <- E2, <- E1.
Qed.

(** ** Label segments, continued *)

(** Every element of the extractor's segment list is a segment: not
    empty, free of commas, trimmed. *)
Lemma label_parts_segments (s : string) : Forall segment (label_parts s).
Proof.
  unfold label_parts. apply Forall_forall. intros p Hin.
  apply in_map_iff in Hin. destruct Hin as [q [<- Hq]].
  apply filter_In in Hq. destruct Hq as [Hq Ht].
  pose proof (split_pieces_no_comma s) as Hc.
  rewrite Forall_forall in Hc. specialize (Hc q Hq).
  repeat split.
  - intros E. rewrite E in Ht. discriminate Ht.
  - now apply strip_no_comma.
  - unfold strip. apply lstrip_rstrip_fixed, lstrip_idem.
  - unfold strip. apply rstrip_idem.
Qed.

Lemma blank_pieces_blank (s : string) :
  Forall (fun p => all_chars isspace p = true) (split comma s) ->
  all_chars comma_or_space s = true.
Proof.
  induction s as [|c s IH]; [reflexivity |].
  cbn [split all_chars]. unfold comma_or_space at 1.
  destruct (Ascii.eqb c comma) eqn:E.
  - intros H. inversion H; subst. now apply IH.
  - destruct (split comma s) as [|h t] eqn:Es.
    + now apply split_nonempty in Es.
    + intros H. inversion H as [|? ? Hh Ht]; subst.
      cbn [all_chars] in Hh. apply andb_true_iff in Hh. destruct Hh as [Hc Hh].
      rewrite Hc. cbn [orb andb]. apply IH. now constructor.
Qed.

(** The segment list is empty exactly for texts made of commas and
    white space. *)
Lemma label_parts_nil_iff (s : string) :
  label_parts s = [] <-> all_chars comma_or_space s = true.
Proof.
  split; [| apply label_parts_blank].
  intros H. apply blank_pieces_blank. unfold label_parts in H.
  apply map_eq_nil in H. apply Forall_forall. intros p Hp.
  destruct (truthy (strip p)) eqn:Ht.
  - assert (Hin : In p (filter (fun p => truthy (strip p)) (split comma s)))
      by (apply filter_In; now split).
    rewrite H in Hin. destruct Hin.
  - apply strip_empty_iff. now destruct (strip p).
Qed.

Lemma all_chars_strip_inv (s : string) :
  all_chars comma_or_space (strip s) = true -> all_chars comma_or_space s = true.
Proof.
  intros H. destruct (strip_frame s) as [w1 [w2 [E [H1 H2]]]].
  rewrite E, !all_chars_app, H.
  now rewrite (all_space_comma_or_space _ H1), (all_space_comma_or_space _ H2).
Qed.

(** ** The card extractor, continued *)

Lemma Forall_last {A : Type} (P : A -> Prop) (l : list A) (d : A) :
  Forall P l -> l <> [] -> P (last l d).
Proof.
  induction l as [|a l IH]; [congruence |].
  intros H _. inversion H as [|? ? Ha Hl]; subst.
  destruct l as [|b l]; [exact Ha |].
  change (P (last (b :: l) d)). apply IH; [exact Hl | discriminate].
Qed.

Lemma Forall_removelast {A : Type} (P : A -> Prop) (l : list A) :
  Forall P l -> Forall P (removelast l).
Proof.
  induction l as [|a l IH]; [trivial |].
  intros H. inversion H as [|? ? Ha Hl]; subst.
  destruct l as [|b l]; [constructor |].
  change (Forall P (a :: removelast (b :: l))). constructor; [exact Ha | now apply IH].
Qed.

Lemma Forall_slice {A : Type} (P : A -> Prop) (l : list A) :
  Forall P l -> Forall P (slice_1_m1 l).
Proof.
  intros H. unfold slice_1_m1. apply Forall_removelast.
  destruct l; [constructor | now inversion H].
Qed.

Lemma join_segments_trimmed (l : list string) :
  Forall segment l -> strip (join ", " l) = join ", " l.
Proof.
  destruct l as [|x l]; [reflexivity | apply strip_join_segments].
Qed.

(** All the fields of a record, read off the card. *)
Lemma parse_card_fields (card : Card) (r : PlaceRecord) :
  parse_card card = Some r ->
  exists el,
    query_selector card "span.name" = Some el
    /\ Name r = hd EmptyString (label_parts (strip (inner_text el)))
    /\ Country r = (if (1 <? List.length (label_parts (strip (inner_text el))))%nat
                    then last (label_parts (strip (inner_text el))) EmptyString
                    else EmptyString)
    /\ Address r = (if (2 <? List.length (label_parts (strip (inner_text el))))%nat
                    then join ", " (slice_1_m1 (label_parts (strip (inner_text el))))
                    else EmptyString)
    /\ Type_ r = match query_selector card "span.type" with
                 | Some type_el => strip (inner_text type_el)
                 | None => EmptyString
                 end
    /\ (Latitude r, Longitude r) = parse_coords (query_selector card "p.coords").
Proof.
  unfold parse_card.
  destruct (query_selector card "span.name") as [el|]; [| discriminate].
  destruct (parse_coords (query_selector card "p.coords")) as [lat lon].
  intros H. injection H as <-. exists el. cbn. repeat split.
Qed.

Lemma parse_coords_trimmed (o : option ElementHandle) :
  strip (fst (parse_coords o)) = fst (parse_coords o)
  /\ strip (snd (parse_coords o)) = snd (parse_coords o)
  /\ contains "," (fst (parse_coords o)) = false.
Proof.
  destruct o as [el|]; [| now repeat split].
  destruct (contains "," (strip (inner_text el))) eqn:E.
  - destruct (parse_coords_comma el E) as [a [b [_ [Ha ->]]]]. cbn [fst snd].
    rewrite !strip_idem. repeat split. now apply strip_no_comma.
  - rewrite (parse_coords_no_comma el E). now repeat split.
Qed.

(** X1: no field of an emitted record has white space at either end;
    name and country, when not empty, are segments of the label (so
    they hold no comma), and the latitude holds no comma. *)
Theorem record_fields_trimmed :
  forall (card : Card) (r : PlaceRecord),
    parse_card card = Some r ->
    (Name r = EmptyString \/ segment (Name r))
    /\ (Country r = EmptyString \/ segment (Country r))
    /\ strip (Name r) = Name r
    /\ strip (Address r) = Address r
    /\ strip (Country r) = Country r
    /\ strip (Type_ r) = Type_ r
    /\ strip (Latitude r) = Latitude r
    /\ strip (Longitude r) = Longitude r
    /\ contains "," (Latitude r) = false.
Proof.
  intros card r Hr.
  destruct (parse_card_fields card r Hr) as [el [_ [Hn [Hc [Ha [Ht Hll]]]]]].
  pose proof (label_parts_segments (strip (inner_text el))) as Hseg.
  set (parts := label_parts (strip (inner_text el))) in *.
  assert (HN : Name r = EmptyString \/ segment (Name r)).
  { rewrite Hn. destruct parts as [|x l]; [now left |]. right. now inversion Hseg. }
  assert (HC : Country r = EmptyString \/ segment (Country r)).
  { rewrite Hc. destruct (1 <? List.length parts)%nat; [| now left].
    destruct parts as [|x l]; [now left |]. right.
    apply Forall_last; [exact Hseg | discriminate]. }
  pose proof (parse_coords_trimmed (query_selector card "p.coords")) as [Hlat [Hlon Hcm]].
  rewrite <- Hll in Hlat, Hlon, Hcm. cbn [fst snd] in Hlat, Hlon, Hcm.
  split; [exact HN |]. split; [exact HC |].
  repeat split; try assumption.
  - destruct HN as [-> | H]; [reflexivity | now apply segment_strip].
  - rewrite Ha. destruct (2 <? List.length parts)%nat; [| reflexivity].
    apply join_segments_trimmed, Forall_slice, Hseg.
  - destruct HC as [-> | H]; [reflexivity | now apply segment_strip].
  - rewrite Ht. destruct (query_selector card "span.type"); [apply strip_idem | reflexivity].
Qed.

Lemma record_fields_trimmed_witness :
  strip (Address sample_record) = Address sample_record
  /\ contains "," (Latitude sample_record) = false.
Proof.
  pose proof (record_fields_trimmed sample_card sample_record eq_refl) as H.
  split; [exact (proj1 (proj2 (proj2 (proj2 H)))) |].
  exact (proj2 (proj2 (proj2 (proj2 (proj2 (proj2 (proj2 (proj2 H)))))))).
Defined.

(** X2: the name of a record is empty exactly when the label holds
    nothing but commas and white space; a record with a country has a
    name, and a record with an address has a country. *)
Theorem record_fields_depend :
  forall (card : Card) (el : ElementHandle) (r : PlaceRecord),
    query_selector card "span.name" = Some el ->
    parse_card card = Some r ->
    (Name r = EmptyString <-> all_chars comma_or_space (inner_text el) = true)
    /\ (Country r <> EmptyString -> Name r <> EmptyString)
    /\ (Address r <> EmptyString -> Country r <> EmptyString).
Proof.
  intros card el r Hel Hr.
  destruct (parse_card_fields card r Hr) as [el' [Hel' [Hn [Hc [Ha _]]]]].
  rewrite Hel in Hel'. injection Hel' as <-.
  pose proof (label_parts_segments (strip (inner_text el))) as Hseg.
  pose proof (label_parts_nil_iff (strip (inner_text el))) as Hnil.
  set (parts := label_parts (strip (inner_text el))) in *.
  assert (Hname : Name r = EmptyString <-> parts = []).
  { rewrite Hn. destruct parts as [|x l]; [now split |].
    inversion Hseg as [|? ? [Hx _] _]; subst. split; [| discriminate].
    intros E. now apply Hx in E. }
  split; [| split].
  - rewrite Hname, Hnil. split; [apply all_chars_strip_inv | apply all_chars_strip].
  - intros HC HN. apply Hname in HN. rewrite HN in Hc. now apply HC.
  - intros HA HC. rewrite Ha in HA.
    destruct (2 <? List.length parts)%nat eqn:L; [| now apply HA].
    apply Nat.ltb_lt in L. rewrite Hc in HC.
    assert (L1 : (1 <? List.length parts)%nat = true) by (apply Nat.ltb_lt; lia).
    rewrite L1 in HC.
    assert (Hne : parts <> []) by (intros E; rewrite E in L; simpl in L; lia).
    destruct (Forall_last segment parts EmptyString Hseg Hne) as [Hl _].
    now apply Hl.
Qed.

Lemma record_fields_depend_witness :
  Name sample_record = EmptyString
  <-> all_chars comma_or_space "Workshop, 12 Main St, Ottawa, Canada" = true.
Proof.
  exact (proj1 (record_fields_depend sample_card
                  (mkElement "Workshop, 12 Main St, Ottawa, Canada")
                  sample_record eq_refl eq_refl)).
Defined.

Lemma string_app_assoc (a b c : string) : (a ++ b) ++ c = a ++ b ++ c.
Proof. induction a as [|x a IH]; simpl; [reflexivity | now rewrite IH]. Qed.

Lemma join_app (sep : string) (a b : list string) :
  a <> [] -> b <> [] ->
  join sep (a ++ b)%list = join sep a ++ sep ++ join sep b.
Proof.
  intros Ha Hb. induction a as [|x a IH]; [congruence |].
  destruct a as [|y a].
  - destruct b as [|z b]; [congruence | reflexivity].
  - change (join sep ((x :: y :: a) ++ b)%list)
      with (x ++ sep ++ join sep ((y :: a) ++ b)%list).
    rewrite IH by discriminate.
    change (join sep (x :: y :: a)) with (x ++ sep ++ join sep (y :: a)).
    now rewrite !string_app_assoc.
Qed.

(** The positional rule on a list with a first and a last element. *)
Lemma positional_list (x y : string) (mid : list string) :
  hd EmptyString (x :: mid ++ [y])%list = x
  /\ (if (1 <? List.length (x :: mid ++ [y])%list)%nat
      then last (x :: mid ++ [y])%list EmptyString else EmptyString) = y
  /\ (if (2 <? List.length (x :: mid ++ [y])%list)%nat
      then join ", " (slice_1_m1 (x :: mid ++ [y])%list) else EmptyString)
     = join ", " mid.
Proof.
  assert (L : List.length (x :: mid ++ [y])%list = (2 + List.length mid)%nat)
    by (cbn [List.length]; rewrite length_app; simpl; lia).
  rewrite L. split; [reflexivity |]. split.
  - cbn [Nat.ltb Nat.leb Nat.add].
    change (x :: mid ++ [y])%list with ((x :: mid) ++ [y])%list.
    apply last_last.
  - unfold slice_1_m1. cbn [tl]. rewrite removelast_last.
    destruct mid; reflexivity.
Qed.

(** X3: the positional rule for any number of segments, two or more:
    the name is the first segment, the country the last, and the
    address the segments between them joined by ", " (empty when there
    are none). *)
Theorem parse_card_positional :
  forall (card : Card) (el : ElementHandle) (r : PlaceRecord)
         (first last_ : string) (middle : list string),
    query_selector card "span.name" = Some el ->
    parse_card card = Some r ->
    label_parts (strip (inner_text el)) = (first :: middle ++ [last_])%list ->
    Name r = first /\ Address r = join ", " middle /\ Country r = last_.
Proof.
  intros card el r x y mid Hel Hr Hp.
  destruct (parse_card_fields card r Hr) as [el' [Hel' [Hn [Hc [Ha _]]]]].
  rewrite Hel in Hel'. injection Hel' as <-.
  rewrite Hp in Hn, Hc, Ha.
  destruct (positional_list x y mid) as [Ln [Lc La]].
  rewrite Ln in Hn. rewrite Lc in Hc. rewrite La in Ha. now repeat split.
Qed.

Lemma parse_card_positional_witness :
  Name (mkPlace "A" EmptyString "B" EmptyString EmptyString EmptyString) = "A"
  /\ Address (mkPlace "A" EmptyString "B" EmptyString EmptyString EmptyString)
     = join ", " []
  /\ Country (mkPlace "A" EmptyString "B" EmptyString EmptyString EmptyString) = "B".
Proof.
  exact (parse_card_positional (card_of (Some "A,B") None None) (mkElement "A,B")
           (mkPlace "A" EmptyString "B" EmptyString EmptyString EmptyString)
           "A" "B" [] eq_refl eq_refl eq_refl).
Defined.

Lemma join_cons (sep x : string) (l : list string) :
  l <> [] -> join sep (x :: l) = x ++ sep ++ join sep l.
Proof. destruct l; [congruence | reflexivity]. Qed.

(** The three label fields of a record, written back as a label, are
    the segments of the card's label joined by ", ". *)
Lemma canonical_label_join (card : Card) (el : ElementHandle) (r : PlaceRecord) :
  query_selector card "span.name" = Some el ->
  parse_card card = Some r ->
  canonical_label r = join ", " (label_parts (strip (inner_text el))).
Proof.
  intros Hel Hr.
  pose proof (label_parts_segments (strip (inner_text el))) as Hseg.
  destruct (label_parts (strip (inner_text el))) as [|x l] eqn:Hp.
  - destruct (parse_card_fields card r Hr) as [el' [Hel' [Hn [Hc [Ha _]]]]].
    rewrite Hel in Hel'. injection Hel' as <-. rewrite Hp in Hn, Hc, Ha.
    unfold canonical_label. cbn in Hn, Hc, Ha. now rewrite Hn, Hc, Ha.
  - destruct l as [|z l].
    + destruct (parse_card_fields card r Hr) as [el' [Hel' [Hn [Hc [Ha _]]]]].
      rewrite Hel in Hel'. injection Hel' as <-. rewrite Hp in Hn, Hc, Ha.
      unfold canonical_label. cbn in Hn, Hc, Ha. rewrite Hn, Hc, Ha.
      assert (Hx : segment x) by now inversion Hseg.
      cbn [filter]. now rewrite (segment_truthy x Hx).
    + destruct (@exists_last _ (z :: l)) as [mid [y E]]; [discriminate |].
      rewrite E in Hp, Hseg.
      destruct (parse_card_fields card r Hr) as [el' [Hel' [Hn [Hc [Ha _]]]]].
      rewrite Hel in Hel'. injection Hel' as <-. rewrite Hp in Hn, Hc, Ha.
      destruct (positional_list x y mid) as [Ln [Lc La]].
      rewrite Ln in Hn. rewrite Lc in Hc. rewrite La in Ha.
      assert (Hx : segment x) by now inversion Hseg.
      assert (Hrest : Forall segment (mid ++ [y])%list) by now inversion Hseg.
      apply Forall_app in Hrest. destruct Hrest as [Hmid Hy].
      assert (Hy' : segment y) by now inversion Hy.
      unfold canonical_label. rewrite Hn, Ha, Hc. cbn [filter].
      rewrite (segment_truthy x Hx), (segment_truthy y Hy').
      rewrite E. rewrite (join_cons ", " x (mid ++ [y])%list) by (destruct mid; simpl; discriminate).
      destruct mid as [|m mid].
      * reflexivity.
      * assert (Hm : segment m) by now inversion Hmid.
        pose proof (join_segments_nonempty m mid Hm) as Hne.
        destruct (join ", " (m :: mid)) as [|c j] eqn:J; [congruence |].
        cbn [truthy]. rewrite <- J.
        rewrite (join_app ", " (m :: mid) [y]) by discriminate.
        reflexivity.
Qed.

(** X4: written back as a label and extracted again, the name, address
    and country of a record come out unchanged: the written-back label
    has the same segment list as the card's label, and any card that
    carries it yields the same three fields. *)
Theorem canonical_label_roundtrip :
  forall (card : Card) (el : ElementHandle) (r : PlaceRecord),
    query_selector card "span.name" = Some el ->
    parse_card card = Some r ->
    label_parts (strip (canonical_label r)) = label_parts (strip (inner_text el))
    /\ forall (card' : Card) (r' : PlaceRecord),
         query_selector card' "span.name" = Some (mkElement (canonical_label r)) ->
         parse_card card' = Some r' ->
         Name r' = Name r /\ Address r' = Address r /\ Country r' = Country r.
Proof.
  intros card el r Hel Hr.
  assert (Hparts : label_parts (strip (canonical_label r))
                   = label_parts (strip (inner_text el))).
  { rewrite (canonical_label_join card el r Hel Hr).
    pose proof (label_parts_segments (strip (inner_text el))) as Hseg.
    destruct (label_parts (strip (inner_text el))) as [|x l]; [reflexivity |].
    now apply label_parts_join_segments. }
  split; [exact Hparts |].
  intros card' r' Hel' Hr'.
  destruct (parse_card_fields card r Hr) as [e1 [H1 [Hn [Hc [Ha _]]]]].
  rewrite Hel in H1. injection H1 as <-.
  destruct (parse_card_fields card' r' Hr') as [e2 [H2 [Hn' [Hc' [Ha' _]]]]].
  rewrite Hel' in H2. injection H2 as <-. cbn [inner_text] in Hn', Hc', Ha'.
  rewrite Hparts in Hn', Hc', Ha'.
  now rewrite Hn, Hc, Ha, Hn', Hc', Ha'.
Qed.

Lemma canonical_label_roundtrip_witness :
  label_parts (strip (canonical_label
                        (mkPlace "A" "B, C" "D" EmptyString EmptyString EmptyString)))
  = label_parts (strip " A ,, B , C,D, ").
Proof.
  exact (proj1 (canonical_label_roundtrip
                  (card_of (Some " A ,, B , C,D, ") None None)
                  (mkElement " A ,, B , C,D, ")
                  (mkPlace "A" "B, C" "D" EmptyString EmptyString EmptyString)
                  eq_refl eq_refl)).
Defined.

(** X5: the records of a card list made of two lists one after the
    other are the records of the first followed by the records of the
    second: each card is extracted on its own and the order is that of
    the cards. *)
Theorem parse_cards_concat :
  forall (page page1 page2 : Dom),
    query_selector_all page LISTITEM
    = (query_selector_all page1 LISTITEM ++ query_selector_all page2 LISTITEM)%list ->
    parse_cards page = (parse_cards page1 ++ parse_cards page2)%list.
Proof.
  intros page page1 page2 H.
  rewrite !parse_cards_emitted, H. apply flat_map_app.
Qed.

Lemma parse_cards_concat_witness :
  parse_cards (dom_of [card_of (Some "A") None None; sample_card])
  = (parse_cards (dom_of [card_of (Some "A") None None])
     ++ parse_cards (dom_of [sample_card]))%list.
Proof.
  exact (parse_cards_concat
           (dom_of [card_of (Some "A") None None; sample_card])
           (dom_of [card_of (Some "A") None None])
           (dom_of [sample_card]) eq_refl).
Defined.

(** ** The resource filter, continued *)

Lemma is_substring_trans (a b c : string) :
  is_substring a b -> is_substring b c -> is_substring a c.
Proof.
  intros [p1 [q1 ->]] [p2 [q2 ->]].
  exists (p2 ++ p1), (q1 ++ q2). now rewrite !string_app_assoc.
Qed.

(** X6: a URL that contains a blocked URL is blocked: whatever is put
    before or after a URL the filter blocks (a scheme, a path, a query
    string), the request is still aborted, whatever its category. *)
Theorem should_block_extends :
  forall (url before after ty : string),
    should_block url = true ->
    should_block (before ++ url ++ after) = true
    /\ route_handler (mkRequest (before ++ url ++ after) ty) = Abort.
Proof.
  intros url before after ty H.
  assert (Hb : should_block (before ++ url ++ after) = true).
  { apply should_block_spec in H. destruct H as [h [Hin Hsub]].
    apply should_block_spec. exists h. split; [exact Hin |].
    apply (is_substring_trans h url); [exact Hsub | now exists before, after]. }
  split; [exact Hb |].
  unfold route_handler. cbn [req_url]. now rewrite Hb, orb_true_r.
Qed.

Lemma should_block_extends_witness :
  should_block ("https://a." ++ "tile.openstreetmap.org" ++ "/7/37/45.png") = true
  /\ route_handler (mkRequest ("https://a." ++ "tile.openstreetmap.org" ++ "/7/37/45.png")
                              "xhr") = Abort.
Proof.
  exact (should_block_extends "tile.openstreetmap.org" "https://a." "/7/37/45.png" "xhr"
           eq_refl).
Defined.

(** X7: the pattern "basemaps.cartocdn.com" never decides: every URL
    it matches is matched by "cartocdn.com" as well, so the filter
    with the six other patterns blocks exactly the same URLs. *)
Theorem should_block_reduced :
  forall url : string,
    should_block url = existsb (fun h => contains h url) BLOCK_HOST_PATTERNS_reduced.
Proof.
  intros url. unfold should_block, BLOCK_HOST_PATTERNS, BLOCK_HOST_PATTERNS_reduced.
  cbn [existsb].
  destruct (contains "basemaps.cartocdn.com" url) eqn:E; [| reflexivity].
  assert (H : contains "cartocdn.com" url = true).
  { apply contains_spec. apply contains_spec in E. destruct E as [pre [post ->]].
    exists (pre ++ "basemaps."), post. now rewrite string_app_assoc. }
  rewrite H. cbn [orb]. now rewrite !orb_true_r.
Qed.

(** ** The acquisition controller, continued *)

(** *** Snapshot paths *)

Lemma string_app_length (a b : string) :
  String.length (a ++ b) = (String.length a + String.length b)%nat.
Proof. induction a as [|c a IH]; simpl; [reflexivity | now rewrite IH]. Qed.

Lemma string_app_inv_tail (a b t : string) : a ++ t = b ++ t -> a = b.
Proof.
  revert b. induction a as [|c a IH]; intros [|d b] H.
  - reflexivity.
  - exfalso. apply (f_equal String.length) in H.
    simpl in H. rewrite string_app_length in H. lia.
  - exfalso. apply (f_equal String.length) in H.
    simpl in H. rewrite string_app_length in H. lia.
  - simpl in H. injection H as -> H. f_equal. now apply IH.
Qed.

(** [str] of an integer determines the integer. *)
Lemma str_Z_inj (a b : Z) : str_Z a = str_Z b -> a = b.
Proof.
  unfold str_Z. intros H.
  assert (Hnil : forall z, Z.to_int z <> Decimal.Pos Decimal.Nil
                           /\ Z.to_int z <> Decimal.Neg Decimal.Nil).
  { intros [|p|p]; split; try discriminate; intros E; injection E as E;
      now apply Unsigned.to_uint_nonnil in E. }
  apply (f_equal NilZero.int_of_string) in H.
  rewrite !NilZero.isi in H by apply Hnil.
  injection H as H. now apply DecimalZ.to_int_inj.
Qed.

Lemma error_snapshot_inj (a b : Z) : error_snapshot a = error_snapshot b -> a = b.
Proof.
  unfold error_snapshot. intros H.
  apply str_Z_inj, (string_app_inv_tail _ _ ".png").
  cbn in H. now repeat injection H as H.
Qed.

Lemma error_snapshot_not_output (k : Z) : error_snapshot k <> OUT_CSV.
Proof. unfold error_snapshot, OUT_CSV. cbn. discriminate. Qed.

Lemma NoDup_map_injective {A B : Type} (f : A -> B) (l : list A) :
  (forall x y, f x = f y -> x = y) -> NoDup l -> NoDup (map f l).
Proof.
  intros Hf H. induction H as [|x l Hx Hl IH]; simpl; constructor; [| exact IH].
  intros Hin. apply in_map_iff in Hin. destruct Hin as [y [E Hy]].
  apply Hf in E. now subst.
Qed.

Lemma range_In (lo hi k : Z) : In k (range lo hi) <-> (lo <= k < hi)%Z.
Proof.
  unfold range. rewrite in_map_iff. split.
  - intros [i [<- Hi]]. apply in_seq in Hi. lia.
  - intros H. exists (Z.to_nat (k - lo)). split; [lia |]. apply in_seq. lia.
Qed.

Lemma range_NoDup (lo hi : Z) : NoDup (range lo hi).
Proof.
  unfold range. apply NoDup_map_injective; [intros x y; lia | apply seq_NoDup].
Qed.

Lemma snapshots_app (a b : list event) :
  snapshots (a ++ b)%list = (snapshots a ++ snapshots b)%list.
Proof. apply flat_map_app. Qed.

Lemma snapshots_waits (evs : list event) :
  forallb is_wait evs = true -> snapshots evs = [].
Proof.
  induction evs as [|ev evs IH]; [reflexivity |]. cbn [forallb].
  rewrite andb_true_iff. intros [H Hevs].
  destruct ev; try discriminate H; exact (IH Hevs).
Qed.


Lemma waits_no_reload (ev : event) : is_wait ev = true -> is_reload ev = false.
Proof. now destruct ev. Qed.

Section Accounting.
Context {W : Type} (s : Session W) (url : string) (t : Z).

(** What an iteration adds to the trace, by kind: one navigation, and
    one snapshot and one reload exactly when the handler ran. *)
Lemma attempt_outcome_diag (attempt : Z) (st st' : Run W)
    (r : result (list PlaceRecord + exn)) :
  attempt_outcome s url t attempt st st' r ->
  exists evs,
    trace st' = (trace st ++ evs)%list
    /\ count_events is_goto evs = 1%nat
    /\ match r with
       | Ok (inr _) =>
           snapshots evs = [error_snapshot attempt]
           /\ count_events is_reload evs = 1%nat
       | _ => snapshots evs = [] /\ count_events is_reload evs = 0%nat
       end.
Proof.
  intros H.
  pose proof (attempt_body_outcome s url t st) as B.
  destruct H as [st1 data E | st1 e w E R | st1 e E R];
    rewrite E in B; cbn [fst snd] in B;
    inversion B as [w0 evs Hd Hevs | w0 evs e0 He Hevs];
    subst; cbn [trace].
  - exists ([EvGoto url] ++ evs ++ [EvClose])%list.
    split; [reflexivity |].
    rewrite !count_events_app, !snapshots_app, (snapshots_waits _ Hevs),
      (count_events_none _ _ _ waits_no_goto Hevs),
      (count_events_none _ _ _ waits_no_reload Hevs).
    now repeat split.
  - exists ([EvGoto url] ++ evs
            ++ [EvScreenshot (error_snapshot attempt); EvReload])%list.
    split; [now rewrite <- app_assoc |].
    rewrite !count_events_app, !snapshots_app, (snapshots_waits _ Hevs),
      (count_events_none _ _ _ waits_no_goto Hevs),
      (count_events_none _ _ _ waits_no_reload Hevs).
    now repeat split.
  - exists ([EvGoto url] ++ evs)%list.
    split; [reflexivity |].
    rewrite !count_events_app, !snapshots_app, (snapshots_waits _ Hevs),
      (count_events_none _ _ _ waits_no_goto Hevs),
      (count_events_none _ _ _ waits_no_reload Hevs).
    now repeat split.
Qed.

(** The loop, by kind of event: the attempts that failed and were
    retried are a prefix of the attempt numbers; each left its snapshot
    and one reload, and the navigations are theirs plus, unless the
    attempts ran out, the one of the attempt that ended the loop. *)
Lemma retry_loop_diag (l : list Z) (le : option exn) (st : Run W) :
  exists (failed rest : list Z) (evs : list event),
    l = (failed ++ rest)%list
    /\ trace (fst (retry_loop s url t l le st)) = (trace st ++ evs)%list
    /\ snapshots evs = map error_snapshot failed
    /\ count_events is_reload evs = List.length failed
    /\ match snd (retry_loop s url t l le st) with
       | Ok (inr _) => rest = [] /\ count_events is_goto evs = List.length failed
       | _ => rest <> [] /\ count_events is_goto evs = S (List.length failed)
       end.
Proof.
  revert le st. induction l as [|a l IH]; intros le st.
  - exists [], [], []. cbn. rewrite app_nil_r. now repeat split.
  - rewrite retry_loop_cons.
    pose proof (one_attempt_outcome s url t a st) as O.
    apply attempt_outcome_diag in O. destruct O as [evs [Ht [Hg Hr]]].
    destruct (one_attempt s url t a st) as [st1 [[data | e] | e]];
      cbn [fst snd] in *.
    + exists [], (a :: l), evs. destruct Hr as [Hs Hrl].
      repeat split; try assumption. discriminate.
    + destruct (IH (Some e) st1) as [failed [rest [evs' [El [Ht' [Hs' [Hrl' Hr']]]]]]].
      destruct Hr as [Hs Hrl].
      exists (a :: failed), rest, (evs ++ evs')%list.
      split; [now rewrite El |].
      split; [now rewrite Ht', Ht, app_assoc |].
      split; [now rewrite snapshots_app, Hs, Hs' |].
      split; [rewrite count_events_app, Hrl, Hrl'; reflexivity |].
      rewrite count_events_app, Hg.
      destruct (snd (retry_loop s url t l (Some e) st1)) as [[data | le'] | e'];
        destruct Hr' as [Hrest Hg']; rewrite Hg'; now split.
    + exists [], (a :: l), evs. destruct Hr as [Hs Hrl].
      repeat split; try assumption. discriminate.
Qed.

(** The records an attempt returns are those of the page in the world
    in which the browser is then closed. *)
Lemma retry_loop_returned (l : list Z) (le : option exn) (st st' : Run W)
    (data : list PlaceRecord) :
  retry_loop s url t l le st = (st', Ok (inl data)) ->
  exists w, world st' = close s w /\ data = parse_cards (dom s w).
Proof.
  revert le st. induction l as [|a l IH]; intros le st; [discriminate |].
  rewrite retry_loop_cons.
  pose proof (one_attempt_outcome s url t a st) as O.
  destruct (one_attempt s url t a st) as [st1 [[d | e] | e]]; cbn [fst snd] in O.
  - intros H. injection H as <- <-.
    inversion O as [st2 d2 E | |]; subst.
    pose proof (attempt_body_outcome s url t st) as B.
    rewrite E in B. cbn [fst snd] in B.
    inversion B as [w0 evs Hd Hevs |]; subst. now exists w0.
  - apply IH.
  - discriminate.
Qed.
End Accounting.

(** The run of an acquisition, by kind of event. *)
Lemma scrape_diag {W : Type} (s : Session W) (url : string) (N t : Z) (w : W) :
  exists failed rest : list Z,
    range 1 (N + 1) = (failed ++ rest)%list
    /\ snapshots (trace (fst (scrape_with_playwright s url N t (start w))))
       = map error_snapshot failed
    /\ count_events is_reload (trace (fst (scrape_with_playwright s url N t (start w))))
       = List.length failed
    /\ (count_events is_goto (trace (fst (scrape_with_playwright s url N t (start w))))
        = List.length failed
        \/ (rest <> []
            /\ count_events is_goto
                 (trace (fst (scrape_with_playwright s url N t (start w))))
               = S (List.length failed))).
Proof.
  rewrite scrape_unfold. cbn [start world trace app].
  destruct (retry_loop_diag s url t (range 1 (N + 1)) None (mkRun w (setup_events t)))
    as [failed [rest [evs [El [Ht [Hs [Hrl Hr]]]]]]].
  cbn [trace] in Ht.
  exists failed, rest. split; [exact El |].
  destruct (retry_loop s url t (range 1 (N + 1)) None _) as [st1 [[data | le] | e]];
    cbn [fst snd trace] in *; rewrite Ht;
    rewrite !snapshots_app, !count_events_app, Hs, Hrl;
    destruct Hr as [Hrest Hg]; rewrite Hg;
    (split; [cbn; now rewrite app_nil_r |]); (split; [cbn; lia |]).
  - right. split; [exact Hrest | cbn; lia].
  - left. cbn. lia.
  - right. split; [exact Hrest | cbn; lia].
Qed.

(** X8: with a retry count of zero or less no attempt is made: the
    browser is set up and closed without a single navigation, and the
    run fails with "Failed after N attempts: None". *)
Theorem no_retries_no_navigation :
  forall (W : Type) (s : Session W) (url : string) (N t : Z) (w : W),
    (N <= 0)%Z ->
    scrape_with_playwright s url N t (start w)
    = (mkRun (close s w) (setup_events t ++ [EvClose; EvStop])%list,
       Raise (RuntimeError ("Failed after " ++ str_Z N ++ " attempts: None"))).
Proof.
  intros W s url N t w HN. rewrite scrape_unfold.
  assert (E : range 1 (N + 1) = []).
  { unfold range. now replace (Z.to_nat (N + 1 - 1)) with 0%nat by lia. }
  rewrite E. reflexivity.
Qed.

Lemma no_retries_no_navigation_witness :
  scrape_with_playwright ready_session SEARCH_URL 0 70000 (start tt)
  = (mkRun tt (setup_events 70000 ++ [EvClose; EvStop])%list,
     Raise (RuntimeError ("Failed after " ++ str_Z 0 ++ " attempts: None"))).
Proof.
  refine (no_retries_no_navigation unit ready_session SEARCH_URL 0 70000 tt _). lia.
Defined.

Lemma attempt_body_first_try {W : Type} (s : Session W) (url : string) (t : Z)
    (w0 w1 w2 w3 w4 : W) (tr : list event) (data : list PlaceRecord) :
  goto s url "domcontentloaded" t w0 = (w1, None) ->
  wait_for_selector s "#searchresults" "attached" t w1 = (w2, None) ->
  wait_for_selector s LISTITEM "visible" t w2 = (w3, None) ->
  wait_for_timeout s 500 w3 = (w4, None) ->
  parse_cards (dom s w4) = data ->
  data <> [] ->
  attempt_body s url t (mkRun w0 tr)
  = (mkRun (close s w4) (tr ++ first_try_events url)%list, Ok data).
Proof.
  intros H1 H2 H3 H4 P1 Hne.
  unfold attempt_body, bind, page_goto, page_wait_for_selector,
    page_wait_for_timeout, page_parse_cards, browser_close, call, ret, raise,
    DEBUG_HEADED.
  cbn [world trace]. rewrite H1. cbn [world trace]. rewrite H2. cbn [world trace].
  rewrite H3. cbn [world trace]. rewrite H4. cbn [world trace].
  rewrite P1. destruct data as [|r0 d0]; [congruence |].
  cbn [nonempty world trace]. unfold first_try_events.
  now repeat rewrite <- app_assoc.
Qed.

(** X9: when the first extraction of the first attempt finds records
    they are returned at once: after the navigation, the two waits for
    selectors and the settle delay the browser is closed; there is no
    grace delay, no snapshot and no reload. *)
Theorem first_extraction_returns :
  forall (W : Type) (s : Session W) (url : string) (N t : Z)
         (w0 w1 w2 w3 w4 : W) (data : list PlaceRecord),
    (1 <= N)%Z ->
    goto s url "domcontentloaded" t w0 = (w1, None) ->
    wait_for_selector s "#searchresults" "attached" t w1 = (w2, None) ->
    wait_for_selector s LISTITEM "visible" t w2 = (w3, None) ->
    wait_for_timeout s 500 w3 = (w4, None) ->
    parse_cards (dom s w4) = data ->
    data <> [] ->
    scrape_with_playwright s url N t (start w0)
    = (mkRun (close s w4) (setup_events t ++ first_try_events url ++ [EvStop])%list,
       Ok data).
Proof.
  intros W s url N t w0 w1 w2 w3 w4 data HN H1 H2 H3 H4 P1 Hne.
  rewrite scrape_unfold, (range_first 1 (N + 1)) by lia.
  rewrite retry_loop_cons. unfold one_attempt, try_except, bind at 1.
  cbn [start world trace app].
  rewrite (attempt_body_first_try s url t w0 w1 w2 w3 w4 _ data H1 H2 H3 H4 P1 Hne).
  unfold ret. cbn [world trace]. now rewrite <- !app_assoc.
Qed.

Lemma first_extraction_returns_witness :
  scrape_with_playwright ready_session SEARCH_URL 3 70000 (start tt)
  = (mkRun tt (setup_events 70000 ++ first_try_events SEARCH_URL ++ [EvStop])%list,
     Ok [sample_record]).
Proof.
  refine (first_extraction_returns unit ready_session SEARCH_URL 3 70000
            tt tt tt tt tt [sample_record] _ eq_refl eq_refl eq_refl eq_refl eq_refl _).
  - lia.
  - discriminate.
Defined.


(** X11: the snapshots of a run are those of its failed attempts, in
    order, a first part of the attempts 1 to N; no two of them have the
    same path, so none overwrites another, and none has the path of
    the output file. *)
Theorem snapshots_distinct :
  forall (W : Type) (s : Session W) (url : string) (N t : Z) (w : W),
    (exists failed rest : list Z,
       range 1 (N + 1) = (failed ++ rest)%list
       /\ snapshots (trace (fst (scrape_with_playwright s url N t (start w))))
          = map error_snapshot failed)
    /\ NoDup (snapshots (trace (fst (scrape_with_playwright s url N t (start w)))))
    /\ Forall (fun p => p <> OUT_CSV
                        /\ exists k, (1 <= k <= N)%Z /\ p = error_snapshot k)
              (snapshots (trace (fst (scrape_with_playwright s url N t (start w))))).
Proof.
  intros W s url N t w.
  destruct (scrape_diag s url N t w) as [failed [rest [El [Hs _]]]].
  split; [now exists failed, rest |]. rewrite Hs. split.
  - apply NoDup_map_injective; [exact error_snapshot_inj |].
    pose proof (range_NoDup 1 (N + 1)) as Hnd. rewrite El in Hnd.
    now apply NoDup_app_remove_r in Hnd.
  - apply Forall_forall. intros p Hin. apply in_map_iff in Hin.
    destruct Hin as [k [<- Hk]]. split; [apply error_snapshot_not_output |].
    exists k. split; [| reflexivity].
    assert (Hr : In k (range 1 (N + 1))) by (rewrite El; apply in_or_app; now left).
    apply range_In in Hr. lia.
Qed.

(** X13: the records an acquisition returns are never an empty list,
    and they are the records of the page as it is in the world in which
    the browser is closed: nothing happens to the page between the
    extraction that succeeded and the close. *)
Theorem scrape_returns_page_records :
  forall (W : Type) (s : Session W) (url : string) (N t : Z) (w : W)
         (st : Run W) (data : list PlaceRecord),
    scrape_with_playwright s url N t (start w) = (st, Ok data) ->
    data <> []
    /\ exists w', world st = close s w' /\ data = parse_cards (dom s w').
Proof.
  intros W s url N t w st data Hrun.
  destruct (scrape_outcome s url N t (start w)) as [evs [_ [_ Hr]]].
  rewrite Hrun in Hr. cbn [snd] in Hr. split; [now destruct Hr |].
  rewrite scrape_unfold in Hrun.
  destruct (retry_loop s url t (range 1 (N + 1)) None _) as [st1 [[d | le] | e]] eqn:E;
    try discriminate Hrun.
  injection Hrun as <- <-. cbn [world].
  exact (retry_loop_returned s url t _ _ _ _ _ E).
Qed.

Lemma scrape_returns_page_records_witness :
  [sample_record] <> []
  /\ exists w', world (mkRun 2%nat (setup_events 70000 ++ grace_events SEARCH_URL
                                                      ++ [EvStop])%list)
                = close late_session w'
                /\ [sample_record] = parse_cards (dom late_session w').
Proof.
  exact (scrape_returns_page_records nat late_session SEARCH_URL 3 70000 0%nat
           _ _ eq_refl).
Defined.

(** ** White space, continued *)

Lemma space_not_comma (c : ascii) : isspace c = true -> Ascii.eqb c comma = false.
Proof.
  intros H. destruct (Ascii.eqb c comma) eqn:E; [| reflexivity].
  apply Ascii.eqb_eq in E. subst c. discriminate H.
Qed.

Lemma lstrip_app_nonspace (a b : string) (c : ascii) :
  isspace c = false -> lstrip (a ++ String c b) = lstrip a ++ String c b.
Proof.
  intros Hc. induction a as [|d a IH]; simpl.
  - now rewrite Hc.
  - destruct (isspace d); [exact IH | reflexivity].
Qed.

Lemma rstrip_cons_nonspace (c : ascii) (b : string) :
  isspace c = false -> rstrip (String c b) = String c (rstrip b).
Proof. intros Hc. simpl. destruct (rstrip b); [now rewrite Hc | reflexivity]. Qed.

(** Stripping stops at a comma on either side. *)
Lemma strip_around_comma (a b : string) :
  strip (a ++ String comma b) = lstrip a ++ String comma (rstrip b).
Proof.
  unfold strip. rewrite (lstrip_app_nonspace a b comma eq_refl).
  rewrite rstrip_app_nonempty; rewrite (rstrip_cons_nonspace comma b eq_refl);
    [reflexivity | discriminate].
Qed.

Lemma lstrip_rstrip_comm (s : string) : lstrip (rstrip s) = rstrip (lstrip s).
Proof.
  induction s as [|c s IH]; [reflexivity |].
  destruct (isspace c) eqn:Ec.
  - cbn [lstrip rstrip]. rewrite Ec.
    destruct (rstrip s) as [|d r] eqn:Er.
    + apply rstrip_empty_inv in Er.
      now rewrite (lstrip_all_space s Er).
    + rewrite <- IH. cbn [lstrip]. now rewrite Ec.
  - rewrite (rstrip_cons_nonspace c s Ec). cbn [lstrip]. rewrite Ec.
    now rewrite (rstrip_cons_nonspace c s Ec).
Qed.

Lemma strip_lstrip (s : string) : strip (lstrip s) = strip s.
Proof. unfold strip. now rewrite lstrip_idem. Qed.

Lemma strip_rstrip (s : string) : strip (rstrip s) = strip s.
Proof. unfold strip. now rewrite lstrip_rstrip_comm, rstrip_idem. Qed.

Lemma split_once_app_comma (a b : string) :
  contains "," a = false -> split_once comma (a ++ String comma b) = [a; b].
Proof.
  induction a as [|c a IH]; intros H; [reflexivity |].
  rewrite contains_comma_cons, orb_false_iff in H. destruct H as [Hc Ha].
  simpl. now rewrite Hc, (IH Ha).
Qed.

Lemma contains_app_comma (a b : string) : contains "," (a ++ String comma b) = true.
Proof. apply contains_spec. now exists a, b. Qed.

Lemma lstrip_no_comma (s : string) :
  contains "," s = false -> contains "," (lstrip s) = false.
Proof. rewrite !contains_comma_all_chars. apply all_chars_lstrip. Qed.

(** X14: a coordinate text is cut at its first comma whatever the
    spacing: for every text [a ++ "," ++ b] with no comma in [a], the
    latitude is [a] trimmed and the longitude is [b] trimmed, white
    space around the text or around the comma making no difference and
    further commas staying in the longitude. *)
Theorem parse_coords_first_comma :
  forall (card : Card) (r : PlaceRecord) (el : ElementHandle) (a b : string),
    parse_card card = Some r ->
    query_selector card "p.coords" = Some el ->
    contains "," a = false ->
    inner_text el = a ++ "," ++ b ->
    Latitude r = strip a /\ Longitude r = strip b.
Proof.
  intros card r el a b Hr Hel Ha Htxt.
  destruct (parse_card_fields card r Hr) as [_ [_ [_ [_ [_ [_ Hll]]]]]].
  rewrite Hel in Hll. unfold parse_coords in Hll. rewrite Htxt in Hll.
  change (a ++ "," ++ b) with (a ++ String comma b) in Hll.
  rewrite strip_around_comma, contains_app_comma in Hll.
  rewrite (split_once_app_comma _ _ (lstrip_no_comma a Ha)) in Hll.
  cbn [map] in Hll. rewrite strip_lstrip, strip_rstrip in Hll.
  now injection Hll.
Qed.

Lemma parse_coords_first_comma_witness :
  Latitude (mkPlace "W" EmptyString EmptyString EmptyString "45.0" "-73.0, 12") = strip " 45.0 "
  /\ Longitude (mkPlace "W" EmptyString EmptyString EmptyString "45.0" "-73.0, 12")
     = strip "  -73.0, 12 ".
Proof.
  exact (parse_coords_first_comma
           (card_of (Some "W") None (Some " 45.0 ,  -73.0, 12 "))
           (mkPlace "W" EmptyString EmptyString EmptyString "45.0" "-73.0, 12")
           (mkElement " 45.0 ,  -73.0, 12 ") " 45.0 " "  -73.0, 12 "
           eq_refl eq_refl eq_refl eq_refl).
Defined.

Lemma all_space_no_comma (w : string) :
  all_chars isspace w = true -> contains "," w = false.
Proof.
  intros H. apply contains_comma_all_chars.
  induction w as [|c w IH]; [reflexivity |].
  cbn [all_chars] in *. apply andb_true_iff in H. destruct H as [Hc Hw].
  unfold not_comma at 1. now rewrite (space_not_comma c Hc), (IH Hw).
Qed.

Lemma strip_lead_space (c : ascii) (h : string) :
  isspace c = true -> strip (String c h) = strip h.
Proof. intros H. unfold strip. simpl. now rewrite H. Qed.

(** White space before a label does not change its segments. *)
Lemma label_parts_lead (w s : string) :
  all_chars isspace w = true -> label_parts (w ++ s) = label_parts s.
Proof.
  induction w as [|c w IH]; [reflexivity |].
  cbn [all_chars]. rewrite andb_true_iff. intros [Hc Hw].
  rewrite <- (IH Hw). change (String c w ++ s) with (String c (w ++ s)).
  destruct (split_cons_other c (w ++ s) (space_not_comma c Hc)) as [h [t [E1 E2]]].
  unfold label_parts. rewrite E2, E1. cbn [filter].
  rewrite (strip_lead_space c h Hc).
  destruct (truthy (strip h)); cbn [map]; [| reflexivity].
  now rewrite (strip_lead_space c h Hc).
Qed.

Lemma lstrip_app_nonblank (l w : string) :
  lstrip l <> EmptyString -> lstrip (l ++ w) = lstrip l ++ w.
Proof.
  induction l as [|c l IH]; simpl; [congruence |].
  destruct (isspace c); [exact IH | reflexivity].
Qed.

Lemma rstrip_app_space (x w : string) :
  all_chars isspace w = true -> rstrip (x ++ w) = rstrip x.
Proof.
  intros Hw. induction x as [|c x IH]; simpl.
  - now apply rstrip_all_space.
  - now rewrite IH.
Qed.

Lemma strip_app_space (l w : string) :
  all_chars isspace w = true -> strip (l ++ w) = strip l.
Proof.
  intros Hw. unfold strip.
  destruct (lstrip l) as [|c r] eqn:E.
  - apply lstrip_empty_inv in E.
    rewrite lstrip_all_space; [reflexivity |].
    now rewrite all_chars_app, E, Hw.
  - rewrite lstrip_app_nonblank by (rewrite E; discriminate).
    rewrite E. now apply rstrip_app_space.
Qed.

(** White space after a text goes to its last piece. *)
Lemma split_trail (s w : string) :
  all_chars isspace w = true ->
  split comma (s ++ w)
  = (removelast (split comma s)
     ++ [(last (split comma s) EmptyString ++ w)%string])%list.
Proof.
  intros Hw. induction s as [|c s IH].
  - cbn. now apply split_no_comma, all_space_no_comma.
  - change (String c s ++ w) with (String c (s ++ w)). cbn [split].
    rewrite IH.
    destruct (split comma s) as [|h t] eqn:Es; [now apply split_nonempty in Es |].
    destruct (Ascii.eqb c comma).
    + reflexivity.
    + destruct t as [|h2 t]; reflexivity.
Qed.

(** White space after a label does not change its segments. *)
Lemma label_parts_trail (s w : string) :
  all_chars isspace w = true -> label_parts (s ++ w) = label_parts s.
Proof.
  intros Hw. unfold label_parts. rewrite (split_trail s w Hw).
  rewrite (app_removelast_last EmptyString (split_nonempty comma s)) at 3.
  rewrite !filter_app, !map_app. f_equal.
  cbn [filter]. rewrite (strip_app_space _ w Hw).
  destruct (truthy (strip (last (split comma s) EmptyString))); cbn [map];
    [| reflexivity].
  now rewrite (strip_app_space _ w Hw).
Qed.

(** The strip of the whole label changes nothing for its segments. *)
Lemma label_parts_strip (s : string) : label_parts (strip s) = label_parts s.
Proof.
  destruct (strip_frame s) as [w1 [w2 [E [H1 H2]]]].
  rewrite E at 2. now rewrite (label_parts_lead w1 _ H1), (label_parts_trail _ w2 H2).
Qed.

(** Pieces without comma, joined by commas, split back into themselves. *)
Lemma split_join_pieces (pieces : list string) :
  pieces <> [] ->
  Forall (fun p => contains "," p = false) pieces ->
  split comma (join "," pieces) = pieces.
Proof.
  intros Hne H. induction H as [|x l Hx Hl IH]; [congruence |].
  destruct l as [|y l].
  - now apply split_no_comma.
  - change (join "," (x :: y :: l)) with (x ++ String comma (join "," (y :: l))).
    rewrite (split_app_comma _ _ Hx). f_equal. apply IH. discriminate.
Qed.

(** X15: the segments of a label are its comma-separated pieces, each
    trimmed, without the blank ones: white space around the label or
    around a piece, and empty pieces, make no difference to the name,
    address and country. *)
Theorem label_pieces :
  forall (card : Card) (el : ElementHandle) (r : PlaceRecord) (pieces : list string),
    query_selector card "span.name" = Some el ->
    parse_card card = Some r ->
    pieces <> [] ->
    Forall (fun p => contains "," p = false) pieces ->
    inner_text el = join "," pieces ->
    label_parts (strip (inner_text el))
    = map strip (filter (fun p => truthy (strip p)) pieces)
    /\ Name r = hd EmptyString (map strip (filter (fun p => truthy (strip p)) pieces))
    /\ Country r
       = (if (1 <? List.length (filter (fun p => truthy (strip p)) pieces))%nat
          then last (map strip (filter (fun p => truthy (strip p)) pieces)) EmptyString
          else EmptyString).
Proof.
  intros card el r pieces Hel Hr Hne Hp Htxt.
  assert (Hparts : label_parts (strip (inner_text el))
                   = map strip (filter (fun p => truthy (strip p)) pieces)).
  { rewrite label_parts_strip, Htxt. unfold label_parts.
    now rewrite (split_join_pieces pieces Hne Hp). }
  destruct (parse_card_fields card r Hr) as [el' [Hel' [Hn [Hc _]]]].
  rewrite Hel in Hel'. injection Hel' as <-.
  rewrite Hparts in Hn, Hc. rewrite length_map in Hc.
  now repeat split.
Qed.

Lemma label_pieces_witness :
  label_parts (strip "  Workshop ,, 12 Main St ,  , Canada  ")
  = map strip (filter (fun p => truthy (strip p))
                      ["  Workshop "; EmptyString; " 12 Main St "; "  "; " Canada  "]).
Proof.
  refine (proj1 (label_pieces
                   (card_of (Some "  Workshop ,, 12 Main St ,  , Canada  ") None None)
                   (mkElement "  Workshop ,, 12 Main St ,  , Canada  ")
                   (mkPlace "Workshop" "12 Main St" "Canada"
                            EmptyString EmptyString EmptyString)
                   ["  Workshop "; EmptyString; " 12 Main St "; "  "; " Canada  "]
                   eq_refl eq_refl _ _ eq_refl)).
  - discriminate.
  - repeat constructor.
Defined.

(** ** Recovery *)

Lemma range_split (lo mid hi : Z) :
  (lo <= mid <= hi)%Z -> range lo hi = (range lo mid ++ range mid hi)%list.
Proof.
  intros H.
  remember (Z.to_nat (hi - mid)) as n eqn:En.
  revert hi H En. induction n as [|n IH]; intros hi H En.
  - assert (hi = mid) by lia. subst hi.
    unfold range at 3. replace (Z.to_nat (mid - mid)) with 0%nat by lia.
    cbn. now rewrite app_nil_r.
  - replace hi with (hi - 1 + 1)%Z by lia.
    rewrite (range_last lo (hi - 1)), (range_last mid (hi - 1)) by lia.
    rewrite (IH (hi - 1)%Z) by lia. now rewrite app_assoc.
Qed.

Lemma retry_loop_app {W : Type} (s : Session W) (url : string) (t : Z)
    (l1 l2 : list Z) (le : option exn) (st : Run W) :
  retry_loop s url t (l1 ++ l2)%list le st
  = match retry_loop s url t l1 le st with
    | (st1, Ok (inl data)) => (st1, Ok (inl data))
    | (st1, Ok (inr le1)) => retry_loop s url t l2 le1 st1
    | (st1, Raise e) => (st1, Raise e)
    end.
Proof.
  revert le st. induction l1 as [|a l1 IH]; intros le st; [reflexivity |].
  change ((a :: l1) ++ l2)%list with (a :: (l1 ++ l2))%list.
  rewrite !retry_loop_cons.
  destruct (one_attempt s url t a st) as [st1 [[data | e] | e]];
    [reflexivity | apply IH | reflexivity].
Qed.

(** X16: the retries recover.  When the attempts before the k-th all
    failed with errors the loop catches and the k-th attempt returns
    records, the acquisition returns those records: the earlier errors
    are not reported, the later attempts are not made, and the run has
    made exactly k navigations. *)
Theorem retry_recovers :
  forall (W : Type) (s : Session W) (url : string) (N t k : Z) (w : W)
         (st1 st2 : Run W) (le : option exn) (data : list PlaceRecord),
    (1 <= k <= N)%Z ->
    retry_loop s url t (range 1 k) None (fst (session_setup t (start w)))
    = (st1, Ok (inr le)) ->
    attempt_body s url t st1 = (st2, Ok data) ->
    scrape_with_playwright s url N t (start w)
    = (mkRun (world st2) (trace st2 ++ [EvStop])%list, Ok data)
    /\ count_events is_goto (trace st2) = Z.to_nat k
    /\ count_events is_close (trace st2) = 1%nat.
Proof.
  intros W s url N t k w st1 st2 le data Hk Hloop Hbody.
  rewrite session_setup_run in Hloop. cbn [fst start world trace app] in Hloop.
  split.
  - rewrite scrape_unfold. cbn [start world trace app].
    rewrite (range_split 1 k (N + 1)) by lia.
    rewrite retry_loop_app, Hloop, (range_first k (N + 1)) by lia.
    rewrite retry_loop_cons. unfold one_attempt, try_except, bind, ret.
    now rewrite Hbody.
  - destruct (retry_loop_trace s url t (range 1 k) None (mkRun w (setup_events t)))
      as [evs [Ht [Hl Hr]]].
    rewrite Hloop in Ht, Hr. cbn [fst snd trace] in Ht, Hr.
    destruct Hr as [C0 [G0 _]].
    pose proof (attempt_body_outcome s url t st1) as B.
    rewrite Hbody in B. cbn [fst snd] in B.
    inversion B as [w0 evs' Hd Hevs' |]; subst. cbn [trace].
    destruct (setup_events_loop_free t) as [Cs [_ [Gs _]]].
    rewrite Ht.
    change (EvGoto url :: evs' ++ [EvClose])%list
      with ([EvGoto url] ++ evs' ++ [EvClose])%list.
    rewrite !count_events_app, Cs, Gs, C0, G0,
      (count_events_none _ _ _ waits_no_goto Hevs'),
      (count_events_none _ _ _ waits_no_close Hevs').
    unfold range. rewrite length_map, length_seq. cbn. split; lia.
Qed.

Lemma retry_recovers_witness :
  scrape_with_playwright flaky_session SEARCH_URL 3 70000 (start 0%nat)
  = (mkRun 2%nat
       ((setup_events 70000
         ++ [EvGoto SEARCH_URL; EvScreenshot (error_snapshot 1); EvReload]
         ++ first_try_events SEARCH_URL) ++ [EvStop])%list,
     Ok [sample_record]).
Proof.
  refine (proj1 (retry_recovers nat flaky_session SEARCH_URL 3 70000 2 0%nat
                  (mkRun 1%nat (setup_events 70000
                                ++ [EvGoto SEARCH_URL;
                                    EvScreenshot (error_snapshot 1); EvReload])%list)
                  (mkRun 2%nat (setup_events 70000
                                ++ [EvGoto SEARCH_URL;
                                    EvScreenshot (error_snapshot 1); EvReload]
                                ++ first_try_events SEARCH_URL)%list)
                  (Some (PlaywrightTimeoutError "Timeout 70000ms exceeded."))
                  [sample_record]
                  _ eq_refl eq_refl)).
  lia.
Defined.

(* ================================================================== *)
(** * Part IV. The program on a host where every call may fail *)
(* ================================================================== *)

(** ** Reasoning call by call *)

Section Calls.
Context {W : Type}.

Lemma Logs_ret {A} (P : event -> bool) (a : A) : Logs P (@ret W A a).
Proof. intros st. exists []. cbn. now rewrite app_nil_r. Qed.

Lemma Logs_raise {A} (P : event -> bool) (e : exn) : Logs P (@raise W A e).
Proof. intros st. exists []. cbn. now rewrite app_nil_r. Qed.

Lemma Logs_pure {A} (P : event -> bool) (f : Run W -> A) :
  Logs P (fun st : Run W => (st, Ok (f st))).
Proof. intros st. exists []. cbn. now rewrite app_nil_r. Qed.

Lemma Logs_call (P : event -> bool) (ev : event) (op : W -> W * option exn) :
  P ev = true -> Logs P (call ev op).
Proof.
  intros H st. exists [ev]. unfold call.
  destruct (op (world st)) as [w' r]. cbn. now rewrite H.
Qed.

Lemma Logs_bind {A B} (P : event -> bool) (m : M W A) (k : A -> M W B) :
  Logs P m -> (forall a, Logs P (k a)) -> Logs P (bind m k).
Proof.
  intros Hm Hk st. unfold bind.
  destruct (Hm st) as [evs1 [E1 F1]].
  destruct (m st) as [st1 [a | e]]; cbn [fst] in *.
  - destruct (Hk a st1) as [evs2 [E2 F2]].
    exists (evs1 ++ evs2)%list. now rewrite E2, E1, app_assoc, forallb_app, F1, F2.
  - now exists evs1.
Qed.

Lemma Logs_try_except {A} (P : event -> bool) (body : M W A)
    (classes : exn -> bool) (handler : exn -> M W A) :
  Logs P body -> (forall e, Logs P (handler e)) ->
  Logs P (try_except body classes handler).
Proof.
  intros Hb Hh st. unfold try_except.
  destruct (Hb st) as [evs1 [E1 F1]].
  destruct (body st) as [st1 [a | e]]; cbn [fst] in *.
  - now exists evs1.
  - destruct (classes e); [| now exists evs1].
    destruct (Hh e st1) as [evs2 [E2 F2]].
    exists (evs1 ++ evs2)%list. now rewrite E2, E1, app_assoc, forallb_app, F1, F2.
Qed.

Lemma Logs_with_exit {A} (P : event -> bool) (body : M W A) (ev : event)
    (exit_ : W -> W * option exn) :
  Logs P body -> P ev = true -> Logs P (Host.with_exit body ev exit_).
Proof.
  intros Hb Hs st. unfold Host.with_exit, call.
  destruct (Hb st) as [evs1 [E1 F1]].
  destruct (body st) as [st1 r]; cbn [fst trace] in *.
  exists (evs1 ++ [ev])%list.
  destruct (exit_ (world st1)) as [w' [e |]]; cbn [fst trace];
    rewrite E1, app_assoc, forallb_app, F1; cbn; now rewrite Hs.
Qed.

Lemma Returns_ret {A} (Q : A -> Prop) (a : A) : Q a -> Returns Q (@ret W A a).
Proof. intros H st st' b E. injection E as _ <-. exact H. Qed.

Lemma Returns_raise {A} (Q : A -> Prop) (e : exn) : Returns Q (@raise W A e).
Proof. intros st st' b E. discriminate E. Qed.

Lemma Returns_bind {A B} (Q : B -> Prop) (m : M W A) (k : A -> M W B) :
  (forall a, Returns Q (k a)) -> Returns Q (bind m k).
Proof.
  intros Hk st st' b E. unfold bind in E.
  destruct (m st) as [st1 [a | e]]; [exact (Hk a st1 st' b E) | discriminate E].
Qed.

Variable h : Host.Env W.

Lemma Tied_ret {A} (own : exn -> Prop) (P : event -> bool) (a : A) :
  TiedOr h own P (@ret W A a).
Proof. intros st st' e E. discriminate E. Qed.

Lemma Tied_pure {A} (own : exn -> Prop) (P : event -> bool) (f : Run W -> A) :
  TiedOr h own P (fun st : Run W => (st, Ok (f st))).
Proof. intros st st' e E. discriminate E. Qed.

Lemma Tied_no_cards {A} : Tied h (@raise W A NO_CARDS).
Proof. intros st st' e E. injection E as _ <-. now left. Qed.

Lemma Tied_call (own : exn -> Prop) (P : event -> bool) (ev : event)
    (op : W -> W * option exn) :
  (forall w e, snd (op w) = Some e -> Host.raises_at h ev w e) ->
  P ev = true ->
  TiedOr h own P (call ev op).
Proof.
  intros Hop Ha st st' e E. unfold call in E.
  destruct (op (world st)) as [w' [e' |]] eqn:Eo; [| discriminate E].
  injection E as <- <-. right. exists (trace st), ev, (world st).
  repeat split; [| exact Ha]. apply Hop. now rewrite Eo.
Qed.

Lemma Tied_bind {A B} (own : exn -> Prop) (P : event -> bool) (m : M W A)
    (k : A -> M W B) :
  TiedOr h own P m -> (forall a, TiedOr h own P (k a)) -> TiedOr h own P (bind m k).
Proof.
  intros Hm Hk st st' e E. unfold bind in E.
  destruct (m st) as [st1 [a | e1]] eqn:Em.
  - exact (Hk a st1 st' e E).
  - injection E as <- <-. exact (Hm st st1 e1 Em).
Qed.

Lemma try_close_raises (w : W) (e : exn) :
  snd (Host.try_close h w) = Some e -> Host.raises_at h EvClose w e.
Proof.
  unfold Host.try_close. intros H. apply Host.close_raises.
  destruct (Host.close_fails h w); [exact H | discriminate H].
Qed.
End Calls.

(** The three properties of a computation written with [bind],
    [call], [ret], [raise] and [if], found by its shape. *)
Ltac by_shape :=
  repeat first
    [ apply Logs_ret | apply Logs_raise | apply Logs_pure
    | apply Logs_call; reflexivity
    | apply Logs_bind; [| intros]
    | apply Tied_ret | apply Tied_pure | apply Tied_no_cards
    | apply Tied_call;
      [ intros ? ? ?; first [ now apply try_close_raises
                            | econstructor; eassumption ]
      | reflexivity ]
    | apply Tied_bind; [| intros]
    | apply Returns_raise
    | apply Returns_bind; intros
    | match goal with
      | |- Logs _ (if ?b then _ else _) => destruct b
      | |- Tied _ (if ?b then _ else _) => destruct b
      | |- TiedOr _ _ _ (if ?b then _ else _) => destruct b
      end ].

(** ** One attempt on the host *)

Section HostAttempt.
Context {W : Type} (h : Host.Env W) (url : string) (t : Z).

Lemma host_attempt_body_logs : Logs Host.is_acquisition (Host.attempt_body h url t).
Proof.
  unfold Host.attempt_body, Host.page_goto, Host.page_wait_for_selector,
    Host.page_wait_for_timeout, Host.page_parse_cards, Host.browser_close,
    Host.page_screenshot, DEBUG_HEADED.
  by_shape.
Qed.

Lemma host_attempt_body_tied : Tied h (Host.attempt_body h url t).
Proof.
  unfold Host.attempt_body, Host.page_goto, Host.page_wait_for_selector,
    Host.page_wait_for_timeout, Host.page_parse_cards, Host.browser_close,
    Host.page_screenshot, DEBUG_HEADED.
  by_shape.
Qed.

Lemma host_attempt_body_returns :
  Returns (fun data => data <> []) (Host.attempt_body h url t).
Proof.
  unfold Host.attempt_body, DEBUG_HEADED.
  do 5 (apply Returns_bind; intros).
  destruct a3 as [|r0 d0]; cbn [nonempty].
  - do 2 (apply Returns_bind; intros).
    destruct a4 as [|r1 d1]; cbn [nonempty]; [apply Returns_raise |].
    do 2 (apply Returns_bind; intros). now apply Returns_ret.
  - do 2 (apply Returns_bind; intros). now apply Returns_ret.
Qed.
End HostAttempt.

Section HostLoop.
Context {W : Type} (h : Host.Env W) (url : string) (t : Z).

(** The handler ends normally whatever the snapshot and the reload do. *)
Lemma host_on_failure_swallows (attempt : Z) (st : Run W) :
  exists w,
    Host.on_failure h attempt t st
    = (mkRun w (trace st ++ [EvScreenshot (error_snapshot attempt); EvReload])%list,
       Ok tt).
Proof.
  unfold Host.on_failure, bind, swallow, try_except, Host.page_screenshot,
    Host.page_reload, call, ret, error_snapshot.
  destruct (screenshot (Host.session h) _ (world st)) as [w1 [e1|]]; cbn [world trace];
    destruct (reload (Host.session h) _ t w1) as [w2 [e2|]]; cbn [world trace];
    rewrite <- app_assoc; now exists w2.
Qed.

(** The three ways an iteration ends. *)
Lemma host_one_attempt_cases (attempt : Z) (st : Run W) :
  match Host.one_attempt h url t attempt st with
  | (st', Ok (inl data)) => Host.attempt_body h url t st = (st', Ok data)
  | (st', Ok (inr e)) =>
      exists st_f,
        Host.attempt_body h url t st = (st_f, Raise e)
        /\ retryable e = true
        /\ trace st'
           = (trace st_f ++ [EvScreenshot (error_snapshot attempt); EvReload])%list
  | (st', Raise e) =>
      Host.attempt_body h url t st = (st', Raise e) /\ retryable e = false
  end.
Proof.
  unfold Host.one_attempt, try_except, bind, ret.
  destruct (Host.attempt_body h url t st) as [st1 [data | e]]; [reflexivity |].
  destruct (retryable e) eqn:R; [| now split].
  destruct (host_on_failure_swallows attempt st1) as [w Hw]. rewrite Hw.
  now exists st1.
Qed.

Lemma host_one_attempt_logs (attempt : Z) :
  Logs Host.is_acquisition (Host.one_attempt h url t attempt).
Proof.
  unfold Host.one_attempt. apply Logs_try_except.
  - apply Logs_bind; [apply host_attempt_body_logs | intros; apply Logs_ret].
  - intros e. apply Logs_bind; [| intros; apply Logs_ret].
    intros st. destruct (host_on_failure_swallows attempt st) as [w Hw].
    rewrite Hw. now eexists.
Qed.

Lemma host_retry_loop_cons (attempt : Z) (rest : list Z) (le : option exn)
    (st : Run W) :
  Host.retry_loop h url t (attempt :: rest) le st
  = match Host.one_attempt h url t attempt st with
    | (st1, Ok (inl data)) => (st1, Ok (inl data))
    | (st1, Ok (inr e)) => Host.retry_loop h url t rest (Some e) st1
    | (st1, Raise e) => (st1, Raise e)
    end.
Proof.
  cbn [Host.retry_loop]. unfold bind at 1.
  destruct (Host.one_attempt h url t attempt st) as [st1 [[data | e] | e]]; reflexivity.
Qed.

Lemma host_retry_loop_logs (l : list Z) (le : option exn) :
  Logs Host.is_acquisition (Host.retry_loop h url t l le).
Proof.
  revert le. induction l as [|a l IH]; intros le; cbn [Host.retry_loop].
  - apply Logs_ret.
  - apply Logs_bind; [apply host_one_attempt_logs |].
    intros [data | e]; [apply Logs_ret | apply IH].
Qed.

(** How the loop ends: with the records of the attempt that returned,
    which are not empty; with the error of the last attempt, when all
    were made and failed; or with an error the loop does not catch,
    which is the error of the call made last. *)
Lemma host_retry_loop_cases (l : list Z) (le : option exn) (st : Run W) :
  match Host.retry_loop h url t l le st with
  | (st', Ok (inl data)) => data <> []
  | (st', Ok (inr le')) =>
      (l = [] /\ le' = le /\ st' = st)
      \/ (l <> []
          /\ exists st_b st_f e0,
               Host.attempt_body h url t st_b = (st_f, Raise e0)
               /\ retryable e0 = true
               /\ le' = Some e0
               /\ trace st'
                  = (trace st_f
                     ++ [EvScreenshot (error_snapshot (last l 0%Z)); EvReload])%list)
  | (st', Raise e) =>
      retryable e = false
      /\ exists before ev w,
           trace st' = (before ++ [ev])%list
           /\ Host.raises_at h ev w e
           /\ is_try_call ev = true
  end.
Proof.
  revert le st. induction l as [|a l IH]; intros le st.
  - cbn. left. now repeat split.
  - rewrite host_retry_loop_cons.
    pose proof (host_one_attempt_cases a st) as O.
    destruct (Host.one_attempt h url t a st) as [st1 [[data | e] | e]].
    + exact (host_attempt_body_returns h url t st st1 data O).
    + specialize (IH (Some e) st1).
      destruct (Host.retry_loop h url t l (Some e) st1) as [st2 [[data | le'] | e']].
      * exact IH.
      * right. split; [discriminate |].
        destruct IH as [[-> [-> ->]] | [Hne [st_b [st_f [e0 H]]]]].
        -- destruct O as [st_f [Hb [R Ht]]]. now exists st, st_f, e.
        -- exists st_b, st_f, e0. destruct l as [|b l]; [congruence | exact H].
      * exact IH.
    + destruct O as [Hb R]. split; [exact R |].
      destruct (host_attempt_body_tied h url t st st1 e Hb) as [-> | H];
        [discriminate R | exact H].
Qed.
End HostLoop.

(** ** The acquisition on the host *)

Section HostAcquisition.
Context {W : Type} (h : Host.Env W) (url : string) (N t : Z).

Lemma host_retry_loop_snoc (l : list Z) (a : Z) (le : option exn) (st : Run W) :
  Host.retry_loop h url t (l ++ [a])%list le st
  = match Host.retry_loop h url t l le st with
    | (st1, Ok (inl data)) => (st1, Ok (inl data))
    | (st1, Ok (inr le1)) => Host.retry_loop h url t [a] le1 st1
    | (st1, Raise e) => (st1, Raise e)
    end.
Proof.
  revert le st. induction l as [|b l IH]; intros le st; [reflexivity |].
  change ((b :: l) ++ [a])%list with (b :: (l ++ [a]))%list.
  rewrite !host_retry_loop_cons.
  destruct (Host.one_attempt h url t b st) as [st1 [[data | e] | e]];
    [reflexivity | apply IH | reflexivity].
Qed.

(** When the attempts run out, the last one started where the earlier
    ones, all failed, left the run, and its [try] block raised the
    error the loop ends with. *)
Lemma host_retry_loop_exhausted (l : list Z) (a : Z) (le le' : option exn)
    (st st' : Run W) :
  Host.retry_loop h url t (l ++ [a])%list le st = (st', Ok (inr le')) ->
  exists (st_b st_f : Run W) (prev : option exn) (e0 : exn),
    Host.retry_loop h url t l le st = (st_b, Ok (inr prev))
    /\ Host.attempt_body h url t st_b = (st_f, Raise e0)
    /\ retryable e0 = true
    /\ le' = Some e0
    /\ trace st' = (trace st_f ++ [EvScreenshot (error_snapshot a); EvReload])%list.
Proof.
  rewrite host_retry_loop_snoc.
  destruct (Host.retry_loop h url t l le st) as [st_b [[data | prev] | e]];
    try discriminate.
  rewrite host_retry_loop_cons.
  pose proof (host_one_attempt_cases h url t a st_b) as O.
  destruct (Host.one_attempt h url t a st_b) as [st1 [[data | e] | e]];
    try discriminate.
  cbn [Host.retry_loop]. unfold ret. intros E. injection E as <- <-.
  destruct O as [st_f [Hb [R Ht]]]. now exists st_b, st_f, prev, e.
Qed.

Lemma host_session_setup_logs : Logs Host.is_acquisition (Host.session_setup h t).
Proof. unfold Host.session_setup, DEBUG_HEADED. by_shape. Qed.

Lemma host_session_setup_strict : Strict h (Host.session_setup h t).
Proof. unfold Strict, Host.session_setup, DEBUG_HEADED. by_shape. Qed.

Lemma host_scrape_logs :
  Logs Host.is_acquisition (Host.scrape_with_playwright h url N t).
Proof.
  unfold Host.scrape_with_playwright.
  apply Logs_bind; [now apply Logs_call | intros _].
  apply Logs_with_exit; [| reflexivity].
  apply Logs_bind; [apply host_session_setup_logs | intros _].
  apply Logs_bind; [apply host_retry_loop_logs |].
  intros [data | le]; [apply Logs_ret |].
  unfold Host.after_loop, Host.browser_close. by_shape.
Qed.

(** How the body of the [with] block ends: with records, never none;
    with the terminal error, after the attempts ran out and the
    browser was closed; or with the error of the call made last, a
    call of the setup, of a [try] block or the close after the loop. *)
Lemma host_session_cases (st0 : Run W) :
  match (Host.session_setup h t ;;
         r <- Host.retry_loop h url t (range 1 (N + 1)) None ;
         match r with
         | inl data => ret data
         | inr last_error => Host.after_loop h N last_error
         end) st0
  with
  | (st', Ok data) => data <> []
  | (st', Raise e) =>
      ((1 <= N)%Z
       /\ exists (st_s st_b st_f : Run W) (prev : option exn) (e0 : exn),
            Host.session_setup h t st0 = (st_s, Ok tt)
            /\ Host.retry_loop h url t (range 1 N) None st_s = (st_b, Ok (inr prev))
            /\ Host.attempt_body h url t st_b = (st_f, Raise e0)
            /\ retryable e0 = true
            /\ trace st'
               = (trace st_f ++ [EvScreenshot (error_snapshot N); EvReload; EvClose])%list
            /\ e = RuntimeError ("Failed after " ++ str_Z N ++ " attempts: "
                                 ++ str_exn e0))
      \/ ((N <= 0)%Z /\ e = RuntimeError (failed_message N None))
      \/ (exists (before : list event) (ev : event) (w : W),
            trace st' = (before ++ [ev])%list
            /\ Host.raises_at h ev w e
            /\ (is_setup_call ev = true \/ is_try_call ev = true)
            /\ match ev with
               | EvGoto _ | EvWaitForSelector _ _ | EvWaitForTimeout _
               | EvParseCards => retryable e = false
               | _ => True
               end)
  end.
Proof.
  unfold bind at 1.
  destruct (Host.session_setup h t st0) as [st1 [[] | e]] eqn:Eset.
  2:{ right. right.
      destruct (host_session_setup_strict st0 st1 e Eset)
        as [[] | [before [ev [w [Ht [Hr Ha]]]]]].
      exists before, ev, w. split; [exact Ht |]. split; [exact Hr |].
      split; [now left | now destruct ev]. }
  unfold bind at 1.
  pose proof (host_retry_loop_cases h url t (range 1 (N + 1)) None st1) as L.
  destruct (Host.retry_loop h url t (range 1 (N + 1)) None st1)
    as [st2 [[data | le] | e]] eqn:El.
  - exact L.
  - unfold Host.after_loop, bind, raise.
    destruct (Host.browser_close h st2) as [st3 [[] | e]] eqn:Ec.
    + assert (Ht3 : trace st3 = (trace st2 ++ [EvClose])%list).
      { unfold Host.browser_close, call in Ec.
        destruct (Host.try_close h (world st2)) as [w' [e' |]]; [discriminate Ec |].
        now injection Ec as <-. }
      destruct (Z_le_gt_dec N 0) as [HN | HN].
      * right. left. split; [exact HN |].
        assert (Er : range 1 (N + 1) = []).
        { unfold range. now replace (Z.to_nat (N + 1 - 1)) with 0%nat by lia. }
        rewrite Er in El. cbn in El. now injection El as _ <-.
      * left. split; [lia |].
        rewrite (range_last 1 N) in El by lia.
        destruct (host_retry_loop_exhausted _ _ _ _ _ _ El)
          as [st_b [st_f [prev [e0 [Hl [Hb [R [-> Ht]]]]]]]].
        exists st1, st_b, st_f, prev, e0.
        split; [reflexivity |].
        split; [exact Hl |]. split; [exact Hb |]. split; [exact R |].
        split; [| reflexivity].
        now rewrite Ht3, Ht, <- !app_assoc.
    + right. right. unfold Host.browser_close, call in Ec.
      destruct (Host.try_close h (world st2)) as [w' [e' |]] eqn:Eo; [| discriminate Ec].
      injection Ec as <- <-. exists (trace st2), EvClose, (world st2).
      split; [reflexivity |].
      split; [apply try_close_raises; now rewrite Eo |].
      split; [now right | exact I].
  - right. right. destruct L as [R [before [ev [w [Ht [Hr Ha]]]]]].
    exists before, ev, w. split; [exact Ht |]. split; [exact Hr |].
    split; [now right | now destruct ev].
Qed.

(** How an acquisition ends: with records, never none; with the
    terminal error; or with the error of the call made last. *)
Lemma host_scrape_cases (st : Run W) :
  match Host.scrape_with_playwright h url N t st with
  | (st', Ok data) => data <> []
  | (st', Raise e) =>
      ((1 <= N)%Z /\ terminal_failure h url N t st st' e)
      \/ ((N <= 0)%Z /\ e = RuntimeError (failed_message N None))
      \/ raw_failure h st st' e
  end.
Proof.
  unfold Host.scrape_with_playwright, bind at 1.
  destruct (call EvStart (Host.start_driver h) st) as [st0 [[] | e]] eqn:Es.
  2:{ right. right. unfold call in Es.
      destruct (Host.start_driver h (world st)) as [w' [e' |]] eqn:Eo;
        [| discriminate Es].
      injection Es as <- <-. exists [], EvStart, (world st).
      split; [apply Host.start_raises; now rewrite Eo |].
      split; reflexivity. }
  unfold Host.with_exit.
  pose proof (host_session_cases st0) as B.
  destruct ((Host.session_setup h t ;;
             r <- Host.retry_loop h url t (range 1 (N + 1)) None ;
             match r with
             | inl data => ret data
             | inr last_error => Host.after_loop h N last_error
             end) st0) as [st1 r].
  unfold call.
  destruct (Host.stop_driver h (world st1)) as [w' [e' |]] eqn:Eo.
  { right. right. exists (trace st1), EvStop, (world st1).
    split; [apply Host.stop_raises; now rewrite Eo |].
    split; reflexivity. }
  destruct r as [data | e]; [exact B |].
  destruct B as [[HN T] | [HN | Hraw]].
  - left. split; [exact HN |].
    destruct T as [st_s [st_b [st_f [prev [e0 [Hs [Hl [Hb [R [Ht ->]]]]]]]]]].
    exists st_s, st_b, st_f, prev, e0.
    split; [unfold bind; now rewrite Es |].
    split; [exact Hl |]. split; [exact Hb |]. split; [exact R |].
    split; [| reflexivity].
    cbn [trace]. now rewrite Ht, <- app_assoc.
  - right. now left.
  - right. right. destruct Hraw as [before [ev [w [Ht [Hr [Hc Hn]]]]]].
    exists before, ev, w. split; [exact Hr |].
    split; [destruct Hc as [Hc | Hc]; now destruct ev |].
    cbn [trace]. rewrite Ht, <- app_assoc. cbn [app].
    destruct Hc as [Hc | Hc]; destruct ev; try discriminate Hc;
      first [reflexivity | now split].
Qed.
End HostAcquisition.

(** ** The controller of a session is the host where only the session fails *)

Section Simulation.
Context {W : Type}.

Lemma erase_snoc (tr : list event) (ev : event) :
  erase (tr ++ [ev])
  = (erase tr ++ (if is_host_call ev then [] else [ev]))%list.
Proof. unfold erase. rewrite filter_app. cbn. now destruct (is_host_call ev). Qed.

Lemma Simulates_ret {A} (a : A) : Simulates (@ret W A a) (ret a).
Proof. intros st sth H. now split. Qed.

Lemma Simulates_raise {A} (e : exn) : Simulates (@raise W A e) (raise e).
Proof. intros st sth H. now split. Qed.

Lemma Simulates_bind {A B} (m mh : M W A) (k kh : A -> M W B) :
  Simulates m mh -> (forall a, Simulates (k a) (kh a)) ->
  Simulates (bind m k) (bind mh kh).
Proof.
  intros Hm Hk st sth H. unfold bind.
  destruct (Hm st sth H) as [Ha Hr].
  destruct (m st) as [st1 r1], (mh sth) as [sth1 rh1]. cbn [fst snd] in *. subst rh1.
  destruct r1 as [a | e]; [now apply Hk | now split].
Qed.

Lemma Simulates_try_except {A} (body bodyh : M W A) (classes : exn -> bool)
    (handler handlerh : exn -> M W A) :
  Simulates body bodyh -> (forall e, Simulates (handler e) (handlerh e)) ->
  Simulates (try_except body classes handler) (try_except bodyh classes handlerh).
Proof.
  intros Hb Hh st sth H. unfold try_except.
  destruct (Hb st sth H) as [Ha Hr].
  destruct (body st) as [st1 r1], (bodyh sth) as [sth1 rh1]. cbn [fst snd] in *.
  subst rh1. destruct r1 as [a | e]; [now split |].
  destruct (classes e); [now apply Hh | now split].
Qed.

Lemma Simulates_call (ev : event) (op : W -> W * option exn) :
  is_host_call ev = false -> Simulates (call ev op) (call ev op).
Proof.
  intros Hev st sth [Hw Ht]. unfold call. rewrite <- Hw.
  destruct (op (world st)) as [w' r]. cbn [fst snd]. split; [| reflexivity].
  split; [reflexivity |]. cbn [trace]. now rewrite erase_snoc, Hev, Ht.
Qed.

Lemma Simulates_log (ev : event) :
  is_host_call ev = false -> Simulates (@log W ev) (call ev Host.never).
Proof.
  intros Hev st sth [Hw Ht]. unfold log, call, Host.never. cbn [fst snd].
  split; [| reflexivity]. split; [exact Hw |].
  cbn [trace]. now rewrite erase_snoc, Hev, Ht.
Qed.

Lemma Simulates_host_call (ev : event) :
  is_host_call ev = true -> Simulates (@ret W unit tt) (call ev Host.never).
Proof.
  intros Hev st sth [Hw Ht]. unfold ret, call, Host.never. cbn [fst snd].
  split; [| reflexivity]. split; [exact Hw |].
  cbn [trace]. now rewrite erase_snoc, Hev, app_nil_r.
Qed.

Lemma Simulates_enter {A} (ev : event) (m mh : M W A) :
  is_host_call ev = true -> Simulates m mh ->
  Simulates m (call ev Host.never ;; mh).
Proof.
  intros Hev Hm st sth H.
  destruct (Simulates_host_call ev Hev st sth H) as [H0 _].
  unfold bind, call, Host.never in *. cbv beta iota. apply Hm. exact H0.
Qed.

Lemma Simulates_exit {A} (m mh : M W A) :
  Simulates m mh ->
  Simulates (finally_ m (fun st => mkRun (world st) (trace st ++ [EvStop])%list))
            (Host.with_exit mh EvStop Host.never).
Proof.
  intros Hm st sth H. unfold finally_, Host.with_exit, call, Host.never.
  destruct (Hm st sth H) as [[Hw Ht] Hr].
  destruct (m st) as [st1 r1], (mh sth) as [sth1 rh1]. cbn [fst snd] in *.
  split; [| exact Hr]. split; [exact Hw |].
  cbn [trace]. now rewrite erase_snoc, Ht.
Qed.

Variable s : Session W.

Lemma Simulates_close : Simulates (browser_close s) (Host.browser_close (Host.of_session s)).
Proof.
  intros st sth [Hw Ht]. unfold browser_close, Host.browser_close, call, Host.try_close.
  cbn [Host.close_fails Host.of_session Host.session fst snd]. rewrite Hw.
  split; [| reflexivity]. split; [reflexivity |].
  cbn [trace]. now rewrite erase_snoc, Ht.
Qed.

Lemma Simulates_parse_cards :
  Simulates (page_parse_cards s) (Host.page_parse_cards (Host.of_session s)).
Proof.
  intros st sth [Hw Ht].
  unfold page_parse_cards, Host.page_parse_cards, bind, call, Host.never.
  cbn [Host.read_dom Host.of_session Host.session Host.never fst snd world trace].
  rewrite Hw. split; [| reflexivity]. split; [exact Hw |].
  cbn [trace fst]. rewrite erase_snoc. cbn [is_host_call]. now rewrite app_nil_r.
Qed.

Ltac simulate :=
  repeat first
    [ apply Simulates_ret | apply Simulates_raise
    | apply Simulates_close | apply Simulates_parse_cards
    | apply Simulates_call; reflexivity
    | apply Simulates_log; reflexivity
    | apply Simulates_bind; [| intros]
    | match goal with
      | |- Simulates (if ?b then _ else _) (if ?b then _ else _) => destruct b
      end ].

Lemma Simulates_attempt_body (url : string) (t : Z) :
  Simulates (attempt_body s url t) (Host.attempt_body (Host.of_session s) url t).
Proof.
  unfold attempt_body, Host.attempt_body, page_goto, Host.page_goto,
    page_wait_for_selector, Host.page_wait_for_selector,
    page_wait_for_timeout, Host.page_wait_for_timeout,
    page_screenshot, Host.page_screenshot, DEBUG_HEADED.
  cbn [Host.session Host.of_session]. simulate.
Qed.

Lemma Simulates_on_failure (attempt t : Z) :
  Simulates (on_failure s attempt t) (Host.on_failure (Host.of_session s) attempt t).
Proof.
  unfold on_failure, Host.on_failure, swallow, page_screenshot, Host.page_screenshot,
    page_reload, Host.page_reload.
  cbn [Host.session Host.of_session].
  apply Simulates_bind; [| intros _];
    (apply Simulates_try_except; [now apply Simulates_call | intros; apply Simulates_ret]).
Qed.

Lemma Simulates_one_attempt (url : string) (t attempt : Z) :
  Simulates (one_attempt s url t attempt)
            (Host.one_attempt (Host.of_session s) url t attempt).
Proof.
  unfold one_attempt, Host.one_attempt. apply Simulates_try_except.
  - apply Simulates_bind; [apply Simulates_attempt_body | intros; apply Simulates_ret].
  - intros e. apply Simulates_bind; [apply Simulates_on_failure |].
    intros; apply Simulates_ret.
Qed.

Lemma Simulates_retry_loop (url : string) (t : Z) (l : list Z) (le : option exn) :
  Simulates (retry_loop s url t l le) (Host.retry_loop (Host.of_session s) url t l le).
Proof.
  revert le. induction l as [|a l IH]; intros le; cbn [retry_loop Host.retry_loop].
  - apply Simulates_ret.
  - apply Simulates_bind; [apply Simulates_one_attempt |].
    intros [data | e]; [apply Simulates_ret | apply IH].
Qed.

Lemma Simulates_session_setup (t : Z) :
  Simulates (@session_setup W t) (Host.session_setup (Host.of_session s) t).
Proof.
  unfold session_setup, Host.session_setup.
  cbn [Host.launch Host.new_context Host.new_page Host.set_default_timeout
       Host.set_default_navigation_timeout Host.route Host.of_session].
  simulate.
Qed.

(** On the host where only the session can fail, the acquisition is
    that of the controller of the session: same result, same world,
    and the same calls but for the two the controller does not log,
    the entry of the Playwright context and the reads of the DOM. *)
Lemma host_of_session_scrape (url : string) (N t : Z) (w : W) :
  snd (Host.scrape_with_playwright (Host.of_session s) url N t (start w))
  = snd (scrape_with_playwright s url N t (start w))
  /\ world (fst (Host.scrape_with_playwright (Host.of_session s) url N t (start w)))
     = world (fst (scrape_with_playwright s url N t (start w)))
  /\ erase (trace (fst (Host.scrape_with_playwright (Host.of_session s) url N t
                          (start w))))
     = trace (fst (scrape_with_playwright s url N t (start w))).
Proof.
  assert (Hsim : Simulates (scrape_with_playwright s url N t)
                   (Host.scrape_with_playwright (Host.of_session s) url N t)).
  { unfold scrape_with_playwright, Host.scrape_with_playwright, Host.after_loop.
    cbn [Host.start_driver Host.stop_driver Host.of_session].
    apply Simulates_enter; [reflexivity |]. apply Simulates_exit.
    apply Simulates_bind; [apply Simulates_session_setup | intros _].
    apply Simulates_bind; [apply Simulates_retry_loop |].
    intros [data | le]; [apply Simulates_ret |].
    apply Simulates_bind; [apply Simulates_close | intros; apply Simulates_raise]. }
  destruct (Hsim (start w) (start w)) as [[Hw Ht] Hr]; [now split |].
  now repeat split.
Qed.
End Simulation.

(** ** The program on the host *)

Lemma acquisition_no_output (ev : event) :
  Host.is_acquisition ev = true -> Host.touches_output ev = false.
Proof. now destruct ev. Qed.

Section HostMain.
Context {W : Type} (h : Host.Env W).



End HostMain.





(** X12: an error that is neither a Playwright timeout nor a
    [RuntimeError] ends the acquisition at once and is passed on as it
    is.  It is the error of the last call the program made: the entry
    of the Playwright context or the setup of the session, a
    navigation, a wait, a read of the DOM by [parse_cards],
    [browser.close()], or the exit of the context.  No snapshot and no
    reload follows that call, and no [browser.close()]: only the exit
    of the context follows a call made inside it.  Nothing of the
    output is touched. *)
Theorem uncaught_error_ends_run :
  forall (W : Type) (h : Host.Env W) (url : string) (N t : Z) (w : W)
         (st : Run W) (e : exn),
    Host.scrape_with_playwright h url N t (start w) = (st, Raise e) ->
    retryable e = false ->
    raw_failure h (start w) st e
    /\ count_events Host.touches_output (trace st) = 0%nat.
Proof.
  intros W h url N t w st e Hrun R.
  pose proof (host_scrape_cases h url N t (start w)) as Hc. rewrite Hrun in Hc.
  split.
  - destruct Hc as [[_ Ht] | [[_ ->] | Hr]]; [| discriminate R | exact Hr].
    destruct Ht as [? [? [? [? [? [_ [_ [_ [_ [_ ->]]]]]]]]]]. discriminate R.
  - destruct (host_scrape_logs h url N t (start w)) as [evs [Ht Hl]].
    rewrite Hrun in Ht. cbn [fst start trace app] in Ht. rewrite Ht.
    exact (count_events_none _ _ _ acquisition_no_output Hl).
Qed.

Lemma uncaught_error_ends_run_witness :
  (raw_failure (Host.no_browser ready_session) (start tt)
     (fst (Host.scrape_with_playwright (Host.no_browser ready_session)
             SEARCH_URL 3 70000 (start tt)))
     (OtherError "Executable doesn't exist")
   /\ trace (fst (Host.scrape_with_playwright (Host.no_browser ready_session)
                    SEARCH_URL 3 70000 (start tt)))
      = [EvStart; EvLaunch true; EvStop])
  /\ raw_failure (Host.of_session offline_session) (start tt)
       (fst (Host.scrape_with_playwright (Host.of_session offline_session)
               SEARCH_URL 3 70000 (start tt)))
       (OtherError "net::ERR_INTERNET_DISCONNECTED").
Proof.
  split; [split |].
  - refine (proj1 (uncaught_error_ends_run unit (Host.no_browser ready_session)
                     SEARCH_URL 3 70000 tt _ (OtherError "Executable doesn't exist")
                     _ eq_refl)).
    vm_compute. reflexivity.
  - vm_compute. reflexivity.
  - refine (proj1 (uncaught_error_ends_run unit (Host.of_session offline_session)
                     SEARCH_URL 3 70000 tt _
                     (OtherError "net::ERR_INTERNET_DISCONNECTED") _ eq_refl)).
    vm_compute. reflexivity.
Defined.
